(** * The Santa Claus problem (sc-c.c): an interleaving model and its properties

    The program of [sc-c.c] is one coordinator thread ([santaThread]), nine
    reindeer threads ([reindeerThread]) and ten elf threads ([elfThread])
    that communicate through four POSIX semaphores, two pthread mutexes and
    five global [int] counters.

    The embedding is a small-step interleaving semantics: a state holds the
    semaphores, the mutexes, the counters and one program point per thread;
    [step t s] runs the next statement of thread [t] (one synchronisation
    call or one access to a global per step) and returns the action that was
    performed together with the new state, or [None] when the thread cannot
    move (it is blocked in [sem_wait] or [pthread_mutex_lock]) or when the
    statement has no defined behaviour in C (signed overflow of an [int],
    unlocking a mutex the thread does not own).  A schedule is a list of
    thread identifiers; [run] executes a schedule and collects the trace.
    The properties are stated for all schedules, that is for all
    interleavings and for every prefix of an execution.  In a reachable
    state every access to [reindeerCount], [elfCount] or [waitingElves] is
    made by the owner of the mutex that guards it (lemma [access_guarded]
    below), so that taking one access per step loses no behaviour.

    The main thread is modelled beside the threads it creates: a process is
    [main] at one of its program points together with the state of the
    threads created so far, and [prun] interleaves the steps of [main] with
    theirs.  [randomSleepMs] is a function of its two arguments and of the
    value that [rand()] returns.

    Left out: the [printf] calls, which write no shared state, save the two
    of lines 227 and 228 that read the statistics; the identifiers that
    [main] hands to the workers in [malloc]ed cells, which only the [printf]
    calls use; failures of [malloc], [sem_init] and [pthread_create], whose
    results the program does not test; the passing of time; and the end of
    [main] (lines 232-239), which destroys the semaphores and the mutexes
    and ends the process. *)

From stdpp Require Import base decidable option list.
From Stdlib Require Import ZArith Lia.

Local Open Scope Z_scope.

(** * Part I: the model *)

(** ** Constants of the program *)

Definition NUM_REINDEER : Z := 9.
Definition NUM_ELVES : Z := 10.
Definition ELF_GROUP_SIZE : Z := 3.
Definition INT_MAX : Z := 2147483647.

(** ** Shared objects *)

(** The four [sem_t] objects. *)
Inductive sem := santaSem | reindeerSem | elfSem | santaMutex.

(** The two [pthread_mutex_t] objects. *)
Inductive mutex := reindeerMutex | elfMutex.

(** The five global [int] variables. *)
Inductive var :=
  reindeerCount | elfCount | waitingElves | deliveries | elfConsultations.

(** Threads: the coordinator, and the workers by their index in
    [reindeerTids] and [elfTids]. *)
Inductive tid := Santa | Reindeer (i : nat) | Elf (i : nat).

Global Instance sem_eq_dec : EqDecision sem.
Proof. solve_decision. Defined.
Global Instance mutex_eq_dec : EqDecision mutex.
Proof. solve_decision. Defined.
Global Instance var_eq_dec : EqDecision var.
Proof. solve_decision. Defined.
Global Instance tid_eq_dec : EqDecision tid.
Proof. solve_decision. Defined.

(** ** Program points *)

(** A program point names the statement the thread executes next; the
    comments give the line of [sc-c.c].  The loop variable [i] of the two
    release loops is part of the program point. *)
Inductive santa_pc :=
  | S_wait_santa            (* 64  sem_wait(&santaSem) *)
  | S_wait_mutex            (* 66  sem_wait(&santaMutex) *)
  | S_lock_r                (* 69  pthread_mutex_lock(&reindeerMutex) *)
  | S_test_r                (* 70  if (reindeerCount == NUM_REINDEER) *)
  | S_release_r (i : Z)     (* 75  for (i < NUM_REINDEER) sem_post(&reindeerSem);
                               79  reindeerCount = 0 on exit *)
  | S_unlock_r              (* 80  pthread_mutex_unlock(&reindeerMutex) *)
  | S_sleep_r               (* 82  usleep(500000) *)
  | S_inc_deliveries        (* 83  deliveries++ *)
  | S_unlock_r_else         (* 88  pthread_mutex_unlock(&reindeerMutex) *)
  | S_lock_e                (* 91  pthread_mutex_lock(&elfMutex) *)
  | S_test_e                (* 92  if (elfCount == ELF_GROUP_SIZE) *)
  | S_release_e (i : Z)     (* 97  for (i < ELF_GROUP_SIZE) sem_post(&elfSem);
                               101 elfCount = 0 on exit *)
  | S_unlock_e              (* 102 pthread_mutex_unlock(&elfMutex) *)
  | S_sleep_e               (* 104 usleep(300000) *)
  | S_inc_consultations     (* 105 elfConsultations++ *)
  | S_unlock_e_else         (* 109 pthread_mutex_unlock(&elfMutex) *)
  | S_post_mutex.           (* 113 sem_post(&santaMutex) *)

Inductive reindeer_pc :=
  | R_vacation              (* 125 usleep(randomSleepMs(2000, 5000) * 1000) *)
  | R_lock                  (* 128 pthread_mutex_lock(&reindeerMutex) *)
  | R_inc                   (* 129 reindeerCount++ *)
  | R_test                  (* 131 if (reindeerCount == NUM_REINDEER) *)
  | R_post_santa            (* 133 sem_post(&santaSem) *)
  | R_unlock                (* 136 pthread_mutex_unlock(&reindeerMutex) *)
  | R_wait                  (* 139 sem_wait(&reindeerSem) *)
  | R_harness.              (* 141 usleep(100000) *)

Inductive elf_pc :=
  | E_work                  (* 154 usleep(randomSleepMs(1000, 4000) * 1000) *)
  | E_lock                  (* 156 pthread_mutex_lock(&elfMutex) *)
  | E_inc                   (* 157 waitingElves++ *)
  | E_test                  (* 159 if (waitingElves == ELF_GROUP_SIZE) *)
  | E_set_count             (* 161 elfCount = ELF_GROUP_SIZE *)
  | E_reset                 (* 162 waitingElves = 0 *)
  | E_post_santa            (* 163 sem_post(&santaSem) *)
  | E_unlock                (* 168 pthread_mutex_unlock(&elfMutex) *)
  | E_wait                  (* 171 sem_wait(&elfSem) *)
  | E_help.                 (* 173 usleep(100000) *)

Global Instance santa_pc_eq_dec : EqDecision santa_pc.
Proof. solve_decision. Defined.
Global Instance reindeer_pc_eq_dec : EqDecision reindeer_pc.
Proof. solve_decision. Defined.
Global Instance elf_pc_eq_dec : EqDecision elf_pc.
Proof. solve_decision. Defined.

(** ** Actions *)

(** What one step does.  [Test x v] is the evaluation of an [if] condition
    that read the value [v] from the global [x]. *)
Inductive event :=
  | SemWait (x : sem)
  | SemPost (x : sem)
  | Lock (m : mutex)
  | Unlock (m : mutex)
  | Incr (x : var)
  | Assign (x : var) (v : Z)
  | Test (x : var) (v : Z)
  | Usleep (us : Z)
  | RandSleep (min_ms max_ms : Z).

Global Instance event_eq_dec : EqDecision event.
Proof. solve_decision. Defined.

(** ** States *)

Record state := State {
  sems : sem → nat;              (* value of each semaphore *)
  mtxs : mutex → option tid;     (* owner of each mutex, [None] when free *)
  vars : var → Z;                (* the global counters *)
  santa : santa_pc;
  reindeer : list reindeer_pc;
  elves : list elf_pc
}.

(** Point-wise update of a finite table. *)
Definition upd {A B} `{EqDecision A} (f : A → B) (a : A) (b : B) : A → B :=
  λ x, if decide (x = a) then b else f x.

Definition set_sems (f : sem → nat) (s : state) : state :=
  State f (mtxs s) (vars s) (santa s) (reindeer s) (elves s).
Definition set_mtxs (f : mutex → option tid) (s : state) : state :=
  State (sems s) f (vars s) (santa s) (reindeer s) (elves s).
Definition set_vars (f : var → Z) (s : state) : state :=
  State (sems s) (mtxs s) f (santa s) (reindeer s) (elves s).
Definition set_santa (p : santa_pc) (s : state) : state :=
  State (sems s) (mtxs s) (vars s) p (reindeer s) (elves s).
Definition set_reindeer (i : nat) (p : reindeer_pc) (s : state) : state :=
  State (sems s) (mtxs s) (vars s) (santa s) (<[i:=p]> (reindeer s)) (elves s).
Definition set_elf (i : nat) (p : elf_pc) (s : state) : state :=
  State (sems s) (mtxs s) (vars s) (santa s) (reindeer s) (<[i:=p]> (elves s)).

(** ** Primitives *)

(** [sem_wait]: blocks (no step) while the value is zero. *)
Definition sem_wait (x : sem) (s : state) : option state :=
  match sems s x with
  | O => None
  | S n => Some (set_sems (upd (sems s) x n) s)
  end.

Definition sem_post (x : sem) (s : state) : state :=
  set_sems (upd (sems s) x (S (sems s x))) s.

(** [pthread_mutex_lock]: blocks (no step) while the mutex is owned. *)
Definition mutex_lock (m : mutex) (t : tid) (s : state) : option state :=
  match mtxs s m with
  | None => Some (set_mtxs (upd (mtxs s) m (Some t)) s)
  | Some _ => None
  end.

(** [pthread_mutex_unlock]: defined only for the owner. *)
Definition mutex_unlock (m : mutex) (t : tid) (s : state) : option state :=
  if decide (mtxs s m = Some t)
  then Some (set_mtxs (upd (mtxs s) m None) s)
  else None.

(** [x++] on an [int]: undefined at [INT_MAX]. *)
Definition var_incr (x : var) (s : state) : option state :=
  if decide (vars s x < INT_MAX)
  then Some (set_vars (upd (vars s) x (vars s x + 1)) s)
  else None.

Definition var_assign (x : var) (v : Z) (s : state) : state :=
  set_vars (upd (vars s) x v) s.

(** ** The three thread bodies *)

(** [santaThread], one statement of the [while (1)] body at a time. *)
Definition santa_step (s : state) : option (event * state) :=
  match santa s with
  | S_wait_santa =>
      s' ← sem_wait santaSem s;
      Some (SemWait santaSem, set_santa S_wait_mutex s')
  | S_wait_mutex =>
      s' ← sem_wait santaMutex s;
      Some (SemWait santaMutex, set_santa S_lock_r s')
  | S_lock_r =>
      s' ← mutex_lock reindeerMutex Santa s;
      Some (Lock reindeerMutex, set_santa S_test_r s')
  | S_test_r =>
      Some (Test reindeerCount (vars s reindeerCount),
            set_santa (if decide (vars s reindeerCount = NUM_REINDEER)
                       then S_release_r 0 else S_unlock_r_else) s)
  | S_release_r i =>
      if decide (i < NUM_REINDEER)
      then Some (SemPost reindeerSem,
                 set_santa (S_release_r (i + 1)) (sem_post reindeerSem s))
      else Some (Assign reindeerCount 0,
                 set_santa S_unlock_r (var_assign reindeerCount 0 s))
  | S_unlock_r =>
      s' ← mutex_unlock reindeerMutex Santa s;
      Some (Unlock reindeerMutex, set_santa S_sleep_r s')
  | S_sleep_r =>
      Some (Usleep 500000, set_santa S_inc_deliveries s)
  | S_inc_deliveries =>
      s' ← var_incr deliveries s;
      Some (Incr deliveries, set_santa S_post_mutex s')
  | S_unlock_r_else =>
      s' ← mutex_unlock reindeerMutex Santa s;
      Some (Unlock reindeerMutex, set_santa S_lock_e s')
  | S_lock_e =>
      s' ← mutex_lock elfMutex Santa s;
      Some (Lock elfMutex, set_santa S_test_e s')
  | S_test_e =>
      Some (Test elfCount (vars s elfCount),
            set_santa (if decide (vars s elfCount = ELF_GROUP_SIZE)
                       then S_release_e 0 else S_unlock_e_else) s)
  | S_release_e i =>
      if decide (i < ELF_GROUP_SIZE)
      then Some (SemPost elfSem,
                 set_santa (S_release_e (i + 1)) (sem_post elfSem s))
      else Some (Assign elfCount 0,
                 set_santa S_unlock_e (var_assign elfCount 0 s))
  | S_unlock_e =>
      s' ← mutex_unlock elfMutex Santa s;
      Some (Unlock elfMutex, set_santa S_sleep_e s')
  | S_sleep_e =>
      Some (Usleep 300000, set_santa S_inc_consultations s)
  | S_inc_consultations =>
      s' ← var_incr elfConsultations s;
      Some (Incr elfConsultations, set_santa S_post_mutex s')
  | S_unlock_e_else =>
      s' ← mutex_unlock elfMutex Santa s;
      Some (Unlock elfMutex, set_santa S_post_mutex s')
  | S_post_mutex =>
      Some (SemPost santaMutex, set_santa S_wait_santa (sem_post santaMutex s))
  end.

(** [reindeerThread] of the thread stored at [reindeerTids[i]]. *)
Definition reindeer_step (i : nat) (s : state) : option (event * state) :=
  p ← reindeer s !! i;
  match p with
  | R_vacation =>
      Some (RandSleep 2000 5000, set_reindeer i R_lock s)
  | R_lock =>
      s' ← mutex_lock reindeerMutex (Reindeer i) s;
      Some (Lock reindeerMutex, set_reindeer i R_inc s')
  | R_inc =>
      s' ← var_incr reindeerCount s;
      Some (Incr reindeerCount, set_reindeer i R_test s')
  | R_test =>
      Some (Test reindeerCount (vars s reindeerCount),
            set_reindeer i (if decide (vars s reindeerCount = NUM_REINDEER)
                            then R_post_santa else R_unlock) s)
  | R_post_santa =>
      Some (SemPost santaSem, set_reindeer i R_unlock (sem_post santaSem s))
  | R_unlock =>
      s' ← mutex_unlock reindeerMutex (Reindeer i) s;
      Some (Unlock reindeerMutex, set_reindeer i R_wait s')
  | R_wait =>
      s' ← sem_wait reindeerSem s;
      Some (SemWait reindeerSem, set_reindeer i R_harness s')
  | R_harness =>
      Some (Usleep 100000, set_reindeer i R_vacation s)
  end.

(** [elfThread] of the thread stored at [elfTids[i]]. *)
Definition elf_step (i : nat) (s : state) : option (event * state) :=
  p ← elves s !! i;
  match p with
  | E_work =>
      Some (RandSleep 1000 4000, set_elf i E_lock s)
  | E_lock =>
      s' ← mutex_lock elfMutex (Elf i) s;
      Some (Lock elfMutex, set_elf i E_inc s')
  | E_inc =>
      s' ← var_incr waitingElves s;
      Some (Incr waitingElves, set_elf i E_test s')
  | E_test =>
      Some (Test waitingElves (vars s waitingElves),
            set_elf i (if decide (vars s waitingElves = ELF_GROUP_SIZE)
                       then E_set_count else E_unlock) s)
  | E_set_count =>
      Some (Assign elfCount ELF_GROUP_SIZE,
            set_elf i E_reset (var_assign elfCount ELF_GROUP_SIZE s))
  | E_reset =>
      Some (Assign waitingElves 0,
            set_elf i E_post_santa (var_assign waitingElves 0 s))
  | E_post_santa =>
      Some (SemPost santaSem, set_elf i E_unlock (sem_post santaSem s))
  | E_unlock =>
      s' ← mutex_unlock elfMutex (Elf i) s;
      Some (Unlock elfMutex, set_elf i E_wait s')
  | E_wait =>
      s' ← sem_wait elfSem s;
      Some (SemWait elfSem, set_elf i E_help s')
  | E_help =>
      Some (Usleep 100000, set_elf i E_work s)
  end.

(** ** Interleaving semantics *)

Definition step (t : tid) (s : state) : option (event * state) :=
  match t with
  | Santa => santa_step s
  | Reindeer i => reindeer_step i s
  | Elf i => elf_step i s
  end.

Definition trace := list (tid * event).

(** [run sched s] lets the threads move in the order given by [sched]. *)
Fixpoint run (sched : list tid) (s : state) : option (trace * state) :=
  match sched with
  | [] => Some ([], s)
  | t :: sched' =>
      '(e, s1) ← step t s;
      '(tr, s2) ← run sched' s1;
      Some ((t, e) :: tr, s2)
  end.

(** The state [main] sets up: [sem_init] of lines 195-198, the static
    initialisers of lines 42-52, and the 1 + 9 + 10 threads of lines
    202-218, each at the head of its loop. *)
Definition init : state := {|
  sems := λ x, match x with santaMutex => 1%nat | _ => 0%nat end;
  mtxs := λ _, None;
  vars := λ _, 0;
  santa := S_wait_santa;
  reindeer := replicate (Z.to_nat NUM_REINDEER) R_vacation;
  elves := replicate (Z.to_nat NUM_ELVES) E_work
|}.

(** A state is reachable when some schedule leads to it from [init]. *)
Definition reachable (s : state) : Prop :=
  ∃ sched tr, run sched init = Some (tr, s).

(** The actions of one thread in a trace, in order. *)
Definition events_of (t : tid) (tr : trace) : list event :=
  foldr (λ te l, if decide (te.1 = t) then te.2 :: l else l) [] tr.

(** How many steps of thread [t] a schedule contains. *)
Definition steps_of (t : tid) (sched : list tid) : nat :=
  foldr (λ t' n, if decide (t' = t) then S n else n) 0%nat sched.

(** ** The state invariant *)

(** Program points inside the critical section of a mutex. *)
Definition santa_holds (m : mutex) (p : santa_pc) : bool :=
  match m, p with
  | reindeerMutex, (S_test_r | S_release_r _ | S_unlock_r | S_unlock_r_else) =>
      true
  | elfMutex, (S_test_e | S_release_e _ | S_unlock_e | S_unlock_e_else) =>
      true
  | _, _ => false
  end.

Definition reindeer_holds (p : reindeer_pc) : bool :=
  match p with R_inc | R_test | R_post_santa | R_unlock => true | _ => false end.

Definition elf_holds (p : elf_pc) : bool :=
  match p with
  | E_inc | E_test | E_set_count | E_reset | E_post_santa | E_unlock => true
  | _ => false
  end.

(** Thread [t] is between the lock and the unlock of [m]. *)
Definition in_cs (m : mutex) (t : tid) (s : state) : bool :=
  match t, m with
  | Santa, _ => santa_holds m (santa s)
  | Reindeer i, reindeerMutex =>
      from_option reindeer_holds false (reindeer s !! i)
  | Elf i, elfMutex => from_option elf_holds false (elves s !! i)
  | _, _ => false
  end.

(** Santa is between [sem_wait(&santaMutex)] and [sem_post(&santaMutex)]. *)
Definition santa_critical (p : santa_pc) : bool :=
  match p with S_wait_santa | S_wait_mutex => false | _ => true end.

(** A reindeer that has incremented [reindeerCount] and has not yet returned
    from [sem_wait(&reindeerSem)]. *)
Definition arrived (p : reindeer_pc) : Z :=
  match p with R_test | R_post_santa | R_unlock | R_wait => 1 | _ => 0 end.

Definition total_arrived (l : list reindeer_pc) : Z :=
  foldr (λ p a, arrived p + a) 0 l.

(** Posts already issued by the release loop Santa is in. *)
Definition posted (p : santa_pc) : Z :=
  match p with S_release_r i => i | _ => 0 end.

Definition santa_ok (p : santa_pc) (rc ec : Z) : Prop :=
  match p with
  | S_release_r i => 0 ≤ i ≤ NUM_REINDEER ∧ rc = NUM_REINDEER
  | S_unlock_r => rc = 0
  | S_release_e i => 0 ≤ i ≤ ELF_GROUP_SIZE ∧ ec = ELF_GROUP_SIZE
  | S_unlock_e => ec = 0
  | _ => True
  end.

(** Program point of the worker that owns the mutex, if a worker does. *)
Definition owner_elf_pc (s : state) : option elf_pc :=
  match mtxs s elfMutex with
  | Some (Elf i) => elves s !! i
  | _ => None
  end.

Definition owner_reindeer_pc (s : state) : option reindeer_pc :=
  match mtxs s reindeerMutex with
  | Some (Reindeer i) => reindeer s !! i
  | _ => None
  end.

Definition elf_ok (o : option elf_pc) (we ec : Z) : Prop :=
  match o with
  | Some E_test => 1 ≤ we ≤ 3
  | Some E_set_count => we = 3
  | Some E_reset => we = 3 ∧ ec = 3
  | Some E_post_santa => we = 0 ∧ ec = 3
  | _ => 0 ≤ we ≤ 2
  end.

Definition reindeer_ok (o : option reindeer_pc) (rc : Z) : Prop :=
  match o with
  | Some R_inc => rc ≤ 8
  | Some R_test => 1 ≤ rc
  | Some R_post_santa => rc = 9
  | _ => True
  end.

Record inv (s : state) : Prop := Inv {
  inv_len : length (reindeer s) = 9%nat;
  inv_mutex : ∀ m t, mtxs s m = Some t ↔ in_cs m t s = true;
  inv_santaMutex :
    sems s santaMutex = if santa_critical (santa s) then 0%nat else 1%nat;
  inv_tokens :
    total_arrived (reindeer s) + posted (santa s)
    = vars s reindeerCount + Z.of_nat (sems s reindeerSem);
  inv_santa : santa_ok (santa s) (vars s reindeerCount) (vars s elfCount);
  inv_rc : 0 ≤ vars s reindeerCount;
  inv_elf : elf_ok (owner_elf_pc s) (vars s waitingElves) (vars s elfCount);
  inv_reindeer : reindeer_ok (owner_reindeer_pc s) (vars s reindeerCount);
  inv_ec : vars s elfCount = 0 ∨ vars s elfCount = 3
}.

(** ** Traces: projections and counters *)

(** Number of entries of a trace selected by [P]. *)
Definition count (P : tid → event → bool) (tr : trace) : Z :=
  foldr (λ te n, (if P te.1 te.2 then 1 else 0) + n) 0 tr.

(** The action [e0], by any thread. *)
Definition ev (e0 : event) : tid → event → bool :=
  λ _ e, bool_decide (e = e0).

(** The action [e0] by a reindeer thread, by an elf thread. *)
Definition by_reindeer (e0 : event) : tid → event → bool :=
  λ t e, match t with Reindeer _ => bool_decide (e = e0) | _ => false end.
Definition by_elf (e0 : event) : tid → event → bool :=
  λ t e, match t with Elf _ => bool_decide (e = e0) | _ => false end.

(** The actions of Santa's current pass through the loop body: everything
    from its latest [sem_wait(&santaSem)] on. *)
Definition current_iteration (l : list event) : list event :=
  foldl (λ acc e, if decide (e = SemWait santaSem) then [e] else acc ++ [e])
        [] l.

(** ** The shape of a pass of Santa *)

Definition woken : list event :=
  [SemWait santaSem; SemWait santaMutex; Lock reindeerMutex].

(** Santa found the nine reindeer: it has posted [n] times so far. *)
Definition reindeer_released (n : nat) : list event :=
  woken ++ [Test reindeerCount 9] ++ replicate n (SemPost reindeerSem).

(** Santa read [v] from [reindeerCount], went on to the elves, found a trio
    and has posted [n] times so far. *)
Definition elves_released (v : Z) (n : nat) : list event :=
  woken ++ [Test reindeerCount v; Unlock reindeerMutex; Lock elfMutex;
            Test elfCount 3] ++ replicate n (SemPost elfSem).

(** Santa read [v] from [reindeerCount] and [w] from [elfCount] and found
    neither group. *)
Definition nobody_ready (v w : Z) : list event :=
  woken ++ [Test reindeerCount v; Unlock reindeerMutex; Lock elfMutex;
            Test elfCount w; Unlock elfMutex].

Definition reindeer_pass : list event :=
  reindeer_released 9
  ++ [Assign reindeerCount 0; Unlock reindeerMutex; Usleep 500000;
      Incr deliveries; SemPost santaMutex].

Definition elf_pass (v : Z) : list event :=
  elves_released v 3
  ++ [Assign elfCount 0; Unlock elfMutex; Usleep 300000;
      Incr elfConsultations; SemPost santaMutex].

Definition idle_pass (v w : Z) : list event :=
  nobody_ready v w ++ [SemPost santaMutex].

(** What Santa has done in its current pass, by program point. *)
Definition iteration_shape (p : santa_pc) (l : list event) : Prop :=
  match p with
  | S_wait_santa =>
      l = [] ∨ l = reindeer_pass ∨ (∃ v, v ≠ 9 ∧ l = elf_pass v)
      ∨ (∃ v w, v ≠ 9 ∧ w ≠ 3 ∧ l = idle_pass v w)
  | S_wait_mutex => l = [SemWait santaSem]
  | S_lock_r => l = [SemWait santaSem; SemWait santaMutex]
  | S_test_r => l = woken
  | S_release_r i => l = reindeer_released (Z.to_nat i)
  | S_unlock_r => l = reindeer_released 9 ++ [Assign reindeerCount 0]
  | S_sleep_r =>
      l = reindeer_released 9 ++ [Assign reindeerCount 0; Unlock reindeerMutex]
  | S_inc_deliveries =>
      l = reindeer_released 9
          ++ [Assign reindeerCount 0; Unlock reindeerMutex; Usleep 500000]
  | S_unlock_r_else => ∃ v, v ≠ 9 ∧ l = woken ++ [Test reindeerCount v]
  | S_lock_e =>
      ∃ v, v ≠ 9 ∧ l = woken ++ [Test reindeerCount v; Unlock reindeerMutex]
  | S_test_e =>
      ∃ v, v ≠ 9 ∧
        l = woken ++ [Test reindeerCount v; Unlock reindeerMutex; Lock elfMutex]
  | S_release_e i => ∃ v, v ≠ 9 ∧ l = elves_released v (Z.to_nat i)
  | S_unlock_e => ∃ v, v ≠ 9 ∧ l = elves_released v 3 ++ [Assign elfCount 0]
  | S_sleep_e =>
      ∃ v, v ≠ 9 ∧ l = elves_released v 3 ++ [Assign elfCount 0; Unlock elfMutex]
  | S_inc_consultations =>
      ∃ v, v ≠ 9 ∧
        l = elves_released v 3
            ++ [Assign elfCount 0; Unlock elfMutex; Usleep 300000]
  | S_unlock_e_else =>
      ∃ v w, v ≠ 9 ∧ w ≠ 3 ∧
        l = woken ++ [Test reindeerCount v; Unlock reindeerMutex; Lock elfMutex;
                      Test elfCount w]
  | S_post_mutex =>
      l = reindeer_released 9
          ++ [Assign reindeerCount 0; Unlock reindeerMutex; Usleep 500000;
              Incr deliveries]
      ∨ (∃ v, v ≠ 9 ∧
           l = elves_released v 3
               ++ [Assign elfCount 0; Unlock elfMutex; Usleep 300000;
                   Incr elfConsultations])
      ∨ (∃ v w, v ≠ 9 ∧ w ≠ 3 ∧ l = nobody_ready v w)
  end.

(** ** Counting invariants of executions *)

(** A complete reindeer cohort has been announced to Santa (or is about to
    be, once the lock is released) and not yet released. *)
Definition pending_r (s : state) : Z :=
  if decide (vars s reindeerCount = 9) then
    match owner_reindeer_pc s with
    | Some R_test | Some R_post_santa => 0
    | _ => 1
    end
  else 0.

(** An elf has reset [waitingElves] and not yet posted [santaSem]. *)
Definition pending_e (s : state) : Z :=
  match owner_elf_pc s with Some E_post_santa => 3 | _ => 0 end.

Definition posted_e (p : santa_pc) : Z :=
  match p with S_release_e i => i | _ => 0 end.

Record counts (tr : trace) (s : state) : Prop := Counts {
  c_arrive_r :
    count (ev (Incr reindeerCount)) tr
    = 9 * count (ev (Assign reindeerCount 0)) tr + vars s reindeerCount;
  c_notify_r :
    count (by_reindeer (SemPost santaSem)) tr
    = count (ev (Assign reindeerCount 0)) tr + pending_r s;
  c_arrive_e :
    count (ev (Incr waitingElves)) tr
    = 3 * count (by_elf (SemPost santaSem)) tr + vars s waitingElves
      + pending_e s;
  c_release_r :
    count (ev (SemPost reindeerSem)) tr
    = 9 * count (ev (Assign reindeerCount 0)) tr + posted (santa s);
  c_release_e :
    count (ev (SemPost elfSem)) tr
    = 3 * count (ev (Assign elfCount 0)) tr + posted_e (santa s);
  c_deliveries : vars s deliveries = count (ev (Incr deliveries)) tr;
  c_consultations :
    vars s elfConsultations = count (ev (Incr elfConsultations)) tr;
  c_service_r :
    count (ev (Usleep 500000)) tr
    = vars s deliveries + match santa s with S_inc_deliveries => 1 | _ => 0 end;
  c_service_e :
    count (ev (Usleep 300000)) tr
    = vars s elfConsultations
      + match santa s with S_inc_consultations => 1 | _ => 0 end;
  c_santaMutex :
    count (ev (SemWait santaMutex)) tr - count (ev (SemPost santaMutex)) tr
    = if santa_critical (santa s) then 1 else 0
}.

(** Everything that is shown to hold along the executions of the program. *)
Record history (tr : trace) (s : state) : Prop := History {
  h_inv : inv s;
  h_counts : counts tr s;
  h_shape : iteration_shape (santa s) (current_iteration (events_of Santa tr))
}.

(** ** Effects of actions *)

(** Value of the global [x] after action [e], from its value before. *)
Definition var_after (e : event) (x : var) (old : Z) : Z :=
  match e with
  | Incr y => if decide (x = y) then old + 1 else old
  | Assign y v => if decide (x = y) then v else old
  | _ => old
  end.

(** Value of the semaphore [x] after action [e], from its value before. *)
Definition sem_after (e : event) (x : sem) (old : nat) : nat :=
  match e with
  | SemPost y => if decide (x = y) then S old else old
  | SemWait y => if decide (x = y) then pred old else old
  | _ => old
  end.

(** Santa is in the branch of lines 71-85, of lines 93-107. *)
Definition serving_reindeer (p : santa_pc) : bool :=
  match p with
  | S_release_r _ | S_unlock_r | S_sleep_r | S_inc_deliveries => true
  | _ => false
  end.

Definition serving_elves (p : santa_pc) : bool :=
  match p with
  | S_release_e _ | S_unlock_e | S_sleep_e | S_inc_consultations => true
  | _ => false
  end.

(** The mutex that guards a global counter; the two statistics are private
    to Santa. *)
Definition guard (x : var) : option mutex :=
  match x with
  | reindeerCount => Some reindeerMutex
  | elfCount | waitingElves => Some elfMutex
  | deliveries | elfConsultations => None
  end.

(** The global an action reads or writes. *)
Definition accessed (e : event) : option var :=
  match e with
  | Incr x | Assign x _ | Test x _ => Some x
  | _ => None
  end.

(** Number of service steps ([usleep(500000)], [usleep(300000)]) in a list
    of Santa's actions. *)
Definition services (l : list event) : nat :=
  length (filter (λ e, e = Usleep 500000 ∨ e = Usleep 300000) l).

(** ** Vocabulary of the properties *)


(** ** Concrete executions *)

(** [after sched P]: the schedule [sched] can be run from [init], and [P]
    holds of the trace and the state it ends in. *)
Definition after (sched : list tid) (P : trace → state → Prop) : Prop :=
  match run sched init with
  | Some (tr, s) => P tr s
  | None => False
  end.

(** [then_after sched P tr s]: the schedule [sched] can be run from [s],
    and [P] holds of the trace of that run and of the state it ends in. *)
Definition then_after (sched : list tid) (P : trace → state → Prop)
    (_ : trace) (s : state) : Prop :=
  match run sched s with
  | Some (tr, s') => P tr s'
  | None => False
  end.

(** Reindeer [i] comes back: vacation, lock, increment, test, unlock; the one
    that completes the cohort posts [santaSem] before the unlock. *)
Definition reindeer_arrives (i : nat) : list tid := replicate 5 (Reindeer i).
Definition last_reindeer_arrives (i : nat) : list tid :=
  replicate 6 (Reindeer i).

Definition elf_arrives (i : nat) : list tid := replicate 5 (Elf i).
Definition third_elf_arrives (i : nat) : list tid := replicate 8 (Elf i).

(** All nine reindeer arrive, one after the other. *)
Definition nine_reindeer : list tid :=
  mjoin (reindeer_arrives <$> seq 0 8) ++ last_reindeer_arrives 8.

(** Elves 0, 1, 2 arrive, one after the other. *)
Definition three_elves : list tid :=
  elf_arrives 0 ++ elf_arrives 1 ++ third_elf_arrives 2.

(** Santa's steps up to the unlock that follows a release, and for a whole
    pass, in the reindeer branch, the elf branch and the empty branch. *)
Definition santa_releases_reindeer : list tid := replicate 14 Santa.
Definition santa_delivers : list tid := replicate 18 Santa.
Definition santa_releases_elves : list tid := replicate 11 Santa.
Definition santa_consults : list tid := replicate 15 Santa.
Definition santa_finds_nobody : list tid := replicate 9 Santa.

(** Two trios form before Santa runs; Santa then makes two passes. *)
Definition two_trios_then_santa : list tid :=
  three_elves ++ elf_arrives 3 ++ elf_arrives 4 ++ third_elf_arrives 5
  ++ santa_consults ++ santa_finds_nobody.

(** Eight reindeer are back and the ninth (index 8) holds [reindeerMutex],
    about to increment. *)
Definition ninth_reindeer_at_increment : list tid :=
  mjoin (reindeer_arrives <$> seq 0 8) ++ replicate 2 (Reindeer 8).

(** Two elves wait and a third (index 2) holds [elfMutex], about to
    increment. *)
Definition third_elf_at_increment : list tid :=
  elf_arrives 0 ++ elf_arrives 1 ++ replicate 2 (Elf 2).

(** The first reindeer (the first elf) holds the mutex, about to
    increment. *)
Definition first_reindeer_at_increment : list tid := replicate 2 (Reindeer 0).

(** A trio is ready and eight reindeer are back; Santa wakes up, reads 8 at
    line 70 and unlocks; the ninth reindeer arrives; Santa goes on to line
    92. *)
Definition ninth_reindeer_during_elf_check : list tid :=
  three_elves ++ mjoin (reindeer_arrives <$> seq 0 8)
  ++ replicate 5 Santa ++ last_reindeer_arrives 8 ++ replicate 2 Santa.

(** ** The random delays *)

Definition INT_MIN : Z := -2147483648.

(** The least value the C standard allows for [RAND_MAX]. *)
Definition RAND_MAX_LEAST : Z := 32767.

(** Result of an arithmetic operation on [int]: undefined when the
    mathematical result cannot be represented. *)
Definition int_result (z : Z) : option Z :=
  if decide (INT_MIN ≤ z ≤ INT_MAX) then Some z else None.

(** [a % b] on [int]: undefined when [b] is zero and when the quotient
    overflows; the result has the sign of [a]. *)
Definition int_rem (a b : Z) : option Z :=
  if decide (b = 0 ∨ (a = INT_MIN ∧ b = -1)) then None else Some (Z.rem a b).

(** [randomSleepMs(minMs, maxMs)], lines 55-57; [r] is the value that the
    call of [rand()] returns. *)
Definition randomSleepMs (minMs maxMs r : Z) : option Z :=
  d ← int_result (maxMs - minMs);
  n ← int_result (d + 1);
  m ← int_rem r n;
  int_result (minMs + m).

(** The argument of [usleep] in an action that sleeps, in microseconds.
    Lines 125 and 154 multiply the milliseconds of [randomSleepMs] by 1000 in
    [int]; [r] is the value of [rand()] in that call.  The product is then
    converted to the unsigned type of the parameter, which leaves a value
    that is not negative as it is. *)
Definition sleep_us (e : event) (r : Z) : option Z :=
  match e with
  | Usleep us => Some us
  | RandSleep minMs maxMs =>
      ms ← randomSleepMs minMs maxMs r; int_result (ms * 1000)
  | _ => None
  end.

Definition is_sleep (e : event) : bool :=
  match e with Usleep _ | RandSleep _ _ => true | _ => false end.

(** The delays of a thread of each kind: what it sleeps between two rounds,
    and the fixed delays of 0.5 s, 0.3 s and 0.1 s. *)
Definition sleep_ok (t : tid) (us : Z) : Prop :=
  match t with
  | Santa => us = 500000 ∨ us = 300000
  | Reindeer _ => us = 100000 ∨ (2000000 ≤ us ≤ 5000000 ∧ (1000 | us))
  | Elf _ => us = 100000 ∨ (1000000 ≤ us ≤ 4000000 ∧ (1000 | us))
  end.

(** ** The main thread *)

Definition SIMULATION_TIME : Z := 30.

(** Program points of [main]; the loop variable [i] of the two loops that
    create the workers is part of the program point. *)
Inductive main_pc :=
  | M_srand                    (* 181 srand(time(NULL)) *)
  | M_init_santaSem            (* 195 sem_init(&santaSem, 0, 0) *)
  | M_init_reindeerSem         (* 196 sem_init(&reindeerSem, 0, 0) *)
  | M_init_elfSem              (* 197 sem_init(&elfSem, 0, 0) *)
  | M_init_santaMutex          (* 198 sem_init(&santaMutex, 0, 1) *)
  | M_create_santa             (* 202 pthread_create(.., santaThread, ..) *)
  | M_create_reindeer (i : Z)  (* 206 for (i < NUM_REINDEER)
                                  209 pthread_create(.., reindeerThread, ..) *)
  | M_create_elf (i : Z)       (* 214 for (i < NUM_ELVES)
                                  217 pthread_create(.., elfThread, ..);
                                  221 sleep(SIMULATION_TIME) on exit *)
  | M_report_deliveries        (* 227 printf(.., deliveries) *)
  | M_report_consultations     (* 228 printf(.., elfConsultations) *)
  | M_done.                    (* 229 *)

Global Instance main_pc_eq_dec : EqDecision main_pc.
Proof. solve_decision. Defined.

(** What one step of [main] does.  [Report x v] is the [printf] that read
    the value [v] from the statistic [x]. *)
Inductive main_event :=
  | Srand
  | SemInit (x : sem) (v : nat)
  | Create (t : tid)
  | Sleep (sec : Z)
  | Report (x : var) (v : Z).

(** The whole process: [main], and the threads there are.  A worker exists
    once [main] has created it, that is once the list of program points has
    an entry for it; [santa_created] says the same of Santa. *)
Record process := Process {
  main : main_pc;
  santa_created : bool;
  shared : state
}.

Definition sem_init (x : sem) (v : nat) (s : state) : state :=
  set_sems (upd (sems s) x v) s.

(** [pthread_create] of a worker: the new thread is at the head of its
    loop. *)
Definition add_reindeer (s : state) : state :=
  State (sems s) (mtxs s) (vars s) (santa s) (reindeer s ++ [R_vacation])
        (elves s).
Definition add_elf (s : state) : state :=
  State (sems s) (mtxs s) (vars s) (santa s) (reindeer s)
        (elves s ++ [E_work]).

(** The loop of lines 214-218 and the statement after it. *)
Definition create_elves (i : Z) (p : process) : main_event * process :=
  if decide (i < NUM_ELVES)
  then (Create (Elf (Z.to_nat i)),
        Process (M_create_elf (i + 1)) (santa_created p) (add_elf (shared p)))
  else (Sleep SIMULATION_TIME,
        Process M_report_deliveries (santa_created p) (shared p)).

Definition main_step (p : process) : option (main_event * process) :=
  let at_pc pc s := Process pc (santa_created p) s in
  match main p with
  | M_srand => Some (Srand, at_pc M_init_santaSem (shared p))
  | M_init_santaSem =>
      Some (SemInit santaSem 0,
            at_pc M_init_reindeerSem (sem_init santaSem 0 (shared p)))
  | M_init_reindeerSem =>
      Some (SemInit reindeerSem 0,
            at_pc M_init_elfSem (sem_init reindeerSem 0 (shared p)))
  | M_init_elfSem =>
      Some (SemInit elfSem 0,
            at_pc M_init_santaMutex (sem_init elfSem 0 (shared p)))
  | M_init_santaMutex =>
      Some (SemInit santaMutex 1,
            at_pc M_create_santa (sem_init santaMutex 1 (shared p)))
  | M_create_santa =>
      Some (Create Santa, Process (M_create_reindeer 0) true (shared p))
  | M_create_reindeer i =>
      if decide (i < NUM_REINDEER)
      then Some (Create (Reindeer (Z.to_nat i)),
                 at_pc (M_create_reindeer (i + 1)) (add_reindeer (shared p)))
      else Some (create_elves 0 p)
  | M_create_elf i => Some (create_elves i p)
  | M_report_deliveries =>
      Some (Report deliveries (vars (shared p) deliveries),
            at_pc M_report_consultations (shared p))
  | M_report_consultations =>
      Some (Report elfConsultations (vars (shared p) elfConsultations),
            at_pc M_done (shared p))
  | M_done => None
  end.

(** Who moves: [main] or one of the threads it has created. *)
Inductive ptid := Main | Thread (t : tid).

Inductive action := ByMain (e : main_event) | ByThread (t : tid) (e : event).

(** One step of the process.  A thread moves only if it exists, and nothing
    moves once [main] has printed the statistics: the model ends there. *)
Definition pstep (a : ptid) (p : process) : option (action * process) :=
  match a with
  | Main => '(e, p') ← main_step p; Some (ByMain e, p')
  | Thread t =>
      if decide (main p = M_done) then None
      else if decide (t = Santa ∧ santa_created p = false) then None
      else '(e, s') ← step t (shared p);
           Some (ByThread t e, Process (main p) (santa_created p) s')
  end.

Fixpoint prun (psched : list ptid) (p : process)
    : option (list action * process) :=
  match psched with
  | [] => Some ([], p)
  | a :: psched' =>
      '(e, p1) ← pstep a p;
      '(tr, p2) ← prun psched' p1;
      Some (e :: tr, p2)
  end.

(** The process when [main] starts: no thread, the mutexes and the counters
    as their static initialisers leave them (lines 42-52), and the
    semaphores with whatever content [sv] they have before [sem_init]. *)
Definition boot (sv : sem → nat) : process :=
  Process M_srand false (State sv (λ _, None) (λ _, 0) S_wait_santa [] []).

(** The steps and the actions of the threads in an execution of the
    process. *)
Definition thread_steps (psched : list ptid) : list tid :=
  foldr (λ a l, match a with Thread t => t :: l | Main => l end) [] psched.

Definition thread_trace (ptr : list action) : trace :=
  foldr (λ a l, match a with ByThread t e => (t, e) :: l | ByMain _ => l end)
        [] ptr.

(** The state of the threads with the workers that [main] has yet to create
    put at the head of their loops. *)
Definition complete (s : state) : state :=
  State (sems s) (mtxs s) (vars s) (santa s)
    (reindeer s
     ++ replicate (Z.to_nat NUM_REINDEER - length (reindeer s)) R_vacation)
    (elves s ++ replicate (Z.to_nat NUM_ELVES - length (elves s)) E_work).

(** Two states with the same content. *)
Definition same_state (s1 s2 : state) : Prop :=
  (∀ x, sems s1 x = sems s2 x) ∧ (∀ m, mtxs s1 m = mtxs s2 m)
  ∧ (∀ x, vars s1 x = vars s2 x)
  ∧ santa s1 = santa s2 ∧ reindeer s1 = reindeer s2 ∧ elves s1 = elves s2.

(** [main] has initialised the four semaphores. *)
Definition initialised (pc : main_pc) : bool :=
  match pc with
  | M_srand | M_init_santaSem | M_init_reindeerSem | M_init_elfSem
  | M_init_santaMutex => false
  | _ => true
  end.

(** [main] has created all the threads. *)
Definition all_created (pc : main_pc) : bool :=
  match pc with
  | M_report_deliveries | M_report_consultations | M_done => true
  | _ => false
  end.

(** The service step that a statistic counts. *)
Definition service_of (x : var) : event :=
  match x with
  | elfConsultations => Usleep 300000
  | _ => Usleep 500000
  end.

(** What holds of an execution of the process, by the program point of
    [main]: before the fourth [sem_init] no thread has moved; from then on
    the threads have made an execution of the thread system from [init]. *)
Definition startup (psched : list ptid) (ptr : list action) (p : process)
    : Prop :=
  let s := shared p in
  if initialised (main p) then
    (∃ s', run (thread_steps psched) init = Some (thread_trace ptr, s')
           ∧ same_state s' (complete s))
    ∧ match main p with
      | M_create_santa =>
          santa_created p = false ∧ reindeer s = [] ∧ elves s = []
      | M_create_reindeer i =>
          0 ≤ i ≤ NUM_REINDEER ∧ length (reindeer s) = Z.to_nat i
          ∧ elves s = []
      | M_create_elf i =>
          0 ≤ i ≤ NUM_ELVES ∧ length (reindeer s) = 9%nat
          ∧ length (elves s) = Z.to_nat i
      | _ => length (reindeer s) = 9%nat ∧ length (elves s) = 10%nat
      end
  else
    thread_steps psched = [] ∧ thread_trace ptr = []
    ∧ santa_created p = false
    ∧ (∀ m, mtxs s m = None) ∧ (∀ x, vars s x = 0)
    ∧ santa s = S_wait_santa ∧ reindeer s = [] ∧ elves s = []
    ∧ match main p with
      | M_init_reindeerSem => sems s santaSem = 0%nat
      | M_init_elfSem => sems s santaSem = 0%nat ∧ sems s reindeerSem = 0%nat
      | M_init_santaMutex =>
          sems s santaSem = 0%nat ∧ sems s reindeerSem = 0%nat
          ∧ sems s elfSem = 0%nat
      | _ => True
      end.

(** [after_boot sv psched P]: the process can make the steps [psched] from
    [boot sv], and [P] holds of the actions and of the process it ends
    in. *)
Definition after_boot (sv : sem → nat) (psched : list ptid)
    (P : list action → process → Prop) : Prop :=
  match prun psched (boot sv) with
  | Some (ptr, p) => P ptr p
  | None => False
  end.

(** [main] up to the creation of Santa, up to the creation of the first [n]
    reindeer, and up to its return from [sleep]. *)
Definition main_creates_santa : list ptid := replicate 6 Main.
Definition main_creates_reindeer (n : nat) : list ptid :=
  main_creates_santa ++ replicate n Main.
Definition main_creates_all : list ptid := replicate 26 Main.

(** Semaphores that hold 7 before they are initialised. *)
Definition stale : sem → nat := λ _, 7%nat.

(** ** Wake-ups and tokens *)

(** An elf that has incremented [waitingElves] and has not yet returned from
    [sem_wait(&elfSem)]. *)
Definition arrived_e (p : elf_pc) : Z :=
  match p with
  | E_test | E_set_count | E_reset | E_post_santa | E_unlock | E_wait => 1
  | _ => 0
  end.

Definition total_arrived_e (l : list elf_pc) : Z :=
  foldr (λ p a, arrived_e p + a) 0 l.

(** Santa has taken a wake-up from [santaSem] and has yet to test
    [reindeerCount], or is releasing the reindeer. *)
Definition on_the_way (p : santa_pc) : bool :=
  match p with
  | S_wait_mutex | S_lock_r | S_test_r | S_release_r _ => true
  | _ => false
  end.

(** A complete reindeer cohort that has been announced is not forgotten: a
    wake-up is left in [santaSem], or Santa is on its way to the test of
    line 70. *)
Definition wakeup_due (s : state) : Prop :=
  pending_r s = 1 → (0 < sems s santaSem)%nat ∨ on_the_way (santa s) = true.

(** Follows [elfCount] along a trace, and counts the assignments of line 161
    that found it at [ELF_GROUP_SIZE] already. *)
Definition track_elfCount (acc : Z * Z) (te : tid * event) : Z * Z :=
  match te.2 with
  | Assign elfCount v =>
      (v, if decide (acc.1 = ELF_GROUP_SIZE ∧ v = ELF_GROUP_SIZE)
          then acc.2 + 1 else acc.2)
  | _ => acc
  end.

Definition overwritten_trios (tr : trace) : Z :=
  (foldl track_elfCount (0, 0) tr).2.

(** Elves counted in [waitingElves] towards the trio that is forming. *)
Definition forming (s : state) : Z :=
  match owner_elf_pc s with
  | Some E_reset => 0
  | _ => vars s waitingElves
  end.

(** Elves of the trio that [elfCount] flags, less those Santa has already
    posted for. *)
Definition flagged (s : state) : Z := vars s elfCount - posted_e (santa s).

(** An elf is between line 161 and line 163. *)
Definition announcing (s : state) : Z :=
  match owner_elf_pc s with
  | Some E_reset | Some E_post_santa => 1
  | _ => 0
  end.

(** Tests of line 92 that did not find a trio: the passes of Santa that
    serve nobody. *)
Definition idle_test : tid → event → bool :=
  λ _ e, match e with
         | Test elfCount v => if decide (v = ELF_GROUP_SIZE) then false else true
         | _ => false
         end.

Definition idle_passes (tr : trace) : Z := count idle_test tr.

(** A trio is flagged in [elfCount] and its wake-up has been posted. *)
Definition pending_trio (s : state) : Z :=
  (if decide (vars s elfCount = ELF_GROUP_SIZE) then 1 else 0) - announcing s.

(** Santa has taken a wake-up and has neither reset a counter nor found
    nobody yet. *)
Definition deciding (p : santa_pc) : Z :=
  match p with
  | S_wait_mutex | S_lock_r | S_test_r | S_release_r _ | S_unlock_r_else
  | S_lock_e | S_test_e | S_release_e _ => 1
  | _ => 0
  end.

Record tokens (tr : trace) (s : state) : Prop := Tokens {
  t_elves : length (elves s) = 10%nat;
  t_santaSem :
    Z.of_nat (sems s santaSem)
    = count (by_reindeer (SemPost santaSem)) tr
      + count (by_elf (SemPost santaSem)) tr
      - count (ev (SemWait santaSem)) tr;
  t_reindeerSem :
    Z.of_nat (sems s reindeerSem)
    = count (ev (SemPost reindeerSem)) tr - count (ev (SemWait reindeerSem)) tr;
  t_elfSem :
    Z.of_nat (sems s elfSem)
    = count (ev (SemPost elfSem)) tr - count (ev (SemWait elfSem)) tr;
  t_arrived_e :
    count (ev (Incr waitingElves)) tr
    = count (ev (SemWait elfSem)) tr + total_arrived_e (elves s);
  t_flag :
    count (ev (Assign elfCount 3)) tr
    = count (by_elf (SemPost santaSem)) tr + announcing s;
  t_tracked : (foldl track_elfCount (0, 0) tr).1 = vars s elfCount;
  t_overwritten :
    overwritten_trios tr
    = count (ev (Assign elfCount 3)) tr - count (ev (Assign elfCount 0)) tr
      - (if decide (vars s elfCount = 3) then 1 else 0);
  t_passes :
    count (ev (SemWait santaSem)) tr
    = count (ev (Assign reindeerCount 0)) tr + count (ev (Assign elfCount 0)) tr
      + idle_passes tr + deciding (santa s);
  t_idle :
    idle_passes tr
    ≤ count (ev (Assign elfCount 3)) tr - count (ev (Assign elfCount 0)) tr
      - (if decide (vars s elfCount = 3) then 1 else 0);
  t_served_r :
    count (ev (Assign reindeerCount 0)) tr
    = count (ev (Usleep 500000)) tr
      + match santa s with S_unlock_r | S_sleep_r => 1 | _ => 0 end;
  t_served_e :
    count (ev (Assign elfCount 0)) tr
    = count (ev (Usleep 300000)) tr
      + match santa s with S_unlock_e | S_sleep_e => 1 | _ => 0 end
}.

(** The state invariant, the invariants of the trace, and those of the
    wake-ups and tokens. *)
Record ledger (tr : trace) (s : state) : Prop := Ledger {
  l_history : history tr s;
  l_tokens : tokens tr s;
  l_wakeup : wakeup_due s
}.

(** ** Vocabulary of further properties *)


(** An elf that is blocked in, or about to call, [sem_wait(&elfSem)]. *)
Definition at_wait_e (p : elf_pc) : Z :=
  match p with E_wait => 1 | _ => 0 end.

Definition elves_at_wait (l : list elf_pc) : Z :=
  foldr (λ p a, at_wait_e p + a) 0 l.

(** ** More concrete executions *)

(** Elves 0 to 8 arrive, one after the other: three trios, each completed
    before Santa has run. *)
Definition nine_elves : list tid :=
  three_elves ++ elf_arrives 3 ++ elf_arrives 4 ++ third_elf_arrives 5
  ++ elf_arrives 6 ++ elf_arrives 7 ++ third_elf_arrives 8.

(** Two trios form before Santa runs. *)
Definition two_trios : list tid :=
  three_elves ++ elf_arrives 3 ++ elf_arrives 4 ++ third_elf_arrives 5.

(** ** Santa on its own *)

(** The number of steps Santa needs, when no other thread moves and
    [reindeerCount] is 9, to reach the unlock of line 80: it finishes the
    pass it is in, if that pass has left the reindeer branch behind, and
    makes one more. *)
Definition steps_to_release (s : state) : nat :=
  let elf_branch : nat :=
    if decide (vars s elfCount = ELF_GROUP_SIZE) then 23%nat else 17%nat in
  match santa s with
  | S_unlock_r => 0
  | S_release_r i => Z.to_nat (NUM_REINDEER - i) + 1
  | S_test_r => 11
  | S_lock_r => 12
  | S_wait_mutex => 13
  | S_wait_santa => 14
  | S_post_mutex => 15
  | S_inc_deliveries | S_inc_consultations | S_unlock_e_else => 16
  | S_sleep_r | S_sleep_e => 17
  | S_unlock_e => 18
  | S_release_e i => Z.to_nat (ELF_GROUP_SIZE - i) + 19
  | S_test_e => elf_branch
  | S_lock_e => S elf_branch
  | S_unlock_r_else => S (S elf_branch)
  end%nat.

(** Santa is at or before the increment of a statistic in the branch it has
    taken. *)
Definition before_inc_deliveries (p : santa_pc) : bool :=
  match p with S_sleep_r | S_inc_deliveries => true | _ => false end.

Definition before_inc_consultations (p : santa_pc) : bool :=
  match p with
  | S_unlock_r_else | S_lock_e | S_test_e | S_release_e _ | S_unlock_e
  | S_sleep_e | S_inc_consultations => true
  | _ => false
  end.

(** All nine reindeer wait, no elf is inside its critical section, and
    nothing stands in the way of Santa. *)
Record reindeer_wait (s : state) : Prop := ReindeerWait {
  w_inv : inv s;
  w_wakeup : wakeup_due s;
  w_all : ∀ i p, reindeer s !! i = Some p → p = R_wait;
  w_count : santa s ≠ S_unlock_r → vars s reindeerCount = NUM_REINDEER;
  w_elfMutex : mtxs s elfMutex = None ∨ mtxs s elfMutex = Some Santa;
  w_deliveries :
    before_inc_deliveries (santa s) = true → vars s deliveries < INT_MAX;
  w_consultations :
    before_inc_consultations (santa s) = true →
    vars s elfConsultations < INT_MAX
}.

(** Eight reindeer are back and a trio is ready; Santa reads 8 at line 70
    and unlocks; the ninth reindeer arrives while Santa is on its way to
    the elves. *)
Definition ninth_reindeer_behind_santa : list tid :=
  three_elves ++ mjoin (reindeer_arrives <$> seq 0 8)
  ++ replicate 5 Santa ++ last_reindeer_arrives 8.

(** How far Santa is from the end of its pass, in steps, at most. *)
Definition pass_rank (p : santa_pc) : nat :=
  match p with
  | S_wait_santa => 0
  | S_post_mutex => 1
  | S_inc_deliveries | S_inc_consultations | S_unlock_e_else => 2
  | S_sleep_r | S_sleep_e => 3
  | S_unlock_r | S_unlock_e => 4
  | S_release_r i => Z.to_nat (NUM_REINDEER - i) + 5
  | S_release_e i => Z.to_nat (ELF_GROUP_SIZE - i) + 8
  | S_test_e => 12
  | S_lock_e => 13
  | S_unlock_r_else => 14
  | S_test_r => 15
  | S_lock_r => 16
  | S_wait_mutex => 17
  end%nat.

(** A bound on the steps Santa can take when no other thread moves: a pass
    of at most 18 steps for each wake-up in [santaSem], after the pass it is
    in. *)
Definition santa_fuel (s : state) : nat :=
  (18 * sems s santaSem + pass_rank (santa s))%nat.

(** The pass Santa is in may still increment [deliveries],
    [elfConsultations]. *)
Definition may_deliver (p : santa_pc) : Z :=
  match p with
  | S_wait_mutex | S_lock_r | S_test_r | S_release_r _ | S_unlock_r
  | S_sleep_r | S_inc_deliveries => 1
  | _ => 0
  end.

Definition may_consult (p : santa_pc) : Z :=
  match p with
  | S_wait_mutex | S_lock_r | S_test_r | S_unlock_r_else | S_lock_e | S_test_e
  | S_release_e _ | S_unlock_e | S_sleep_e | S_inc_consultations => 1
  | _ => 0
  end.

(** No worker is inside a critical section, and the statistics leave room
    for the passes Santa can make. *)
Record santa_alone (s : state) : Prop := SantaAlone {
  a_inv : inv s;
  a_reindeer : ∀ i p, reindeer s !! i = Some p → reindeer_holds p = false;
  a_elves : ∀ i p, elves s !! i = Some p → elf_holds p = false;
  a_deliveries :
    vars s deliveries + Z.of_nat (sems s santaSem) + may_deliver (santa s)
    ≤ INT_MAX;
  a_consultations :
    vars s elfConsultations + Z.of_nat (sems s santaSem)
    + may_consult (santa s) ≤ INT_MAX
}.
(** * Part II: invariants and properties *)

(** ** Basic facts about the primitives and about [run] *)

Lemma sem_wait_Some x s s' :
  sem_wait x s = Some s' →
  ∃ n, sems s x = S n ∧ s' = set_sems (upd (sems s) x n) s.
Proof. unfold sem_wait. destruct (sems s x); naive_solver. Qed.

Lemma mutex_lock_Some m t s s' :
  mutex_lock m t s = Some s' →
  mtxs s m = None ∧ s' = set_mtxs (upd (mtxs s) m (Some t)) s.
Proof. unfold mutex_lock. destruct (mtxs s m); naive_solver. Qed.

Lemma mutex_unlock_Some m t s s' :
  mutex_unlock m t s = Some s' →
  mtxs s m = Some t ∧ s' = set_mtxs (upd (mtxs s) m None) s.
Proof. unfold mutex_unlock. case_decide; naive_solver. Qed.

Lemma var_incr_Some x s s' :
  var_incr x s = Some s' →
  vars s x < INT_MAX ∧ s' = set_vars (upd (vars s) x (vars s x + 1)) s.
Proof. unfold var_incr. case_decide; naive_solver. Qed.

(** Replace every successful primitive call in the context by its effect. *)
Ltac prim_inv :=
  repeat match goal with
  | H : sem_wait _ _ = Some _ |- _ =>
      apply sem_wait_Some in H; destruct H as (? & ? & ->)
  | H : mutex_lock _ _ _ = Some _ |- _ =>
      apply mutex_lock_Some in H; destruct H as (? & ->)
  | H : mutex_unlock _ _ _ = Some _ |- _ =>
      apply mutex_unlock_Some in H; destruct H as (? & ->)
  | H : var_incr _ _ = Some _ |- _ =>
      apply var_incr_Some in H; destruct H as (? & ->)
  end.

Lemma run_cons t sched s tr s' :
  run (t :: sched) s = Some (tr, s') ↔
  ∃ e s1 tr', step t s = Some (e, s1) ∧ run sched s1 = Some (tr', s')
              ∧ tr = (t, e) :: tr'.
Proof.
  change (run (t :: sched) s) with
    (step t s ≫= λ '(e, s1), run sched s1 ≫= λ '(tr, s2), Some ((t, e) :: tr, s2)).
  split.
  - destruct (step t s) as [[e s1]|]; [|done].
    change (run sched s1 ≫= (λ '(tr, s2), Some ((t, e) :: tr, s2))
            = Some (tr, s') → ∃ e0 s0 tr',
                Some (e, s1) = Some (e0, s0) ∧ run sched s0 = Some (tr', s')
                ∧ tr = (t, e0) :: tr').
    destruct (run sched s1) as [[tr' s2]|] eqn:Hr; [|done].
    intros [= <- <-]. by exists e, s1, tr'.
  - intros (e & s1 & tr' & -> & Hr & ->). simpl. by rewrite Hr.
Qed.

Lemma run_app sched1 sched2 s tr s' :
  run (sched1 ++ sched2) s = Some (tr, s') ↔
  ∃ tr1 s1 tr2, run sched1 s = Some (tr1, s1) ∧ run sched2 s1 = Some (tr2, s')
                ∧ tr = tr1 ++ tr2.
Proof.
  revert s tr. induction sched1 as [|t sched1 IH]; intros s tr.
  - simpl. split.
    + intros H. by exists [], s, tr.
    + intros (tr1 & s1 & tr2 & [= <- <-] & H & ->). done.
  - rewrite <- app_comm_cons, run_cons. split.
    + intros (e & s1 & tr' & Hs & Hr & ->).
      apply IH in Hr as (tr1 & s2 & tr2 & H1 & H2 & ->).
      exists ((t, e) :: tr1), s2, tr2. split; [|done].
      apply run_cons. by exists e, s1, tr1.
    + intros (tr1 & s1 & tr2 & H1 & H2 & ->).
      apply run_cons in H1 as (e & s2 & tr' & Hs & Hr & ->).
      exists e, s2, (tr' ++ tr2). split; [done|]. split; [|done].
      apply IH. by exists tr', s1, tr2.
Qed.

Lemma run_snoc sched t s tr s' :
  run (sched ++ [t]) s = Some (tr, s') ↔
  ∃ tr1 s1 e, run sched s = Some (tr1, s1) ∧ step t s1 = Some (e, s')
              ∧ tr = tr1 ++ [(t, e)].
Proof.
  rewrite run_app. split.
  - intros (tr1 & s1 & tr2 & H1 & H2 & ->).
    apply run_cons in H2 as (e & s2 & tr' & Hs & [= <- <-] & ->).
    by exists tr1, s1, e.
  - intros (tr1 & s1 & e & H1 & Hs & ->).
    exists tr1, s1, [(t, e)]. split; [done|]. split; [|done].
    apply run_cons. by exists e, s', [].
Qed.

(** Induction over the executions that start in [init]: the trace grows at
    its end. *)
Lemma run_init_ind (P : trace → state → Prop) :
  P [] init →
  (∀ sched tr s t e s',
     run sched init = Some (tr, s) → P tr s → step t s = Some (e, s') →
     P (tr ++ [(t, e)]) s') →
  ∀ sched tr s, run sched init = Some (tr, s) → P tr s.
Proof.
  intros H0 Hstep sched.
  induction sched as [|t sched IH] using rev_ind; intros tr s Hrun.
  - by injection Hrun as <- <-.
  - apply run_snoc in Hrun as (tr1 & s1 & e & H1 & Hs & ->). eauto.
Qed.

(** ** Traces: projections and counters *)

Lemma events_of_app t tr1 tr2 :
  events_of t (tr1 ++ tr2) = events_of t tr1 ++ events_of t tr2.
Proof.
  induction tr1 as [|te tr1 IH]; simpl; [done|].
  case_decide; simpl; by rewrite IH.
Qed.

Lemma events_of_snoc t tr t' e :
  events_of t (tr ++ [(t', e)])
  = events_of t tr ++ (if decide (t' = t) then [e] else []).
Proof. rewrite events_of_app. simpl. by case_decide. Qed.

Lemma count_app P tr1 tr2 : count P (tr1 ++ tr2) = count P tr1 + count P tr2.
Proof. induction tr1 as [|te tr1 IH]; simpl; lia. Qed.

Lemma count_snoc P tr t e :
  count P (tr ++ [(t, e)]) = count P tr + (if P t e then 1 else 0).
Proof. rewrite count_app. simpl. lia. Qed.

Lemma count_nonneg P tr : 0 ≤ count P tr.
Proof. induction tr as [|te tr IH]; simpl; [lia|]. destruct (P _ _); lia. Qed.

Lemma current_iteration_snoc l e :
  current_iteration (l ++ [e])
  = if decide (e = SemWait santaSem) then [e] else current_iteration l ++ [e].
Proof. unfold current_iteration. by rewrite foldl_app. Qed.

Lemma In_replicate {A} (x y : A) n : In x (replicate n y) → x = y.
Proof. rewrite <- list_elem_of_In, elem_of_replicate. tauto. Qed.

Lemma services_app l1 l2 : services (l1 ++ l2) = (services l1 + services l2)%nat.
Proof. unfold services. by rewrite filter_app, length_app. Qed.

Lemma services_replicate_post n x : services (replicate n (SemPost x)) = 0%nat.
Proof.
  unfold services. induction n as [|n IH]; simpl; [done|].
  rewrite filter_cons. case_decide as H; [|done]. by destruct H.
Qed.

(** ** Effects of single steps *)

Ltac step_cases t s H :=
  destruct t as [|?i|?i]; simpl in H;
  [ unfold santa_step in H; destruct (santa s) eqn:?Hpc
  | unfold reindeer_step in H; destruct (reindeer s !! _) as [[]|] eqn:?Hpc
  | unfold elf_step in H; destruct (elves s !! _) as [[]|] eqn:?Hpc ];
  simplify_option_eq; prim_inv.

Lemma step_vars t s e s' x :
  step t s = Some (e, s') → vars s' x = var_after e x (vars s x).
Proof.
  intros H. step_cases t s H; simpl; unfold upd; try done;
    case_decide; by subst.
Qed.

Lemma step_sems t s e s' x :
  step t s = Some (e, s') → sems s' x = sem_after e x (sems s x).
Proof.
  intros H. step_cases t s H; simpl; unfold upd; try done;
    case_decide; subst; try done;
    match goal with H : sems _ _ = S _ |- _ => by rewrite H end.
Qed.

(** Who performs which action, and where. *)
Lemma step_writer t s e s' :
  step t s = Some (e, s') →
  match e with
  | Incr reindeerCount => in_cs reindeerMutex t s = true ∧ ∃ i, t = Reindeer i
  | Assign reindeerCount v =>
      t = Santa ∧ v = 0 ∧ ∃ i, santa s = S_release_r i ∧ ¬ i < NUM_REINDEER
  | Incr waitingElves => in_cs elfMutex t s = true ∧ ∃ i, t = Elf i
  | Assign waitingElves v =>
      v = 0 ∧ ∃ i, t = Elf i ∧ elves s !! i = Some E_reset
  | Assign elfCount v =>
      (t = Santa ∧ v = 0 ∧ ∃ i, santa s = S_release_e i ∧ ¬ i < ELF_GROUP_SIZE)
      ∨ (v = ELF_GROUP_SIZE ∧ ∃ i, t = Elf i ∧ elves s !! i = Some E_set_count)
  | Incr deliveries => t = Santa ∧ santa s = S_inc_deliveries
  | Incr elfConsultations => t = Santa ∧ santa s = S_inc_consultations
  | Incr elfCount | Assign deliveries _ | Assign elfConsultations _ => False
  | SemPost reindeerSem =>
      t = Santa ∧ ∃ i, santa s = S_release_r i ∧ i < NUM_REINDEER
  | SemPost elfSem =>
      t = Santa ∧ ∃ i, santa s = S_release_e i ∧ i < ELF_GROUP_SIZE
  | SemPost santaMutex => t = Santa ∧ santa s = S_post_mutex
  | SemWait santaMutex => t = Santa ∧ santa s = S_wait_mutex
  | SemWait santaSem => t = Santa ∧ santa s = S_wait_santa
  | Usleep us =>
      (us = 500000 ∧ t = Santa ∧ santa s = S_sleep_r)
      ∨ (us = 300000 ∧ t = Santa ∧ santa s = S_sleep_e)
      ∨ (us = 100000 ∧ t ≠ Santa)
  | _ => True
  end.
Proof.
  intros H. step_cases t s H; simpl; rewrite ?Hpc; simpl; eauto 10.
Qed.

Lemma step_other_santa t s e s' :
  t ≠ Santa → step t s = Some (e, s') → santa s' = santa s.
Proof.
  intros Ht H. destruct t as [|i|i]; [done| |]; simpl in H.
  - unfold reindeer_step in H.
    destruct (reindeer s !! i) as [[]|]; simplify_option_eq; prim_inv; done.
  - unfold elf_step in H.
    destruct (elves s !! i) as [[]|]; simplify_option_eq; prim_inv; done.
Qed.

Lemma step_frame_reindeer t s e s' i :
  t ≠ Reindeer i → step t s = Some (e, s') → reindeer s' !! i = reindeer s !! i.
Proof.
  intros Ht H. step_cases t s H; simpl; try done;
    by rewrite list_lookup_insert_ne by congruence.
Qed.

Lemma step_frame_elf t s e s' i :
  t ≠ Elf i → step t s = Some (e, s') → elves s' !! i = elves s !! i.
Proof.
  intros Ht H. step_cases t s H; simpl; try done;
    by rewrite list_lookup_insert_ne by congruence.
Qed.

Lemma step_statistics t s e s' :
  step t s = Some (e, s') →
  (vars s' deliveries = vars s deliveries
   ∧ vars s' elfConsultations = vars s elfConsultations)
  ∨ (t = Santa ∧ santa s = S_inc_deliveries
     ∧ vars s' deliveries = vars s deliveries + 1
     ∧ vars s' elfConsultations = vars s elfConsultations)
  ∨ (t = Santa ∧ santa s = S_inc_consultations
     ∧ vars s' elfConsultations = vars s elfConsultations + 1
     ∧ vars s' deliveries = vars s deliveries).
Proof.
  intros Hst.
  rewrite !(step_vars _ _ _ _ _ Hst).
  pose proof (step_writer _ _ _ _ Hst) as Hw.
  destruct e as [| | | |y|y v| | |]; simpl; auto;
    destruct y; simpl in *; try tauto.
Qed.

Lemma run_statistics_mono sched s tr s' :
  run sched s = Some (tr, s') →
  vars s deliveries ≤ vars s' deliveries
  ∧ vars s elfConsultations ≤ vars s' elfConsultations.
Proof.
  revert s tr. induction sched as [|t sched IH]; intros s tr Hr.
  - injection Hr as <- <-. lia.
  - apply run_cons in Hr as (e & s1 & tr' & Hst & Hr & ->).
    apply IH in Hr. apply step_statistics in Hst. lia.
Qed.

(** ** The state invariant holds in every reachable state *)

Lemma total_arrived_insert l i p q :
  l !! i = Some p →
  total_arrived (<[i:=q]> l) = total_arrived l - arrived p + arrived q.
Proof.
  revert i. induction l as [|a l IH]; intros [|i] H; simplify_eq/=; [lia|].
  rewrite (IH i) by done. lia.
Qed.

Lemma total_arrived_bound l : 0 ≤ total_arrived l ≤ Z.of_nat (length l).
Proof. induction l as [|[] l IH]; simpl; lia. Qed.

Lemma total_arrived_absent l i p :
  l !! i = Some p → arrived p = 0 →
  total_arrived l ≤ Z.of_nat (length l) - 1.
Proof.
  revert i. induction l as [|a l IH]; intros [|i] H Hp; simplify_eq/=.
  - pose proof (total_arrived_bound l). lia.
  - specialize (IH i H Hp). destruct a; simpl; lia.
Qed.

(** Case analysis on the owner of mutex [m], dropping the owners the
    invariant [HI] excludes. *)
Ltac owner_case s HI m :=
  let Hm := fresh "Hm" in
  destruct (mtxs s m) as [[]|] eqn:Hm;
  [ pose proof (proj1 (HI m _) Hm) as ?Hcs; simpl in *; try discriminate ..
  | ].

(** [Hown] says that the worker that steps owns the mutex exactly when its
    program point lies in the critical section: identify the owner found by
    [owner_case] with that worker, or refute the case. *)
Ltac worker_owns Hown :=
  try discriminate;
  try (pose proof (proj2 Hown eq_refl); simplify_eq);
  try (by (pose proof (proj1 Hown eq_refl); simplify_eq)).

(** A worker [j] that owns the mutex while worker [i] is outside its
    critical section is another worker. *)
Ltac other_owner i Hown :=
  let no := (intros ->; destruct Hown as [Hown _]; by specialize (Hown eq_refl))
  in
  try match goal with
  | H : mtxs _ _ = Some (Reindeer ?j) |- _ => assert (i ≠ j) by no
  | H : mtxs _ _ = Some (Elf ?j) |- _ => assert (i ≠ j) by no
  end.

(** Case analysis on the program point [p] of the worker that takes the
    step [H], and on the owner of its mutex [m]. *)
Ltac worker_cases s HI Hp m Hown :=
  simpl in Hown; rewrite Hp in Hown;
  match type of Hp with _ = Some ?p => destruct p end;
  simplify_option_eq; prim_inv; simpl in Hown;
  owner_case s HI m; worker_owns Hown.

(** Case analysis on the program point of Santa and on the owners of the two
    mutexes. *)
Ltac santa_cases s HI Hpc HrS HeS :=
  destruct (santa s) eqn:Hpc; simplify_option_eq; prim_inv;
  simpl in HrS, HeS; rewrite Hpc in HrS, HeS;
  owner_case s HI reindeerMutex; owner_case s HI elfMutex;
  rewrite ?Hpc in *; try discriminate;
  try (by (pose proof (proj2 HrS eq_refl); discriminate));
  try (by (pose proof (proj2 HeS eq_refl); discriminate)).

(** Normal form of a statement about the state reached by a step of Santa,
    of a worker; [Hp] is the program point before the step. *)
Ltac rewrite_owners :=
  repeat match goal with
  | H : mtxs ?s ?m = _ |- context [mtxs ?s ?m] => rewrite H
  end.

Ltac after_santa_step Hpc :=
  unfold pending_r, pending_e, owner_elf_pc, owner_reindeer_pc;
  simpl; unfold upd; simpl; rewrite ?Hpc; rewrite_owners; simpl;
  unfold NUM_REINDEER, ELF_GROUP_SIZE in *.

Ltac after_worker_step Hp :=
  unfold pending_r, pending_e, owner_elf_pc, owner_reindeer_pc;
  simpl; unfold upd; simpl; rewrite ?length_insert;
  try rewrite (total_arrived_insert _ _ _ _ Hp);
  rewrite_owners; simpl;
  rewrite ?list_lookup_insert_eq by done;
  rewrite ?list_lookup_insert_ne by done;
  simpl; rewrite ?Hp in *; simpl in *;
  unfold NUM_REINDEER, ELF_GROUP_SIZE in *.

(** The ownership invariant after a step, from the invariant [HI] before it. *)
Ltac solve_mutex_goal HI Hp :=
  let m := fresh "m" in let t := fresh "t" in let Hmt := fresh "Hmt" in
  match goal with |- ∀ _ _, _ ↔ _ => idtac end;
  intros m t; pose proof (HI m t) as Hmt; destruct m, t; simpl in *;
  repeat match goal with H : mtxs _ _ = _ |- _ => rewrite H in Hmt |- * end;
  try done;
  try match goal with |- context [<[?i:=_]> _ !! ?j] =>
    destruct (decide (i = j)) as [->|];
    [ rewrite list_lookup_insert_eq by done; rewrite ?Hp in *
    | rewrite list_lookup_insert_ne by done ] end;
  simpl in *; intuition congruence.

(** The clauses of the invariant that mention Santa's program point, when a
    worker has stepped. *)
Ltac santa_elsewhere s :=
  destruct (santa s); simpl in *; try done; try lia; by intuition.

Lemma inv_santa_step s e s' : inv s → santa_step s = Some (e, s') → inv s'.
Proof.
  intros [Hlen HI HsM Htok Hsan Hrc0 Helf Hrd Hec] H. unfold santa_step in H.
  pose proof (HI reindeerMutex Santa) as HrS.
  pose proof (HI elfMutex Santa) as HeS.
  unfold owner_elf_pc, owner_reindeer_pc in *.
  santa_cases s HI Hpc HrS HeS.
  all: split; after_santa_step Hpc; try done; try lia.
  all: solve_mutex_goal HI Hpc.
Qed.

Lemma inv_reindeer_step i s e s' :
  inv s → reindeer_step i s = Some (e, s') → inv s'.
Proof.
  intros [Hlen HI HsM Htok Hsan Hrc0 Helf Hrd Hec] H.
  unfold reindeer_step in H.
  destruct (reindeer s !! i) as [p|] eqn:Hp; [|done]. simpl in H.
  pose proof (lookup_lt_Some _ _ _ Hp) as Hlt.
  pose proof (HI reindeerMutex (Reindeer i)) as Hown.
  pose proof (HI reindeerMutex Santa) as HrS.
  pose proof (total_arrived_bound (reindeer s)) as Hb.
  pose proof (total_arrived_absent _ _ _ Hp) as Hab.
  unfold owner_elf_pc, owner_reindeer_pc in *.
  worker_cases s HI Hp reindeerMutex Hown; other_owner i Hown.
  all: split; after_worker_step Hp; try done; try lia.
  all: try (solve_mutex_goal HI Hp).
  all: santa_elsewhere s.
Qed.

Lemma inv_elf_step i s e s' : inv s → elf_step i s = Some (e, s') → inv s'.
Proof.
  intros [Hlen HI HsM Htok Hsan Hrc0 Helf Hrd Hec] H. unfold elf_step in H.
  destruct (elves s !! i) as [p|] eqn:Hp; [|done]. simpl in H.
  pose proof (lookup_lt_Some _ _ _ Hp) as Hlt.
  pose proof (HI elfMutex (Elf i)) as Hown.
  pose proof (HI elfMutex Santa) as HeS.
  unfold owner_elf_pc, owner_reindeer_pc in *.
  worker_cases s HI Hp elfMutex Hown; other_owner i Hown.
  all: split; after_worker_step Hp; try done; try lia.
  all: try (solve_mutex_goal HI Hp).
  all: santa_elsewhere s.
Qed.

Lemma inv_init : inv init.
Proof.
  split; simpl; try done; try lia.
  intros m t. split; [done|].
  destruct m, t as [|i|i]; simpl; try done;
    repeat (destruct i as [|i]; simpl; try done).
Qed.

Lemma inv_step t s e s' : inv s → step t s = Some (e, s') → inv s'.
Proof.
  destruct t; simpl;
    eauto using inv_santa_step, inv_reindeer_step, inv_elf_step.
Qed.

Lemma inv_run sched s tr s' : inv s → run sched s = Some (tr, s') → inv s'.
Proof.
  revert s tr. induction sched as [|t sched IH]; intros s tr Hs Hr.
  - by injection Hr as <- <-.
  - apply run_cons in Hr as (e & s1 & tr' & Hst & Hr & ->).
    eauto using inv_step.
Qed.

Lemma inv_reachable s : reachable s → inv s.
Proof. intros (sched & tr & Hr). eauto using inv_run, inv_init. Qed.

Lemma reindeerCount_le s : inv s → vars s reindeerCount ≤ NUM_REINDEER.
Proof.
  intros [Hlen _ _ Htok Hsan _ _ _ _].
  pose proof (total_arrived_bound (reindeer s)) as Hb.
  destruct (santa s); simpl in *; unfold NUM_REINDEER in *; lia.
Qed.

Lemma waitingElves_range s : inv s → 0 ≤ vars s waitingElves ≤ ELF_GROUP_SIZE.
Proof.
  intros [_ _ _ _ _ _ Helf _ _]. unfold ELF_GROUP_SIZE.
  destruct (owner_elf_pc s) as [[]|]; simpl in Helf; lia.
Qed.

Lemma owner_elf_pc_at s i p :
  inv s → elves s !! i = Some p → elf_holds p = true →
  mtxs s elfMutex = Some (Elf i) ∧ owner_elf_pc s = Some p.
Proof.
  intros Hinv Hp Hh.
  assert (mtxs s elfMutex = Some (Elf i)) as Hm.
  { apply (inv_mutex _ Hinv). simpl. by rewrite Hp. }
  split; [done|]. unfold owner_elf_pc. by rewrite Hm.
Qed.

Lemma owner_reindeer_pc_at s i p :
  inv s → reindeer s !! i = Some p → reindeer_holds p = true →
  mtxs s reindeerMutex = Some (Reindeer i) ∧ owner_reindeer_pc s = Some p.
Proof.
  intros Hinv Hp Hh.
  assert (mtxs s reindeerMutex = Some (Reindeer i)) as Hm.
  { apply (inv_mutex _ Hinv). simpl. by rewrite Hp. }
  split; [done|]. unfold owner_reindeer_pc. by rewrite Hm.
Qed.

Lemma write_guarded s t e s' x m :
  inv s → step t s = Some (e, s') → vars s' x ≠ vars s x →
  guard x = Some m → mtxs s m = Some t.
Proof.
  intros Hinv Hst Hne Hg. apply (inv_mutex _ Hinv).
  rewrite (step_vars _ _ _ _ x Hst) in Hne.
  pose proof (step_writer _ _ _ _ Hst) as Hw.
  destruct e as [| | | |y|y v| | |]; simpl in Hne; try done;
    case_decide; try done; subst y; destruct x; simplify_eq/=.
  - tauto.
  - tauto.
  - destruct Hw as (-> & _ & i & Hpc & _). simpl. by rewrite Hpc.
  - destruct Hw as [(-> & _ & i & Hpc & _)|(_ & i & -> & Hp)]; simpl.
    + by rewrite Hpc.
    + by rewrite Hp.
  - destruct Hw as (_ & i & -> & Hp). simpl. by rewrite Hp.
Qed.

(** There is no data race on the counters that a mutex guards. *)
Lemma access_guarded s t e s' x m :
  inv s → step t s = Some (e, s') → accessed e = Some x →
  guard x = Some m → mtxs s m = Some t.
Proof.
  intros Hinv Hst Ha Hg. apply (inv_mutex _ Hinv).
  step_cases t s Hst; simplify_eq/=; rewrite ?Hpc; done.
Qed.

(** While [t0] owns [m], the steps of the other threads leave the owner and
    the counters guarded by [m] as they are. *)
Lemma step_protected s t e s' m t0 :
  inv s → mtxs s m = Some t0 → t ≠ t0 → step t s = Some (e, s') →
  mtxs s' m = Some t0 ∧ ∀ x, guard x = Some m → vars s' x = vars s x.
Proof.
  intros Hinv Hm Ht Hst. split.
  - clear Hinv. step_cases t s Hst; simpl; unfold upd; try done;
      destruct m; simpl; congruence.
  - intros x Hg. destruct (decide (vars s' x = vars s x)) as [|Hne]; [done|].
    pose proof (write_guarded _ _ _ _ _ _ Hinv Hst Hne Hg). congruence.
Qed.

(** ** The shape of Santa's passes and the counters of a trace *)

Lemma reindeer_released_S n :
  reindeer_released n ++ [SemPost reindeerSem] = reindeer_released (S n).
Proof.
  unfold reindeer_released. by rewrite replicate_S_end, <- !app_assoc.
Qed.

Lemma elves_released_S v n :
  elves_released v n ++ [SemPost elfSem] = elves_released v (S n).
Proof.
  unfold elves_released. by rewrite replicate_S_end, <- !app_assoc.
Qed.

Ltac destruct_ex :=
  repeat match goal with
  | H : ∃ _, _ |- _ => destruct H
  | H : _ ∧ _ |- _ => destruct H
  end.

Lemma shape_step tr s t e s' :
  inv s →
  iteration_shape (santa s) (current_iteration (events_of Santa tr)) →
  step t s = Some (e, s') →
  iteration_shape (santa s')
    (current_iteration (events_of Santa (tr ++ [(t, e)]))).
Proof.
  intros Hinv Hsh Hst. rewrite events_of_snoc.
  destruct (decide (t = Santa)) as [->|Ht].
  2:{ rewrite (step_other_santa _ _ _ _ Ht Hst), app_nil_r. done. }
  rewrite current_iteration_snoc.
  pose proof (inv_santa _ Hinv) as Hok.
  simpl in Hst. unfold santa_step in Hst.
  destruct (santa s) eqn:Hpc; simplify_option_eq; prim_inv;
    unfold iteration_shape in *; rewrite ?Hpc in *;
    unfold NUM_REINDEER, ELF_GROUP_SIZE in *;
    destruct_or?; destruct_ex;
    repeat match goal with H : current_iteration _ = _ |- _ => rewrite H; clear H end;
    repeat match goal with H : vars _ _ = _ |- _ => rewrite H end;
    rewrite ?reindeer_released_S, ?elves_released_S;
    rewrite <- ?Z2Nat.inj_succ by lia;
    try (replace i with 9 in * by lia);
    try (replace i with 3 in * by lia);
    simpl;
    try done; 
    try (by eexists); try (by eexists _, _);
    try (by left); try (by (right; left)); try (by (right; left; eexists)); try (by (right; right; eexists _, _));
    try (by (right; right; left; eexists)); try (by (right; right; right; eexists _, _)).
Qed.

(** The arithmetic left by a step in a clause of [counts]. *)
Ltac count_cases :=
  try done; try lia; repeat case_decide; try lia;
  repeat case_match; simplify_eq/=; try lia.

Lemma counts_santa_step tr s e s' :
  inv s → counts tr s → santa_step s = Some (e, s') →
  counts (tr ++ [(Santa, e)]) s'.
Proof.
  intros [Hlen HI HsM Htok Hsan Hrc0 Helf Hrd Hec] [] H.
  unfold santa_step in H.
  pose proof (HI reindeerMutex Santa) as HrS.
  pose proof (HI elfMutex Santa) as HeS.
  unfold pending_r, pending_e, owner_elf_pc, owner_reindeer_pc in *.
  santa_cases s HI Hpc HrS HeS.
  all: split; rewrite !count_snoc; after_santa_step Hpc; count_cases.
Qed.

Lemma counts_reindeer_step i tr s e s' :
  inv s → counts tr s → reindeer_step i s = Some (e, s') →
  counts (tr ++ [(Reindeer i, e)]) s'.
Proof.
  intros [Hlen HI HsM Htok Hsan Hrc0 Helf Hrd Hec] [] H.
  unfold reindeer_step in H.
  destruct (reindeer s !! i) as [p|] eqn:Hp; [|done]. simpl in H.
  pose proof (lookup_lt_Some _ _ _ Hp) as Hlt.
  pose proof (HI reindeerMutex (Reindeer i)) as Hown.
  unfold pending_r, pending_e, owner_elf_pc, owner_reindeer_pc in *.
  worker_cases s HI Hp reindeerMutex Hown; other_owner i Hown.
  all: split; rewrite !count_snoc; after_worker_step Hp; count_cases.
Qed.

Lemma counts_elf_step i tr s e s' :
  inv s → counts tr s → elf_step i s = Some (e, s') →
  counts (tr ++ [(Elf i, e)]) s'.
Proof.
  intros [Hlen HI HsM Htok Hsan Hrc0 Helf Hrd Hec] [] H.
  unfold elf_step in H.
  destruct (elves s !! i) as [p|] eqn:Hp; [|done]. simpl in H.
  pose proof (lookup_lt_Some _ _ _ Hp) as Hlt.
  pose proof (HI elfMutex (Elf i)) as Hown.
  unfold pending_r, pending_e, owner_elf_pc, owner_reindeer_pc in *.
  worker_cases s HI Hp elfMutex Hown; other_owner i Hown.
  all: split; rewrite !count_snoc; after_worker_step Hp; count_cases.
Qed.

Lemma history_init : history [] init.
Proof.
  split; [apply inv_init| |by left].
  split; unfold pending_r, pending_e; simpl; done.
Qed.

Lemma history_step tr s t e s' :
  history tr s → step t s = Some (e, s') → history (tr ++ [(t, e)]) s'.
Proof.
  intros [Hi Hc Hs] Hst. split.
  - eauto using inv_step.
  - destruct t; simpl in Hst;
      eauto using counts_santa_step, counts_reindeer_step, counts_elf_step.
  - eauto using shape_step.
Qed.

Lemma history_run sched tr s : run sched init = Some (tr, s) → history tr s.
Proof.
  revert sched tr s. apply run_init_ind; eauto using history_init, history_step.
Qed.

Ltac shape_cases Hsh :=
  simpl in Hsh; destruct_or?; destruct_ex; subst.

Ltac unfold_passes :=
  unfold reindeer_pass, elf_pass, idle_pass, nobody_ready, elves_released,
    reindeer_released, woken in *.

Ltac list_mem H :=
  unfold_passes; simpl in H; rewrite ?in_app_iff in H; simpl in H.

Ltac list_mem_goal :=
  unfold_passes; simpl; rewrite ?in_app_iff; simpl.

Ltac list_solve :=
  intuition (try congruence);
  repeat match goal with
  | H : In _ (replicate _ _) |- _ => apply In_replicate in H
  end; congruence.

(** ** A worker inside its critical section *)

Lemma quiet_run t0 sched s tr s' :
  steps_of t0 sched = 0%nat → run sched s = Some (tr, s') →
  events_of t0 tr = []
  ∧ (∀ i, t0 = Reindeer i → reindeer s' !! i = reindeer s !! i)
  ∧ (∀ i, t0 = Elf i → elves s' !! i = elves s !! i)
  ∧ (∀ m, inv s → mtxs s m = Some t0 →
       mtxs s' m = Some t0 ∧ ∀ x, guard x = Some m → vars s' x = vars s x).
Proof.
  revert s tr. induction sched as [|t sched IH]; intros s tr Hn Hr.
  - injection Hr as <- <-. done.
  - simpl in Hn. case_decide as Ht; [done|].
    apply run_cons in Hr as (e & s1 & tr' & Hst & Hr & ->).
    destruct (IH _ _ Hn Hr) as (He & Hpr & Hpe & Hm).
    split; [|split; [|split]].
    + simpl. by case_decide.
    + intros i ->. rewrite (Hpr i eq_refl). by eapply step_frame_reindeer.
    + intros i ->. rewrite (Hpe i eq_refl). by eapply step_frame_elf.
    + intros m Hinv Hown.
      destruct (step_protected _ _ _ _ _ _ Hinv Hown Ht Hst) as [Hown1 Hv1].
      destruct (Hm m (inv_step _ _ _ _ Hinv Hst) Hown1) as [Hown2 Hv2].
      split; [done|]. intros x Hg. rewrite (Hv2 x Hg). auto.
Qed.

(** The next step of thread [t0] in a run. *)
Lemma next_step t0 sched s tr s' n :
  steps_of t0 sched = S n → run sched s = Some (tr, s') →
  ∃ sched0 tr0 s0 e s1 sched1 tr1,
    steps_of t0 sched0 = 0%nat ∧ run sched0 s = Some (tr0, s0)
    ∧ step t0 s0 = Some (e, s1)
    ∧ steps_of t0 sched1 = n ∧ run sched1 s1 = Some (tr1, s')
    ∧ events_of t0 tr = e :: events_of t0 tr1.
Proof.
  revert s tr. induction sched as [|t sched IH]; intros s tr Hn Hr; [done|].
  apply run_cons in Hr as (e & s1 & tr' & Hst & Hr & ->).
  simpl in Hn. case_decide as Ht.
  - subst t. injection Hn as Hn.
    exists [], [], s, e, s1, sched, tr'. simpl.
    rewrite decide_True by done. done.
  - destruct (IH _ _ Hn Hr)
      as (sched0 & tr0 & s0 & e0 & s2 & sched1 & tr1 & H0 & Hr0 & Hst0 & Hn1
          & Hr1 & He).
    exists (t :: sched0), ((t, e) :: tr0), s0, e0, s2, sched1, tr1.
    split; [simpl; by rewrite decide_False by done|].
    split; [apply run_cons; by exists e, s1, tr0|].
    split; [done|]. split; [done|]. split; [done|].
    simpl. by rewrite decide_False by done.
Qed.

(** The owner [t0] of [m] takes its next step: until then nothing guarded
    by [m] has changed. *)
Lemma advance m t0 sched s tr s' n :
  inv s → mtxs s m = Some t0 →
  steps_of t0 sched = S n → run sched s = Some (tr, s') →
  ∃ s0 e s1 sched1 tr1,
    inv s0 ∧ mtxs s0 m = Some t0
    ∧ (∀ x, guard x = Some m → vars s0 x = vars s x)
    ∧ (∀ i, t0 = Reindeer i → reindeer s0 !! i = reindeer s !! i)
    ∧ (∀ i, t0 = Elf i → elves s0 !! i = elves s !! i)
    ∧ step t0 s0 = Some (e, s1)
    ∧ steps_of t0 sched1 = n ∧ run sched1 s1 = Some (tr1, s')
    ∧ events_of t0 tr = e :: events_of t0 tr1.
Proof.
  intros Hinv Hown Hn Hr.
  destruct (next_step _ _ _ _ _ _ Hn Hr)
    as (sched0 & tr0 & s0 & e & s1 & sched1 & tr1 & H0 & Hr0 & Hst & Hn1
        & Hr1 & He).
  destruct (quiet_run _ _ _ _ _ H0 Hr0) as (_ & Hpr & Hpe & Hm).
  destruct (Hm m Hinv Hown) as [Hown0 Hv0].
  exists s0, e, s1, sched1, tr1.
  eauto 10 using inv_run.
Qed.

(** One step of reindeer [i] (of elf [i]) from a known program point. *)
Ltac worker_step Hst Hpc :=
  simpl in Hst; unfold reindeer_step, elf_step in Hst;
  rewrite Hpc in Hst; simpl in Hst;
  repeat match type of Hst with
  | context [var_incr ?x ?s] =>
      let H := fresh "Hprim" in
      destruct (var_incr x s) eqn:H; simpl in Hst; [|discriminate]
  | context [mutex_unlock ?m ?t ?s] =>
      let H := fresh "Hprim" in
      destruct (mutex_unlock m t s) eqn:H; simpl in Hst; [|discriminate]
  end;
  injection Hst as <- <-; prim_inv.

(** The critical section of an arriving reindeer, whatever the other threads
    do meanwhile: the increment, the test of the value just written and,
    when that value is 9, the post on [santaSem]; [reindeerCount] is still
    9 after the post. *)
Lemma reindeer_arrival s i sched tr s' :
  inv s → reindeer s !! i = Some R_inc →
  run sched s = Some (tr, s') → steps_of (Reindeer i) sched = 3%nat →
  events_of (Reindeer i) tr
  = [Incr reindeerCount; Test reindeerCount (vars s reindeerCount + 1);
     if decide (vars s reindeerCount + 1 = NUM_REINDEER)
     then SemPost santaSem else Unlock reindeerMutex]
  ∧ (vars s reindeerCount + 1 = NUM_REINDEER →
     vars s' reindeerCount = NUM_REINDEER
     ∧ reindeer s' !! i = Some R_unlock).
Proof.
  intros Hinv Hpc Hr Hn.
  destruct (owner_reindeer_pc_at _ _ _ Hinv Hpc eq_refl) as [Hown _].
  (* line 129 *)
  destruct (advance _ _ _ _ _ _ _ Hinv Hown Hn Hr)
    as (s0 & e1 & s1 & sched1 & tr1 & Hinv0 & Hown0 & Hv0 & Hp0 & _ & Hst1
        & Hn1 & Hr1 & ->).
  specialize (Hv0 reindeerCount eq_refl). specialize (Hp0 i eq_refl).
  rewrite Hpc in Hp0.
  pose proof (inv_step _ _ _ _ Hinv0 Hst1) as Hinv1.
  pose proof (lookup_lt_Some _ _ _ Hp0) as Hlt0.
  worker_step Hst1 Hp0.
  set (s1 := set_reindeer i R_test _) in *.
  assert (reindeer s1 !! i = Some R_test) as Hpc1
    by (simpl; by rewrite list_lookup_insert_eq).
  assert (vars s1 reindeerCount = vars s reindeerCount + 1) as Hrc1
    by (simpl; unfold upd; simpl; lia).
  assert (mtxs s1 reindeerMutex = Some (Reindeer i)) as Hown1 by done.
  clearbody s1.
  (* line 131 *)
  destruct (advance _ _ _ _ _ _ _ Hinv1 Hown1 Hn1 Hr1)
    as (s2 & e2 & s3 & sched3 & tr3 & Hinv2 & Hown2 & Hv2 & Hp2 & _ & Hst3
        & Hn3 & Hr3 & ->).
  specialize (Hv2 reindeerCount eq_refl). specialize (Hp2 i eq_refl).
  rewrite Hpc1 in Hp2. rewrite Hrc1 in Hv2.
  pose proof (inv_step _ _ _ _ Hinv2 Hst3) as Hinv3.
  pose proof (lookup_lt_Some _ _ _ Hp2) as Hlt2.
  worker_step Hst3 Hp2. rewrite Hv2 in *.
  set (s3 := set_reindeer i _ s2) in *.
  assert (mtxs s3 reindeerMutex = Some (Reindeer i)) as Hown3 by done.
  assert (vars s3 reindeerCount = vars s reindeerCount + 1) as Hrc3 by done.
  assert (reindeer s3 !! i
          = Some (if decide (vars s reindeerCount + 1 = NUM_REINDEER)
                  then R_post_santa else R_unlock)) as Hpc3
    by (simpl; by rewrite list_lookup_insert_eq).
  clearbody s3.
  (* line 133 or line 136 *)
  destruct (advance _ _ _ _ _ _ _ Hinv3 Hown3 Hn3 Hr3)
    as (s4 & e4 & s5 & sched5 & tr5 & Hinv4 & Hown4 & Hv4 & Hp4 & _ & Hst5
        & Hn5 & Hr5 & ->).
  specialize (Hv4 reindeerCount eq_refl). specialize (Hp4 i eq_refl).
  rewrite Hpc3 in Hp4. rewrite Hrc3 in Hv4.
  pose proof (inv_step _ _ _ _ Hinv4 Hst5) as Hinv5.
  pose proof (lookup_lt_Some _ _ _ Hp4) as Hlt4.
  destruct (quiet_run _ _ _ _ _ Hn5 Hr5) as (-> & Hpr & _ & Hm).
  case_decide as Hnine; worker_step Hst5 Hp4; (split; [done|]); [|done].
  intros _. set (s5 := set_reindeer i R_unlock _) in *.
  assert (reindeer s5 !! i = Some R_unlock) as Hpc5
    by (simpl; by rewrite list_lookup_insert_eq).
  assert (mtxs s5 reindeerMutex = Some (Reindeer i)) as Hown5 by done.
  assert (vars s5 reindeerCount = vars s reindeerCount + 1) as Hrc5 by done.
  clearbody s5.
  destruct (Hm _ Hinv5 Hown5) as [_ Hv6].
  rewrite (Hv6 reindeerCount eq_refl), (Hpr i eq_refl). split; [lia|done].
Qed.

(** The critical section of an arriving elf, whatever the other threads do
    meanwhile: the increment and the test of the value just written; when
    that value is 3, the elf sets [elfCount], resets [waitingElves] and
    posts [santaSem], all before its unlock; otherwise it unlocks. *)
Lemma elf_arrival s i sched tr s' :
  inv s → elves s !! i = Some E_inc →
  run sched s = Some (tr, s') →
  steps_of (Elf i) sched
  = (if decide (vars s waitingElves + 1 = ELF_GROUP_SIZE)
     then 5%nat else 3%nat) →
  events_of (Elf i) tr
  = [Incr waitingElves; Test waitingElves (vars s waitingElves + 1)]
    ++ (if decide (vars s waitingElves + 1 = ELF_GROUP_SIZE)
        then [Assign elfCount ELF_GROUP_SIZE; Assign waitingElves 0;
              SemPost santaSem]
        else [Unlock elfMutex])
  ∧ (vars s waitingElves + 1 = ELF_GROUP_SIZE →
     vars s' waitingElves = 0 ∧ vars s' elfCount = ELF_GROUP_SIZE
     ∧ elves s' !! i = Some E_unlock).
Proof.
  intros Hinv Hpc Hr Hn.
  destruct (owner_elf_pc_at _ _ _ Hinv Hpc eq_refl) as [Hown _].
  assert (∃ n, steps_of (Elf i) sched = S (S (S n))
               ∧ n = if decide (vars s waitingElves + 1 = ELF_GROUP_SIZE)
                     then 2%nat else 0%nat) as (n & Hn' & Hnn).
  { rewrite Hn. case_decide; eauto. }
  clear Hn.
  (* line 157 *)
  destruct (advance _ _ _ _ _ _ _ Hinv Hown Hn' Hr)
    as (s0 & e1 & s1 & sched1 & tr1 & Hinv0 & Hown0 & Hv0 & _ & Hp0 & Hst1
        & Hn1 & Hr1 & ->).
  specialize (Hv0 waitingElves eq_refl). specialize (Hp0 i eq_refl).
  rewrite Hpc in Hp0.
  pose proof (inv_step _ _ _ _ Hinv0 Hst1) as Hinv1.
  pose proof (lookup_lt_Some _ _ _ Hp0) as Hlt0.
  worker_step Hst1 Hp0.
  set (s1 := set_elf i E_test _) in *.
  assert (elves s1 !! i = Some E_test) as Hpc1
    by (simpl; by rewrite list_lookup_insert_eq).
  assert (vars s1 waitingElves = vars s waitingElves + 1) as Hwe1
    by (simpl; unfold upd; simpl; lia).
  assert (mtxs s1 elfMutex = Some (Elf i)) as Hown1 by done.
  clearbody s1.
  (* line 159 *)
  destruct (advance _ _ _ _ _ _ _ Hinv1 Hown1 Hn1 Hr1)
    as (s2 & e2 & s3 & sched3 & tr3 & Hinv2 & Hown2 & Hv2 & _ & Hp2 & Hst3
        & Hn3 & Hr3 & ->).
  specialize (Hv2 waitingElves eq_refl). specialize (Hp2 i eq_refl).
  rewrite Hpc1 in Hp2. rewrite Hwe1 in Hv2.
  pose proof (inv_step _ _ _ _ Hinv2 Hst3) as Hinv3.
  pose proof (lookup_lt_Some _ _ _ Hp2) as Hlt2.
  worker_step Hst3 Hp2. rewrite Hv2 in *.
  set (s3 := set_elf i _ s2) in *.
  assert (mtxs s3 elfMutex = Some (Elf i)) as Hown3 by done.
  assert (elves s3 !! i
          = Some (if decide (vars s waitingElves + 1 = ELF_GROUP_SIZE)
                  then E_set_count else E_unlock)) as Hpc3
    by (simpl; by rewrite list_lookup_insert_eq).
  clearbody s3.
  (* line 161 or line 168 *)
  destruct (advance _ _ _ _ _ _ _ Hinv3 Hown3 Hn3 Hr3)
    as (s4 & e4 & s5 & sched5 & tr5 & Hinv4 & Hown4 & _ & _ & Hp4 & Hst5
        & Hn5 & Hr5 & ->).
  specialize (Hp4 i eq_refl). rewrite Hpc3 in Hp4.
  pose proof (inv_step _ _ _ _ Hinv4 Hst5) as Hinv5.
  pose proof (lookup_lt_Some _ _ _ Hp4) as Hlt4.
  case_decide as Htrio; subst n; worker_step Hst5 Hp4.
  2:{ destruct (quiet_run _ _ _ _ _ Hn5 Hr5) as (-> & _). done. }
  set (s5 := set_elf i E_reset _) in *.
  assert (elves s5 !! i = Some E_reset) as Hpc5
    by (simpl; by rewrite list_lookup_insert_eq).
  assert (mtxs s5 elfMutex = Some (Elf i)) as Hown5 by done.
  clearbody s5.
  (* line 162 *)
  destruct (advance _ _ _ _ _ _ _ Hinv5 Hown5 Hn5 Hr5)
    as (s6 & e6 & s7 & sched7 & tr7 & Hinv6 & Hown6 & _ & _ & Hp6 & Hst7
        & Hn7 & Hr7 & ->).
  specialize (Hp6 i eq_refl). rewrite Hpc5 in Hp6.
  pose proof (inv_step _ _ _ _ Hinv6 Hst7) as Hinv7.
  pose proof (lookup_lt_Some _ _ _ Hp6) as Hlt6.
  worker_step Hst7 Hp6.
  set (s7 := set_elf i E_post_santa _) in *.
  assert (elves s7 !! i = Some E_post_santa) as Hpc7
    by (simpl; by rewrite list_lookup_insert_eq).
  assert (mtxs s7 elfMutex = Some (Elf i)) as Hown7 by done.
  clearbody s7.
  (* line 163 *)
  destruct (advance _ _ _ _ _ _ _ Hinv7 Hown7 Hn7 Hr7)
    as (s8 & e8 & s9 & sched9 & tr9 & Hinv8 & Hown8 & _ & _ & Hp8 & Hst9
        & Hn9 & Hr9 & ->).
  specialize (Hp8 i eq_refl). rewrite Hpc7 in Hp8.
  pose proof (inv_step _ _ _ _ Hinv8 Hst9) as Hinv9.
  pose proof (lookup_lt_Some _ _ _ Hp8) as Hlt8.
  destruct (owner_elf_pc_at _ _ _ Hinv8 Hp8 eq_refl) as [_ Ho8].
  pose proof (inv_elf _ Hinv8) as Helf8. rewrite Ho8 in Helf8.
  destruct Helf8 as [Hwe8 Hec8].
  worker_step Hst9 Hp8.
  set (s9 := set_elf i E_unlock _) in *.
  assert (elves s9 !! i = Some E_unlock) as Hpc9
    by (simpl; by rewrite list_lookup_insert_eq).
  assert (mtxs s9 elfMutex = Some (Elf i)) as Hown9 by done.
  assert (vars s9 waitingElves = 0) as Hwe9 by done.
  assert (vars s9 elfCount = 3) as Hec9 by done.
  clearbody s9.
  destruct (quiet_run _ _ _ _ _ Hn9 Hr9) as (-> & _ & Hpe & Hm).
  destruct (Hm _ Hinv9 Hown9) as [_ Hv10].
  split; [done|]. intros _.
  rewrite (Hv10 waitingElves eq_refl), (Hv10 elfCount eq_refl), (Hpe i eq_refl).
  done.
Qed.

(** ** Semaphore values, and a thread running on its own *)

(** A successful [sem_wait] found the semaphore positive, and takes one from
    it; a [sem_post] adds one. *)
Lemma step_sem_effect t s e s' x :
  step t s = Some (e, s') →
  (e = SemPost x → sems s' x = S (sems s x))
  ∧ (e = SemWait x → sems s x = S (sems s' x)).
Proof.
  intros H. split; intros ->; step_cases t s H; simplify_eq/=; unfold upd;
    simpl; try done;
    match goal with H : sems _ _ = S _ |- _ => by rewrite H end.
Qed.

(** The value of a semaphore after an execution: what it was, plus the
    posts, less the waits that returned. *)
Lemma sem_balance_from x sched s tr s' :
  run sched s = Some (tr, s') →
  Z.of_nat (sems s' x)
  = Z.of_nat (sems s x) + count (ev (SemPost x)) tr
    - count (ev (SemWait x)) tr.
Proof.
  revert s tr. induction sched as [|t sched IH]; intros s tr Hr.
  - injection Hr as <- <-. simpl. lia.
  - apply run_cons in Hr as (e & s1 & tr' & Hst & Hr & ->).
    rewrite (IH _ _ Hr). destruct (step_sem_effect _ _ _ _ x Hst) as [Hp Hw].
    rewrite (step_sems _ _ _ _ x Hst) in *. simpl. unfold ev.
    destruct e as [y|y| | | | | | |]; simpl;
      repeat case_bool_decide; simplify_eq; simpl;
      rewrite ?decide_True by done; rewrite ?decide_False by congruence;
      try lia.
    specialize (Hw eq_refl). lia.
Qed.

(** Santa never posts [santaSem]: the posts are those of the workers. *)
Lemma santaSem_posts sched s tr s' :
  run sched s = Some (tr, s') →
  count (ev (SemPost santaSem)) tr
  = count (by_reindeer (SemPost santaSem)) tr
    + count (by_elf (SemPost santaSem)) tr.
Proof.
  revert s tr. induction sched as [|t sched IH]; intros s tr Hr.
  - by injection Hr as <- <-.
  - apply run_cons in Hr as (e & s1 & tr' & Hst & Hr & ->).
    simpl. rewrite (IH _ _ Hr). unfold ev.
    destruct t; simpl; [|case_bool_decide; lia..].
    simpl in Hst. unfold santa_step in Hst.
    destruct (santa s); simplify_option_eq; try case_bool_decide; simplify_eq;
      lia.
Qed.

(** The release loops when no other thread moves: from the post number [i]
    Santa posts the rest of the signals, nine (three) in all, and resets
    the counter. *)
Lemma release_reindeer_alone n s i :
  santa s = S_release_r i → Z.of_nat n = NUM_REINDEER - i →
  ∃ tr' s', run (replicate (S n) Santa) s = Some (tr', s')
    ∧ tr' = replicate n (Santa, SemPost reindeerSem)
            ++ [(Santa, Assign reindeerCount 0)]
    ∧ santa s' = S_unlock_r
    ∧ sems s' reindeerSem = (sems s reindeerSem + n)%nat
    ∧ vars s' reindeerCount = 0.
Proof.
  revert s i. induction n as [|n IH]; intros s i Hpc Hn.
  - exists [(Santa, Assign reindeerCount 0)],
      (set_santa S_unlock_r (var_assign reindeerCount 0 s)).
    split; [|by rewrite Nat.add_0_r]. simpl. unfold santa_step. rewrite Hpc.
    by rewrite decide_False by lia.
  - set (s1 := set_santa (S_release_r (i + 1)) (sem_post reindeerSem s)).
    destruct (IH s1 (i + 1) eq_refl ltac:(lia))
      as (tr' & s' & Hr & Htr & Hpc' & Hsem & Hrc).
    exists ((Santa, SemPost reindeerSem) :: tr'), s'. split.
    + apply run_cons. exists (SemPost reindeerSem), s1, tr'.
      split; [|done]. simpl. unfold santa_step. rewrite Hpc.
      by rewrite decide_True by lia.
    + split; [by rewrite Htr|]. split; [done|]. split; [|done].
      rewrite Hsem. simpl. unfold upd. simpl. lia.
Qed.

Lemma release_elves_alone n s i :
  santa s = S_release_e i → Z.of_nat n = ELF_GROUP_SIZE - i →
  ∃ tr' s', run (replicate (S n) Santa) s = Some (tr', s')
    ∧ tr' = replicate n (Santa, SemPost elfSem)
            ++ [(Santa, Assign elfCount 0)]
    ∧ santa s' = S_unlock_e
    ∧ sems s' elfSem = (sems s elfSem + n)%nat
    ∧ vars s' elfCount = 0.
Proof.
  revert s i. induction n as [|n IH]; intros s i Hpc Hn.
  - exists [(Santa, Assign elfCount 0)],
      (set_santa S_unlock_e (var_assign elfCount 0 s)).
    split; [|by rewrite Nat.add_0_r]. simpl. unfold santa_step. rewrite Hpc.
    by rewrite decide_False by lia.
  - set (s1 := set_santa (S_release_e (i + 1)) (sem_post elfSem s)).
    destruct (IH s1 (i + 1) eq_refl ltac:(lia))
      as (tr' & s' & Hr & Htr & Hpc' & Hsem & Hrc).
    exists ((Santa, SemPost elfSem) :: tr'), s'. split.
    + apply run_cons. exists (SemPost elfSem), s1, tr'.
      split; [|done]. simpl. unfold santa_step. rewrite Hpc.
      by rewrite decide_True by lia.
    + split; [by rewrite Htr|]. split; [done|]. split; [|done].
      rewrite Hsem. simpl. unfold upd. simpl. lia.
Qed.

(** One step of a worker from a given program point. *)
Lemma reindeer_step_at i s p :
  reindeer s !! i = Some p →
  reindeer_step i s
  = match p with
    | R_vacation => Some (RandSleep 2000 5000, set_reindeer i R_lock s)
    | R_lock =>
        s' ← mutex_lock reindeerMutex (Reindeer i) s;
        Some (Lock reindeerMutex, set_reindeer i R_inc s')
    | R_inc =>
        s' ← var_incr reindeerCount s;
        Some (Incr reindeerCount, set_reindeer i R_test s')
    | R_test =>
        Some (Test reindeerCount (vars s reindeerCount),
              set_reindeer i (if decide (vars s reindeerCount = NUM_REINDEER)
                              then R_post_santa else R_unlock) s)
    | R_post_santa =>
        Some (SemPost santaSem, set_reindeer i R_unlock (sem_post santaSem s))
    | R_unlock =>
        s' ← mutex_unlock reindeerMutex (Reindeer i) s;
        Some (Unlock reindeerMutex, set_reindeer i R_wait s')
    | R_wait =>
        s' ← sem_wait reindeerSem s;
        Some (SemWait reindeerSem, set_reindeer i R_harness s')
    | R_harness => Some (Usleep 100000, set_reindeer i R_vacation s)
    end.
Proof. intros Hp. unfold reindeer_step. by rewrite Hp. Qed.

Lemma elf_step_at i s p :
  elves s !! i = Some p →
  elf_step i s
  = match p with
    | E_work => Some (RandSleep 1000 4000, set_elf i E_lock s)
    | E_lock =>
        s' ← mutex_lock elfMutex (Elf i) s;
        Some (Lock elfMutex, set_elf i E_inc s')
    | E_inc =>
        s' ← var_incr waitingElves s;
        Some (Incr waitingElves, set_elf i E_test s')
    | E_test =>
        Some (Test waitingElves (vars s waitingElves),
              set_elf i (if decide (vars s waitingElves = ELF_GROUP_SIZE)
                         then E_set_count else E_unlock) s)
    | E_set_count =>
        Some (Assign elfCount ELF_GROUP_SIZE,
              set_elf i E_reset (var_assign elfCount ELF_GROUP_SIZE s))
    | E_reset =>
        Some (Assign waitingElves 0,
              set_elf i E_post_santa (var_assign waitingElves 0 s))
    | E_post_santa =>
        Some (SemPost santaSem, set_elf i E_unlock (sem_post santaSem s))
    | E_unlock =>
        s' ← mutex_unlock elfMutex (Elf i) s;
        Some (Unlock elfMutex, set_elf i E_wait s')
    | E_wait =>
        s' ← sem_wait elfSem s;
        Some (SemWait elfSem, set_elf i E_help s')
    | E_help => Some (Usleep 100000, set_elf i E_work s)
    end.
Proof. intros Hp. unfold elf_step. by rewrite Hp. Qed.

(** A step of thread [t] followed by a run of [t] alone. *)
Lemma run_step_alone t n s e s1 tr s' :
  step t s = Some (e, s1) → run (replicate n t) s1 = Some (tr, s') →
  run (replicate (S n) t) s = Some ((t, e) :: tr, s').
Proof. intros Hst Hr. apply run_cons. by exists e, s1, tr. Qed.

(** The critical section of an arriving reindeer when no other thread
    moves: [santaSem] goes up by one if the reindeer counts to 9, and is
    left alone otherwise. *)
Lemma reindeer_arrives_alone s i :
  inv s → reindeer s !! i = Some R_inc →
  ∃ tr' s', run (replicate 3 (Reindeer i)) s = Some (tr', s')
    ∧ vars s' reindeerCount = vars s reindeerCount + 1
    ∧ sems s' santaSem
      = if decide (vars s reindeerCount + 1 = NUM_REINDEER)
        then S (sems s santaSem) else sems s santaSem.
Proof.
  intros Hinv Hp.
  destruct (owner_reindeer_pc_at _ _ _ Hinv Hp eq_refl) as [Hown Ho].
  pose proof (inv_reindeer _ Hinv) as Hrc. rewrite Ho in Hrc. simpl in Hrc.
  pose proof (lookup_lt_Some _ _ _ Hp) as Hlt.
  set (s1 := set_reindeer i R_test
               (set_vars (upd (vars s) reindeerCount
                            (vars s reindeerCount + 1)) s)).
  assert (step (Reindeer i) s = Some (Incr reindeerCount, s1)) as H1.
  { simpl. rewrite (reindeer_step_at _ _ _ Hp). unfold var_incr.
    by rewrite decide_True by (unfold INT_MAX; lia). }
  assert (vars s1 reindeerCount = vars s reindeerCount + 1) as Hrc1
    by (simpl; unfold upd; simpl; done).
  assert (reindeer s1 !! i = Some R_test) as Hp1
    by (simpl; by rewrite list_lookup_insert_eq).
  set (p2 := if decide (vars s reindeerCount + 1 = NUM_REINDEER)
             then R_post_santa else R_unlock).
  set (s2 := set_reindeer i p2 s1).
  assert (step (Reindeer i) s1 = Some (Test reindeerCount (vars s1 reindeerCount), s2))
    as H2.
  { simpl. rewrite (reindeer_step_at _ _ _ Hp1). unfold s2, p2.
    by rewrite Hrc1. }
  assert (reindeer s2 !! i = Some p2) as Hp2.
  { simpl. rewrite list_lookup_insert_eq; [done|]. by rewrite length_insert. }
  assert (∃ e3 s3, step (Reindeer i) s2 = Some (e3, s3)
            ∧ vars s3 reindeerCount = vars s reindeerCount + 1
            ∧ sems s3 santaSem
              = if decide (vars s reindeerCount + 1 = NUM_REINDEER)
                then S (sems s santaSem) else sems s santaSem)
    as (e3 & s3 & H3 & Hv3 & Hs3).
  { simpl. rewrite (reindeer_step_at _ _ _ Hp2). unfold p2.
    case_decide.
    - eexists _, _. split; [done|]. simpl. unfold upd. simpl. done.
    - unfold mutex_unlock. simpl. rewrite decide_True by done.
      eexists _, _. split; [done|]. simpl. unfold upd. simpl. done. }
  exists [(Reindeer i, Incr reindeerCount);
          (Reindeer i, Test reindeerCount (vars s1 reindeerCount));
          (Reindeer i, e3)], s3.
  split; [|done].
  apply (run_step_alone _ 2 _ _ s1); [done|].
  apply (run_step_alone _ 1 _ _ s2); [done|].
  apply (run_step_alone _ 0 _ _ s3); done.
Qed.

(** The critical section of an arriving elf when no other thread moves:
    the elf that counts to 3 raises the flag, resets [waitingElves] and
    raises [santaSem] by one; any other elf leaves [santaSem] and the flag
    alone. *)
Lemma elf_arrives_alone s i :
  inv s → elves s !! i = Some E_inc →
  ∃ tr' s',
    run (replicate (if decide (vars s waitingElves + 1 = ELF_GROUP_SIZE)
                    then 5%nat else 3%nat) (Elf i)) s = Some (tr', s')
    ∧ sems s' santaSem
      = (if decide (vars s waitingElves + 1 = ELF_GROUP_SIZE)
         then S (sems s santaSem) else sems s santaSem)
    ∧ vars s' elfCount
      = (if decide (vars s waitingElves + 1 = ELF_GROUP_SIZE)
         then ELF_GROUP_SIZE else vars s elfCount)
    ∧ vars s' waitingElves
      = (if decide (vars s waitingElves + 1 = ELF_GROUP_SIZE)
         then 0 else vars s waitingElves + 1).
Proof.
  intros Hinv Hp.
  destruct (owner_elf_pc_at _ _ _ Hinv Hp eq_refl) as [Hown Ho].
  pose proof (waitingElves_range _ Hinv) as Hwe.
  pose proof (lookup_lt_Some _ _ _ Hp) as Hlt.
  set (s1 := set_elf i E_test
               (set_vars (upd (vars s) waitingElves
                            (vars s waitingElves + 1)) s)).
  assert (step (Elf i) s = Some (Incr waitingElves, s1)) as H1.
  { simpl. rewrite (elf_step_at _ _ _ Hp). unfold var_incr.
    by rewrite decide_True by (unfold INT_MAX, ELF_GROUP_SIZE in *; lia). }
  assert (vars s1 waitingElves = vars s waitingElves + 1) as Hwe1
    by (simpl; unfold upd; simpl; done).
  assert (elves s1 !! i = Some E_test) as Hp1
    by (simpl; by rewrite list_lookup_insert_eq).
  set (p2 := if decide (vars s waitingElves + 1 = ELF_GROUP_SIZE)
             then E_set_count else E_unlock).
  set (s2 := set_elf i p2 s1).
  assert (step (Elf i) s1 = Some (Test waitingElves (vars s1 waitingElves), s2))
    as H2.
  { simpl. rewrite (elf_step_at _ _ _ Hp1). unfold s2, p2. by rewrite Hwe1. }
  assert (elves s2 !! i = Some p2) as Hp2.
  { simpl. rewrite list_lookup_insert_eq; [done|]. by rewrite length_insert. }
  assert (length (elves s2) = length (elves s)) as Hlen2
    by (simpl; by rewrite !length_insert).
  unfold p2 in Hp2. case_decide as H3.
  - set (s3 := set_elf i E_reset (var_assign elfCount ELF_GROUP_SIZE s2)).
    assert (step (Elf i) s2 = Some (Assign elfCount ELF_GROUP_SIZE, s3)) as H3'.
    { simpl. by rewrite (elf_step_at _ _ _ Hp2). }
    assert (elves s3 !! i = Some E_reset) as Hp3.
    { simpl. rewrite list_lookup_insert_eq; [done|]. simpl in Hlen2. lia. }
    set (s4 := set_elf i E_post_santa (var_assign waitingElves 0 s3)).
    assert (step (Elf i) s3 = Some (Assign waitingElves 0, s4)) as H4.
    { simpl. by rewrite (elf_step_at _ _ _ Hp3). }
    assert (elves s4 !! i = Some E_post_santa) as Hp4.
    { simpl. rewrite list_lookup_insert_eq; [done|].
      rewrite !length_insert. done. }
    set (s5 := set_elf i E_unlock (sem_post santaSem s4)).
    assert (step (Elf i) s4 = Some (SemPost santaSem, s5)) as H5.
    { simpl. by rewrite (elf_step_at _ _ _ Hp4). }
    exists [(Elf i, Incr waitingElves);
            (Elf i, Test waitingElves (vars s1 waitingElves));
            (Elf i, Assign elfCount ELF_GROUP_SIZE);
            (Elf i, Assign waitingElves 0);
            (Elf i, SemPost santaSem)], s5.
    split; [|by simpl; unfold upd; simpl].
    apply (run_step_alone _ 4 _ _ s1); [done|].
    apply (run_step_alone _ 3 _ _ s2); [done|].
    apply (run_step_alone _ 2 _ _ s3); [done|].
    apply (run_step_alone _ 1 _ _ s4); [done|].
    apply (run_step_alone _ 0 _ _ s5); done.
  - assert (∃ s3, step (Elf i) s2 = Some (Unlock elfMutex, s3)
              ∧ sems s3 = sems s ∧ vars s3 = vars s1) as (s3 & H3' & Hs3 & Hv3).
    { simpl. rewrite (elf_step_at _ _ _ Hp2). unfold mutex_unlock. simpl.
      rewrite decide_True by done. eexists. split; [done|]. done. }
    exists [(Elf i, Incr waitingElves);
            (Elf i, Test waitingElves (vars s1 waitingElves));
            (Elf i, Unlock elfMutex)], s3.
    split; [|by rewrite Hs3, Hv3; simpl; unfold upd; simpl].
    apply (run_step_alone _ 2 _ _ s1); [done|].
    apply (run_step_alone _ 1 _ _ s2); [done|].
    apply (run_step_alone _ 0 _ _ s3); done.
Qed.

(** ** Concrete executions *)

(** Evaluate the run named in a goal [after sched P]. *)
Ltac run_after H :=
  unfold after;
  match goal with
  | |- match run ?sched init with _ => _ end =>
      destruct (run sched init) as [[? ?]|] eqn:H; [|by vm_compute in H]
  end.

(** The state (or the trace) a concrete run ends in satisfies a closed
    fact. *)
Ltac by_run H := vm_compute in H; (by injection H as <- <-).

(** Evaluate the second run named in a goal [then_after sched P s], where
    [Hs] is the run that produced [s]. *)
Ltac run_then Hs H :=
  unfold then_after;
  match goal with
  | |- match run ?sched ?s with _ => _ end =>
      destruct (run sched s) as [[? ?]|] eqn:H;
      [|exfalso; vm_compute in Hs; injection Hs as <- <-;
        by vm_compute in H]
  end.

(** ** Priority of the reindeer *)

(** What the order of the two tests does give.  In every execution, if the
    test of line 70 read 9 in Santa's current pass, Santa is not in the elf
    branch and the pass contains no release of elves and no consultation;
    if Santa is in the elf branch, the pass began with a test of
    [reindeerCount] that read a value other than 9 followed by a test of
    [elfCount] that read 3.  Each of the two tests branches on the value
    the global has when the test is executed.  This speaks of the value
    read at line 70, not of [reindeerCount] at the moment the elf branch is
    chosen. *)
Lemma reindeer_priority sched tr s :
  run sched init = Some (tr, s) →
  let it := current_iteration (events_of Santa tr) in
  (In (Test reindeerCount NUM_REINDEER) it →
     serving_elves (santa s) = false
     ∧ ¬ In (SemPost elfSem) it ∧ ¬ In (Usleep 300000) it
     ∧ ¬ In (Incr elfConsultations) it)
  ∧ (serving_elves (santa s) = true →
     ∃ v rest, v ≠ NUM_REINDEER
       ∧ it = woken ++ [Test reindeerCount v; Unlock reindeerMutex;
                        Lock elfMutex; Test elfCount ELF_GROUP_SIZE] ++ rest)
  ∧ (∀ e s', step Santa s = Some (e, s') →
       (santa s = S_test_r →
          e = Test reindeerCount (vars s reindeerCount)
          ∧ santa s' = if decide (vars s reindeerCount = NUM_REINDEER)
                       then S_release_r 0 else S_unlock_r_else)
       ∧ (santa s = S_test_e →
          e = Test elfCount (vars s elfCount)
          ∧ santa s' = if decide (vars s elfCount = ELF_GROUP_SIZE)
                       then S_release_e 0 else S_unlock_e_else)).
Proof.
  intros Hrun it. pose proof (h_shape _ _ (history_run _ _ _ Hrun)) as Hsh.
  fold it in Hsh. clearbody it. unfold NUM_REINDEER, ELF_GROUP_SIZE.
  split; [|split].
  - intros Hin. destruct (santa s); shape_cases Hsh;
      list_mem Hin; list_mem_goal; list_solve.
  - intros Hs. destruct (santa s); try done; shape_cases Hsh;
      unfold elves_released; rewrite <- ?app_assoc; simpl; eauto.
  - intros e s' Hst. simpl in Hst. unfold santa_step in Hst.
    split; intros Hpc; rewrite Hpc in Hst; simplify_option_eq; done.
Qed.

Lemma reindeer_priority_witness :
  after (nine_reindeer ++ santa_releases_reindeer) (λ tr s,
    In (Test reindeerCount NUM_REINDEER)
       (current_iteration (events_of Santa tr))
    ∧ serving_elves (santa s) = false
    ∧ ¬ In (SemPost elfSem) (current_iteration (events_of Santa tr)))
  ∧ after (three_elves ++ santa_releases_elves) (λ tr s,
    serving_elves (santa s) = true
    ∧ ∃ v rest, v ≠ NUM_REINDEER
        ∧ current_iteration (events_of Santa tr)
          = woken ++ [Test reindeerCount v; Unlock reindeerMutex;
                      Lock elfMutex; Test elfCount ELF_GROUP_SIZE] ++ rest).
Proof.
  split.
  - run_after H.
    assert (In (Test reindeerCount NUM_REINDEER)
              (current_iteration (events_of Santa t))) as Hin.
    { vm_compute in H. injection H as <- <-. vm_compute. tauto. }
    split; [done|].
    destruct (reindeer_priority _ _ _ H) as (Ha & _ & _). tauto.
  - run_after H.
    assert (serving_elves (santa s) = true) as Hs by by_run H.
    split; [done|].
    destruct (reindeer_priority _ _ _ H) as (_ & Hb & _). auto.
Defined.

(** The decision about the reindeer is the test of line 70:
    [reindeerMutex] is free between line 88 and line 92, the ninth reindeer
    may arrive there, and Santa then serves the elves in this pass and the
    reindeer in the next one. *)
Lemma ninth_reindeer_after_the_test :
  after ninth_reindeer_during_elf_check (λ tr s,
    santa s = S_release_e 0 ∧ vars s reindeerCount = 9
    ∧ current_iteration (events_of Santa tr)
      = woken ++ [Test reindeerCount 8; Unlock reindeerMutex; Lock elfMutex;
                  Test elfCount 3])
  ∧ after (ninth_reindeer_during_elf_check ++ replicate 8 Santa
           ++ replicate 4 Santa) (λ tr s,
    santa s = S_release_r 0 ∧ vars s elfConsultations = 1
    ∧ vars s deliveries = 0).
Proof.
  split; run_after H; vm_compute in H; injection H as <- <-; by vm_compute.
Qed.

(** C1: the code does not keep the priority of the reindeer that its header
    announces.  Elves 0, 1 and 2 form a trio and reindeer 0 to 7 come back;
    Santa wakes up, reads 8 at line 70 and unlocks [reindeerMutex] at line
    88; reindeer 8 comes back, counts to 9 and posts [santaSem]; Santa locks
    [elfMutex].  At the test of line 92 all nine reindeer are blocked at
    line 139, [reindeerCount] is 9 and [elfCount] is 3, and Santa's step
    takes the elf branch.  Santa then finishes the consultation and is back
    at line 64 with one consultation and no delivery, the nine reindeer
    still waiting. *)
Theorem reindeer_priority_fails :
  after (ninth_reindeer_behind_santa ++ [Santa]) (λ tr s,
    santa s = S_test_e
    ∧ vars s reindeerCount = NUM_REINDEER ∧ vars s elfCount = ELF_GROUP_SIZE
    ∧ (∀ i p, reindeer s !! i = Some p → p = R_wait)
    ∧ ∃ s', step Santa s = Some (Test elfCount ELF_GROUP_SIZE, s')
        ∧ serving_elves (santa s') = true
        ∧ vars s' reindeerCount = NUM_REINDEER)
  ∧ after (ninth_reindeer_behind_santa ++ replicate 10 Santa) (λ tr s,
    santa s = S_wait_santa
    ∧ vars s elfConsultations = 1 ∧ vars s deliveries = 0
    ∧ vars s reindeerCount = NUM_REINDEER ∧ sems s reindeerSem = 0%nat
    ∧ (∀ i p, reindeer s !! i = Some p → p = R_wait)).
Proof.
  split; run_after H; vm_compute in H; injection H as <- <-.
  - split; [done|]. split; [done|]. split; [done|]. split.
    + intros i p. do 9 (destruct i as [|i]; [by intros [= <-]|]). done.
    + eexists. split; [by vm_compute|]. done.
  - split; [done|]. split; [done|]. split; [done|]. split; [done|].
    split; [done|].
    intros i p. do 9 (destruct i as [|i]; [by intros [= <-]|]). done.
Qed.

(** ** One service at a time *)

(** C2: in every execution [santaMutex] is 0 exactly while Santa is between
    lines 66 and 113 and 1 otherwise, acquisitions and releases alternate, a
    service (either branch) is under way only inside that region, where no
    [sem_wait(&santaMutex)] can succeed, and one tenure of the semaphore
    contains at most one service step. *)
Theorem service_serialized sched tr s :
  run sched init = Some (tr, s) →
  sems s santaMutex = (if santa_critical (santa s) then 0 else 1)%nat
  ∧ count (ev (SemWait santaMutex)) tr - count (ev (SemPost santaMutex)) tr
    = (if santa_critical (santa s) then 1 else 0)
  ∧ (serving_reindeer (santa s) || serving_elves (santa s) = true →
     santa_critical (santa s) = true)
  ∧ (santa_critical (santa s) = true → sem_wait santaMutex s = None)
  ∧ (services (current_iteration (events_of Santa tr)) ≤ 1)%nat.
Proof.
  intros Hrun. destruct (history_run _ _ _ Hrun) as [Hinv Hc Hsh].
  pose proof (inv_santaMutex _ Hinv) as HsM.
  split; [done|]. split; [apply (c_santaMutex _ _ Hc)|].
  split; [by destruct (santa s)|]. split.
  - intros Hcr. rewrite Hcr in HsM. unfold sem_wait. by rewrite HsM.
  - set (it := current_iteration (events_of Santa tr)) in *. clearbody it.
    destruct (santa s); shape_cases Hsh; unfold_passes;
      rewrite ?services_app, ?services_replicate_post; vm_compute; lia.
Qed.

Lemma service_serialized_witness :
  after (nine_reindeer ++ santa_releases_reindeer) (λ tr s,
    serving_reindeer (santa s) = true
    ∧ sems s santaMutex = 0%nat
    ∧ sem_wait santaMutex s = None
    ∧ (services (current_iteration (events_of Santa tr)) ≤ 1)%nat).
Proof.
  run_after H.
  assert (serving_reindeer (santa s) = true) as Hs by by_run H.
  destruct (service_serialized _ _ _ H) as (H1 & _ & H3 & H4 & H5).
  assert (santa_critical (santa s) = true) as Hc.
  { apply H3. by rewrite Hs. }
  rewrite Hc in H1. auto.
Defined.

(** ** Release of a cohort *)

(** C3: when Santa has finished a release (it is at the unlock of line 80,
    of line 102), its pass consists of the wake-up, the successful test,
    exactly nine posts on [reindeerSem] (three on [elfSem]) and the reset of
    [reindeerCount] ([elfCount]), which is 0 in that state; over a whole
    execution the number of release posts is nine (three) times the number
    of resets plus the posts of the release under way.  The posts are
    signals that reach the semaphores: a step that posts a semaphore raises
    its value by one, the value of [reindeerSem] (of [elfSem]) is the number
    of posts so far less the number of waits that have succeeded, and from
    the head of a release loop Santa on its own makes nine (three) posts and
    the reset, after which the semaphore is up by exactly 9 (by 3) and the
    counter is 0. *)
Theorem release_all_exact sched tr s :
  run sched init = Some (tr, s) →
  let it := current_iteration (events_of Santa tr) in
  (santa s = S_unlock_r →
     it = woken ++ [Test reindeerCount NUM_REINDEER]
          ++ replicate (Z.to_nat NUM_REINDEER) (SemPost reindeerSem)
          ++ [Assign reindeerCount 0]
     ∧ vars s reindeerCount = 0)
  ∧ (santa s = S_unlock_e →
     ∃ v, it = woken ++ [Test reindeerCount v; Unlock reindeerMutex;
                         Lock elfMutex; Test elfCount ELF_GROUP_SIZE]
               ++ replicate (Z.to_nat ELF_GROUP_SIZE) (SemPost elfSem)
               ++ [Assign elfCount 0]
     ∧ vars s elfCount = 0)
  ∧ count (ev (SemPost reindeerSem)) tr
    = NUM_REINDEER * count (ev (Assign reindeerCount 0)) tr + posted (santa s)
  ∧ count (ev (SemPost elfSem)) tr
    = ELF_GROUP_SIZE * count (ev (Assign elfCount 0)) tr + posted_e (santa s)
  ∧ (∀ t x s', step t s = Some (SemPost x, s') →
       sems s' x = S (sems s x))
  ∧ Z.of_nat (sems s reindeerSem) + count (ev (SemWait reindeerSem)) tr
    = count (ev (SemPost reindeerSem)) tr
  ∧ Z.of_nat (sems s elfSem) + count (ev (SemWait elfSem)) tr
    = count (ev (SemPost elfSem)) tr
  ∧ (santa s = S_release_r 0 →
     ∃ tr' s', run (replicate 10 Santa) s = Some (tr', s')
       ∧ tr' = replicate 9 (Santa, SemPost reindeerSem)
               ++ [(Santa, Assign reindeerCount 0)]
       ∧ santa s' = S_unlock_r
       ∧ sems s' reindeerSem = (sems s reindeerSem + 9)%nat
       ∧ vars s' reindeerCount = 0)
  ∧ (santa s = S_release_e 0 →
     ∃ tr' s', run (replicate 4 Santa) s = Some (tr', s')
       ∧ tr' = replicate 3 (Santa, SemPost elfSem)
               ++ [(Santa, Assign elfCount 0)]
       ∧ santa s' = S_unlock_e
       ∧ sems s' elfSem = (sems s elfSem + 3)%nat
       ∧ vars s' elfCount = 0).
Proof.
  intros Hrun it. destruct (history_run _ _ _ Hrun) as [Hinv Hc Hsh].
  pose proof (inv_santa _ Hinv) as Hsan. fold it in Hsh. clearbody it.
  repeat apply conj.
  - intros Hpc. rewrite Hpc in Hsh, Hsan. simpl in *. by subst it.
  - intros Hpc. rewrite Hpc in Hsh, Hsan. simpl in *.
    destruct Hsh as (v & _ & ->). by exists v.
  - apply (c_release_r _ _ Hc).
  - apply (c_release_e _ _ Hc).
  - intros t x s' Hst. by apply (step_sem_effect _ _ _ _ x Hst).
  - rewrite (sem_balance_from reindeerSem _ _ _ _ Hrun). simpl. lia.
  - rewrite (sem_balance_from elfSem _ _ _ _ Hrun). simpl. lia.
  - intros Hpc. by apply (release_reindeer_alone 9 s 0).
  - intros Hpc. by apply (release_elves_alone 3 s 0).
Qed.

Lemma release_all_exact_witness :
  after (nine_reindeer ++ santa_releases_reindeer) (λ tr s,
    santa s = S_unlock_r
    ∧ current_iteration (events_of Santa tr)
      = woken ++ [Test reindeerCount NUM_REINDEER]
        ++ replicate (Z.to_nat NUM_REINDEER) (SemPost reindeerSem)
        ++ [Assign reindeerCount 0]
    ∧ vars s reindeerCount = 0
    ∧ sems s reindeerSem = 9%nat)
  ∧ after (three_elves ++ santa_releases_elves) (λ tr s,
    santa s = S_unlock_e
    ∧ (∃ v, current_iteration (events_of Santa tr)
            = woken ++ [Test reindeerCount v; Unlock reindeerMutex;
                        Lock elfMutex; Test elfCount ELF_GROUP_SIZE]
              ++ replicate (Z.to_nat ELF_GROUP_SIZE) (SemPost elfSem)
              ++ [Assign elfCount 0]
            ∧ vars s elfCount = 0)
    ∧ sems s elfSem = 3%nat).
Proof.
  split; run_after H.
  - assert (santa s = S_unlock_r) as Hpc by by_run H.
    assert (count (ev (Assign reindeerCount 0)) t = 1
            ∧ count (ev (SemWait reindeerSem)) t = 0) as [Hres Hw].
    { vm_compute in H. injection H as <- <-. by vm_compute. }
    destruct (release_all_exact _ _ _ H)
      as (Hr & _ & Hn & _ & _ & Hb & _).
    destruct (Hr Hpc) as [Hit Hrc]. rewrite Hpc, Hres in Hn. simpl in Hn.
    split; [done|]. split; [done|]. split; [done|].
    unfold NUM_REINDEER in Hn. lia.
  - assert (santa s = S_unlock_e) as Hpc by by_run H.
    assert (count (ev (Assign elfCount 0)) t = 1
            ∧ count (ev (SemWait elfSem)) t = 0) as [Hres Hw].
    { vm_compute in H. injection H as <- <-. by vm_compute. }
    destruct (release_all_exact _ _ _ H)
      as (_ & He & _ & Hn & _ & _ & Hb & _).
    rewrite Hpc, Hres in Hn. simpl in Hn.
    split; [done|]. split; [by apply He|].
    unfold ELF_GROUP_SIZE in Hn. lia.
Defined.

(** ** Notification of Santa *)

(** C4: an arriving reindeer, once it holds [reindeerMutex], increments
    [reindeerCount], tests the value it has just written and posts
    [santaSem] exactly when that value is 9, whatever the other threads do
    meanwhile; likewise an elf with [waitingElves] and 3.  Whenever no
    reindeer (no elf) is inside its critical section, the number of posts on
    [santaSem] by reindeer (by elves) so far is the number of increments so
    far divided by 9 (by 3): one post per completed cohort.  The posts are
    notifications that reach [santaSem]: a step that posts it raises its
    value by one, its value is the number of posts by reindeer and by elves
    so far less the number of waits that have succeeded, and an arriving
    reindeer (elf) running on its own leaves [santaSem] up by one when it
    counts to 9 (to 3) and unchanged otherwise. *)
Theorem notification_once_per_cohort sched tr s :
  run sched init = Some (tr, s) →
  (∀ i sched' tr' s',
     reindeer s !! i = Some R_inc → run sched' s = Some (tr', s') →
     steps_of (Reindeer i) sched' = 3%nat →
     events_of (Reindeer i) tr'
     = [Incr reindeerCount; Test reindeerCount (vars s reindeerCount + 1);
        if decide (vars s reindeerCount + 1 = NUM_REINDEER)
        then SemPost santaSem else Unlock reindeerMutex])
  ∧ (∀ i sched' tr' s',
       elves s !! i = Some E_inc → run sched' s = Some (tr', s') →
       steps_of (Elf i) sched'
       = (if decide (vars s waitingElves + 1 = ELF_GROUP_SIZE)
          then 5%nat else 3%nat) →
       events_of (Elf i) tr'
       = [Incr waitingElves; Test waitingElves (vars s waitingElves + 1)]
         ++ (if decide (vars s waitingElves + 1 = ELF_GROUP_SIZE)
             then [Assign elfCount ELF_GROUP_SIZE; Assign waitingElves 0;
                   SemPost santaSem]
             else [Unlock elfMutex]))
  ∧ (owner_reindeer_pc s = None →
     count (by_reindeer (SemPost santaSem)) tr
     = count (ev (Incr reindeerCount)) tr / NUM_REINDEER)
  ∧ (owner_elf_pc s = None →
     count (by_elf (SemPost santaSem)) tr
     = count (ev (Incr waitingElves)) tr / ELF_GROUP_SIZE)
  ∧ (∀ t s', step t s = Some (SemPost santaSem, s') →
       sems s' santaSem = S (sems s santaSem))
  ∧ Z.of_nat (sems s santaSem) + count (ev (SemWait santaSem)) tr
    = count (by_reindeer (SemPost santaSem)) tr
      + count (by_elf (SemPost santaSem)) tr
  ∧ (∀ i, reindeer s !! i = Some R_inc →
     ∃ tr' s', run (replicate 3 (Reindeer i)) s = Some (tr', s')
       ∧ vars s' reindeerCount = vars s reindeerCount + 1
       ∧ sems s' santaSem
         = if decide (vars s reindeerCount + 1 = NUM_REINDEER)
           then S (sems s santaSem) else sems s santaSem)
  ∧ (∀ i, elves s !! i = Some E_inc →
     ∃ tr' s',
       run (replicate (if decide (vars s waitingElves + 1 = ELF_GROUP_SIZE)
                       then 5%nat else 3%nat) (Elf i)) s = Some (tr', s')
       ∧ sems s' santaSem
         = (if decide (vars s waitingElves + 1 = ELF_GROUP_SIZE)
            then S (sems s santaSem) else sems s santaSem)
       ∧ vars s' elfCount
         = (if decide (vars s waitingElves + 1 = ELF_GROUP_SIZE)
            then ELF_GROUP_SIZE else vars s elfCount)
       ∧ vars s' waitingElves
         = (if decide (vars s waitingElves + 1 = ELF_GROUP_SIZE)
            then 0 else vars s waitingElves + 1)).
Proof.
  intros Hrun. destruct (history_run _ _ _ Hrun) as [Hinv Hc Hsh].
  repeat apply conj.
  - intros i sched' tr' s' Hpc Hr Hn.
    by destruct (reindeer_arrival _ _ _ _ _ Hinv Hpc Hr Hn).
  - intros i sched' tr' s' Hpc Hr Hn.
    by destruct (elf_arrival _ _ _ _ _ Hinv Hpc Hr Hn).
  - intros Ho. pose proof (c_arrive_r _ _ Hc) as Ha.
    pose proof (c_notify_r _ _ Hc) as Hno.
    pose proof (inv_rc _ Hinv). pose proof (reindeerCount_le _ Hinv).
    unfold pending_r in Hno. rewrite Ho in Hno. unfold NUM_REINDEER in *.
    case_decide.
    + apply (Z.div_unique _ _ _ 0); lia.
    + apply (Z.div_unique _ _ _ (vars s reindeerCount)); lia.
  - intros Ho. pose proof (c_arrive_e _ _ Hc) as Ha.
    pose proof (inv_elf _ Hinv) as Helf.
    unfold pending_e in Ha. rewrite Ho in Ha, Helf. simpl in Helf.
    unfold ELF_GROUP_SIZE.
    apply (Z.div_unique _ _ _ (vars s waitingElves)); lia.
  - intros t s' Hst. by apply (step_sem_effect _ _ _ _ santaSem Hst).
  - rewrite (sem_balance_from santaSem _ _ _ _ Hrun).
    rewrite (santaSem_posts _ _ _ _ Hrun). simpl. lia.
  - intros i Hpc. by apply reindeer_arrives_alone.
  - intros i Hpc. by apply elf_arrives_alone.
Qed.

Lemma notification_once_per_cohort_witness :
  after ninth_reindeer_at_increment
    (then_after [Reindeer 8; Elf 0; Reindeer 8; Elf 1; Reindeer 8]
       (λ tr' _, events_of (Reindeer 8) tr'
                 = [Incr reindeerCount; Test reindeerCount 9;
                    SemPost santaSem]))
  ∧ after third_elf_at_increment
      (then_after [Elf 2; Reindeer 0; Elf 2; Elf 2; Elf 3; Elf 2; Elf 2]
         (λ tr' _, events_of (Elf 2) tr'
                   = [Incr waitingElves; Test waitingElves 3;
                      Assign elfCount 3; Assign waitingElves 0;
                      SemPost santaSem]))
  ∧ after (nine_reindeer ++ three_elves) (λ tr s,
      count (by_reindeer (SemPost santaSem)) tr = 1
      ∧ count (by_elf (SemPost santaSem)) tr = 1
      ∧ sems s santaSem = 2%nat)
  ∧ after ninth_reindeer_at_increment (λ _ s,
      sems s santaSem = 0%nat
      ∧ ∃ tr' s', run (replicate 3 (Reindeer 8)) s = Some (tr', s')
          ∧ vars s' reindeerCount = 9 ∧ sems s' santaSem = 1%nat)
  ∧ after third_elf_at_increment (λ _ s,
      sems s santaSem = 0%nat
      ∧ ∃ tr' s', run (replicate 5 (Elf 2)) s = Some (tr', s')
          ∧ sems s' santaSem = 1%nat ∧ vars s' elfCount = 3
          ∧ vars s' waitingElves = 0).
Proof.
  split; [|split; [|split; [|split]]]; run_after H.
  - run_then H H'.
    assert (reindeer s !! 8%nat = Some R_inc) as Hpc by by_run H.
    assert (vars s reindeerCount = 8) as Hrc by by_run H.
    destruct (notification_once_per_cohort _ _ _ H) as (Hr & _).
    rewrite (Hr _ _ _ _ Hpc H' eq_refl), Hrc. done.
  - run_then H H'.
    assert (elves s !! 2%nat = Some E_inc) as Hpc by by_run H.
    assert (vars s waitingElves = 2) as Hwe by by_run H.
    destruct (notification_once_per_cohort _ _ _ H) as (_ & He & _).
    rewrite (He _ _ _ _ Hpc H'); rewrite Hwe; done.
  - assert (owner_reindeer_pc s = None) as Hor by by_run H.
    assert (owner_elf_pc s = None) as Hoe by by_run H.
    assert (count (ev (Incr reindeerCount)) t = 9
            ∧ count (ev (Incr waitingElves)) t = 3
            ∧ count (ev (SemWait santaSem)) t = 0) as (Hnr & Hne & Hw).
    { vm_compute in H. injection H as <- <-. by vm_compute. }
    destruct (notification_once_per_cohort _ _ _ H)
      as (_ & _ & Hr & He & _ & Hb & _).
    rewrite (Hr Hor), (He Hoe), Hnr, Hne, Hw in Hb.
    rewrite (Hr Hor), (He Hoe), Hnr, Hne.
    change (9 / NUM_REINDEER) with 1 in *.
    change (3 / ELF_GROUP_SIZE) with 1 in *.
    split; [reflexivity|]. split; [reflexivity|]. lia.
  - assert (reindeer s !! 8%nat = Some R_inc) as Hpc by by_run H.
    assert (vars s reindeerCount = 8) as Hrc by by_run H.
    assert (sems s santaSem = 0%nat) as Hs by by_run H.
    split; [done|].
    destruct (notification_once_per_cohort _ _ _ H)
      as (_ & _ & _ & _ & _ & _ & Hr & _).
    destruct (Hr _ Hpc) as (tr' & s' & Hrun' & Hv & Hsem).
    rewrite Hrc in Hv, Hsem. rewrite Hs in Hsem.
    exists tr', s'. split; [assumption|]. split; assumption.
  - assert (elves s !! 2%nat = Some E_inc) as Hpc by by_run H.
    assert (vars s waitingElves = 2) as Hwe by by_run H.
    assert (sems s santaSem = 0%nat) as Hs by by_run H.
    split; [done|].
    destruct (notification_once_per_cohort _ _ _ H)
      as (_ & _ & _ & _ & _ & _ & _ & He).
    destruct (He _ Hpc) as (tr' & s' & Hrun' & Hsem & Hec & Hw).
    rewrite Hwe in Hrun', Hsem, Hec, Hw. rewrite Hs in Hsem.
    exists tr', s'. split; [assumption|]. repeat split; assumption.
Defined.

(** ** Where the arrival counters are reset *)




(** ** Order of release and service *)




(** ** The statistics *)

(** C7: along every execution [deliveries] and [elfConsultations] never
    decrease; a step either leaves both unchanged or is Santa's increment of
    line 83 (line 105), which adds exactly 1 to [deliveries]
    ([elfConsultations]) and leaves the other one unchanged; and
    [deliveries] ([elfConsultations]) equals the number of service steps
    [usleep(500000)] ([usleep(300000)]) performed, less the one whose
    increment is still to come. *)
Theorem statistics_counters sched tr s :
  run sched init = Some (tr, s) →
  (∀ sched' tr' s', run sched' s = Some (tr', s') →
     vars s deliveries ≤ vars s' deliveries
     ∧ vars s elfConsultations ≤ vars s' elfConsultations)
  ∧ (∀ t e s', step t s = Some (e, s') →
       (vars s' deliveries = vars s deliveries
        ∧ vars s' elfConsultations = vars s elfConsultations)
       ∨ (t = Santa ∧ santa s = S_inc_deliveries
          ∧ vars s' deliveries = vars s deliveries + 1
          ∧ vars s' elfConsultations = vars s elfConsultations)
       ∨ (t = Santa ∧ santa s = S_inc_consultations
          ∧ vars s' elfConsultations = vars s elfConsultations + 1
          ∧ vars s' deliveries = vars s deliveries))
  ∧ count (ev (Usleep 500000)) tr
    = vars s deliveries + match santa s with S_inc_deliveries => 1 | _ => 0 end
  ∧ count (ev (Usleep 300000)) tr
    = vars s elfConsultations
      + match santa s with S_inc_consultations => 1 | _ => 0 end.
Proof.
  intros Hrun. destruct (history_run _ _ _ Hrun) as [Hinv Hc Hsh].
  split; [|split; [|split]].
  - intros sched' tr' s'. apply run_statistics_mono.
  - intros t e s'. apply step_statistics.
  - apply (c_service_r _ _ Hc).
  - apply (c_service_e _ _ Hc).
Qed.

Lemma statistics_counters_witness :
  after (nine_reindeer ++ santa_delivers) (λ tr s,
    vars s deliveries = 1
    ∧ count (ev (Usleep 500000)) tr = 1
    ∧ ∀ t e s', step t s = Some (e, s') →
        vars s deliveries ≤ vars s' deliveries
        ∧ vars s elfConsultations ≤ vars s' elfConsultations).
Proof.
  run_after H.
  assert (vars s deliveries = 1) as Hd by by_run H.
  assert (santa s = S_wait_santa) as Hpc by by_run H.
  destruct (statistics_counters _ _ _ H) as (_ & Hst & Hr & _).
  rewrite Hpc, Hd in Hr. split; [done|]. split; [done|].
  intros t' e s' Hs. specialize (Hst _ _ _ Hs). lia.
Defined.

(** ** Bounds of the arrival counters *)

(** C8: in every reachable state [reindeerCount] lies in [0, 9] and
    [waitingElves] in [0, 3], and a step that changes one of them is taken
    by the thread that owns [reindeerMutex], respectively [elfMutex]. *)
Theorem arrival_counters_bounded sched tr s :
  run sched init = Some (tr, s) →
  0 ≤ vars s reindeerCount ≤ NUM_REINDEER
  ∧ 0 ≤ vars s waitingElves ≤ ELF_GROUP_SIZE
  ∧ (∀ t e s', step t s = Some (e, s') →
       vars s' reindeerCount ≠ vars s reindeerCount →
       mtxs s reindeerMutex = Some t)
  ∧ (∀ t e s', step t s = Some (e, s') →
       vars s' waitingElves ≠ vars s waitingElves →
       mtxs s elfMutex = Some t).
Proof.
  intros Hrun. pose proof (h_inv _ _ (history_run _ _ _ Hrun)) as Hinv.
  split; [|split; [|split]].
  - split; [apply (inv_rc _ Hinv) | by apply reindeerCount_le].
  - by apply waitingElves_range.
  - intros t e s' Hst Hne. by eapply write_guarded.
  - intros t e s' Hst Hne. by eapply write_guarded.
Qed.

Lemma arrival_counters_bounded_witness :
  after nine_reindeer (λ tr s,
    vars s reindeerCount = 9
    ∧ 0 ≤ vars s reindeerCount ≤ NUM_REINDEER
    ∧ 0 ≤ vars s waitingElves ≤ ELF_GROUP_SIZE).
Proof.
  run_after H.
  assert (vars s reindeerCount = 9) as Hrc by by_run H.
  split; [done|]. split; by apply (arrival_counters_bounded _ _ _ H).
Defined.

(** ** A pass that finds nobody *)

(** C9: when Santa has completed a pass in which the test of line 70 read a
    value other than 9 and the test of line 92 a value other than 3, the
    pass consists of the wake-up, the two tests with their unlocks and the
    post on [santaMutex]; none of these actions, in whatever state it is
    executed, changes one of the five counters or the value of
    [reindeerSem] or [elfSem]. *)
Theorem idle_pass_no_effect sched tr s v w :
  run sched init = Some (tr, s) →
  santa s = S_wait_santa →
  let it := current_iteration (events_of Santa tr) in
  In (Test reindeerCount v) it → In (Test elfCount w) it →
  v ≠ NUM_REINDEER → w ≠ ELF_GROUP_SIZE →
  it = woken ++ [Test reindeerCount v; Unlock reindeerMutex; Lock elfMutex;
                 Test elfCount w; Unlock elfMutex; SemPost santaMutex]
  ∧ ∀ e, In e it → ∀ t s1 s2, step t s1 = Some (e, s2) →
      (∀ x, vars s2 x = vars s1 x)
      ∧ sems s2 reindeerSem = sems s1 reindeerSem
      ∧ sems s2 elfSem = sems s1 elfSem.
Proof.
  intros Hrun Hpc it Hv Hw Hv9 Hw3.
  pose proof (h_shape _ _ (history_run _ _ _ Hrun)) as Hsh.
  fold it in Hsh. clearbody it. rewrite Hpc in Hsh.
  unfold NUM_REINDEER, ELF_GROUP_SIZE in *.
  assert (it = idle_pass v w) as ->.
  { shape_cases Hsh; list_mem Hv; list_mem Hw; try done; list_solve. }
  split; [done|]. intros e He t s1 s2 Hst.
  split; [intros x; rewrite (step_vars _ _ _ _ x Hst)
         |rewrite !(step_sems _ _ _ _ _ Hst)];
    list_mem He; intuition (subst e); done.
Qed.

Lemma idle_pass_no_effect_witness :
  after two_trios_then_santa (λ tr s,
    santa s = S_wait_santa
    ∧ current_iteration (events_of Santa tr)
      = woken ++ [Test reindeerCount 0; Unlock reindeerMutex; Lock elfMutex;
                  Test elfCount 0; Unlock elfMutex; SemPost santaMutex]).
Proof.
  run_after H.
  assert (santa s = S_wait_santa) as Hpc by by_run H.
  assert (In (Test reindeerCount 0) (current_iteration (events_of Santa t))
          ∧ In (Test elfCount 0) (current_iteration (events_of Santa t)))
    as [Hv Hw].
  { vm_compute in H. injection H as <- <-. vm_compute. tauto. }
  split; [done|].
  by apply (idle_pass_no_effect _ _ _ 0 0 H Hpc Hv Hw).
Defined.

(** ** The readiness flag of the elves *)

(** C10: in every reachable state [elfCount] is 0 or 3.  An arriving elf
    counts itself in [waitingElves] and leaves [elfCount] alone; [elfCount]
    changes only under [elfMutex], to 3 by the elf that has just brought
    [waitingElves] to 3 (line 161), and back to 0 by Santa at the end of its
    release loop (line 101). *)
Theorem elfCount_zero_or_three sched tr s :
  run sched init = Some (tr, s) →
  (vars s elfCount = 0 ∨ vars s elfCount = ELF_GROUP_SIZE)
  ∧ ∀ t e s', step t s = Some (e, s') →
      (∀ i, t = Elf i → elves s !! i = Some E_inc →
         vars s' waitingElves = vars s waitingElves + 1
         ∧ vars s' elfCount = vars s elfCount)
      ∧ (vars s' elfCount ≠ vars s elfCount →
         mtxs s elfMutex = Some t
         ∧ ((∃ i, t = Elf i ∧ elves s !! i = Some E_set_count
                  ∧ vars s waitingElves = ELF_GROUP_SIZE
                  ∧ vars s' elfCount = ELF_GROUP_SIZE)
            ∨ (t = Santa ∧ santa s = S_release_e ELF_GROUP_SIZE
               ∧ vars s elfCount = ELF_GROUP_SIZE ∧ vars s' elfCount = 0))).
Proof.
  intros Hrun. pose proof (h_inv _ _ (history_run _ _ _ Hrun)) as Hinv.
  split; [apply (inv_ec _ Hinv)|].
  intros t e s' Hst. split.
  - intros i -> Hp. simpl in Hst. unfold elf_step in Hst.
    rewrite Hp in Hst. simplify_option_eq. prim_inv. simpl. by unfold upd.
  - intros Hne. split; [by eapply write_guarded|].
    rewrite (step_vars _ _ _ _ elfCount Hst) in *.
    pose proof (step_writer _ _ _ _ Hst) as Hw.
    pose proof (inv_santa _ Hinv) as Hsan.
    destruct e as [| | | |y|y v| | |]; simpl in *; try done;
      case_decide; try done; subst y; [done|].
    destruct Hw as [(-> & -> & i & Hpc & Hi)|(-> & i & -> & Hp)].
    + right. rewrite Hpc in Hsan. simpl in Hsan.
      assert (i = ELF_GROUP_SIZE) as -> by lia. tauto.
    + left. exists i.
      destruct (owner_elf_pc_at _ _ _ Hinv Hp eq_refl) as [_ Ho].
      pose proof (inv_elf _ Hinv) as Helf. rewrite Ho in Helf. simpl in Helf.
      done.
Qed.

Lemma elfCount_zero_or_three_witness :
  after three_elves (λ tr s,
    vars s elfCount = 3
    ∧ (vars s elfCount = 0 ∨ vars s elfCount = ELF_GROUP_SIZE)).
Proof.
  run_after H.
  assert (vars s elfCount = 3) as Hec by by_run H.
  split; [done|]. by apply (elfCount_zero_or_three _ _ _ H).
Defined.

(** ** The random delays *)

Lemma int_result_Some z : INT_MIN ≤ z ≤ INT_MAX → int_result z = Some z.
Proof. intros H. unfold int_result. by rewrite decide_True. Qed.

Lemma int_result_inv z v : int_result z = Some v → v = z ∧ INT_MIN ≤ z ≤ INT_MAX.
Proof. unfold int_result. case_decide; [|done]. by intros [= <-]. Qed.

Lemma randomSleepMs_mod minMs maxMs r :
  INT_MIN ≤ minMs → minMs ≤ maxMs → maxMs ≤ INT_MAX →
  maxMs - minMs < INT_MAX → 0 ≤ r →
  randomSleepMs minMs maxMs r
  = Some (minMs + r mod (maxMs - minMs + 1)).
Proof.
  intros Hlo Hle Hhi Hw Hr. unfold randomSleepMs.
  unfold INT_MIN, INT_MAX in *.
  rewrite (int_result_Some (maxMs - minMs)) by (unfold INT_MIN, INT_MAX; lia).
  simpl. rewrite int_result_Some by (unfold INT_MIN, INT_MAX; lia). simpl.
  unfold int_rem. case_decide as Hz; [lia|]. simpl.
  rewrite Z.rem_mod_nonneg by lia.
  pose proof (Z.mod_pos_bound r (maxMs - minMs + 1) ltac:(lia)).
  apply int_result_Some. unfold INT_MIN, INT_MAX. lia.
Qed.

(** X1: [randomSleepMs] stays in the range it is given.  For [int]
    arguments with [minMs <= maxMs] whose width [maxMs - minMs + 1] is itself
    an [int], and for every value [r >= 0] of [rand()], the call is defined
    and returns [minMs + r mod (maxMs - minMs + 1)], a value between
    [minMs] and [maxMs]. *)
Theorem randomSleepMs_in_range minMs maxMs r :
  INT_MIN ≤ minMs → minMs ≤ maxMs → maxMs ≤ INT_MAX →
  maxMs - minMs < INT_MAX → 0 ≤ r →
  ∃ v, randomSleepMs minMs maxMs r = Some v
       ∧ v = minMs + r mod (maxMs - minMs + 1) ∧ minMs ≤ v ≤ maxMs.
Proof.
  intros Hlo Hle Hhi Hw Hr. eexists. split; [|split; [done|]].
  - by apply randomSleepMs_mod.
  - pose proof (Z.mod_pos_bound r (maxMs - minMs + 1) ltac:(lia)). lia.
Qed.

Lemma randomSleepMs_in_range_witness :
  ∃ v, randomSleepMs 2000 5000 123456789 = Some v
       ∧ v = 2000 + 123456789 mod (5000 - 2000 + 1) ∧ 2000 ≤ v ≤ 5000.
Proof.
  apply (randomSleepMs_in_range 2000 5000 123456789);
    unfold INT_MIN, INT_MAX; lia.
Defined.

(** X2: [randomSleepMs] with an empty range.  The bounds are neither
    checked nor swapped: with [maxMs = minMs - 1] the divisor of line 56 is
    zero and the call has no defined result, and for any [maxMs < minMs] a
    result, where there is one, is at least [minMs], hence above
    [maxMs]. *)
Theorem randomSleepMs_empty_range minMs maxMs r :
  maxMs < minMs → 0 ≤ r →
  randomSleepMs minMs (minMs - 1) r = None
  ∧ (∀ v, randomSleepMs minMs maxMs r = Some v → minMs ≤ v).
Proof.
  intros Hlt Hr. unfold randomSleepMs. split.
  - destruct (int_result (minMs - 1 - minMs)) as [d|] eqn:Hd; [|done].
    apply int_result_inv in Hd as [-> _]. simpl.
    destruct (int_result _) as [n|] eqn:Hn; [|done].
    apply int_result_inv in Hn as [-> _]. simpl.
    unfold int_rem. case_decide as Hz; [done|]. lia.
  - intros v H.
    destruct (int_result (maxMs - minMs)) as [d|] eqn:Hd; [|done].
    apply int_result_inv in Hd as [-> _]. simpl in H.
    destruct (int_result _) as [n|] eqn:Hn; [|done].
    apply int_result_inv in Hn as [-> _]. simpl in H.
    unfold int_rem in H. case_decide as Hz; [done|]. simpl in H.
    apply int_result_inv in H as [-> _].
    pose proof (Z.rem_nonneg r (maxMs - minMs + 1) ltac:(lia) Hr). lia.
Qed.

Lemma randomSleepMs_empty_range_witness :
  randomSleepMs 10 (10 - 1) 7 = None
  ∧ randomSleepMs 10 5 7 = Some 13
  ∧ (∀ v, randomSleepMs 10 5 7 = Some v → 10 ≤ v).
Proof.
  split; [|split].
  - apply (randomSleepMs_empty_range 10 5 7); lia.
  - reflexivity.
  - apply (randomSleepMs_empty_range 10 5 7); lia.
Defined.

(** X3: every value of the range can come out of [randomSleepMs].  When
    the width of the range is at most 32767, the least [RAND_MAX] the C
    standard allows, each [v] between [minMs] and [maxMs] is the result for
    some value [r] of [rand()] between 0 and 32767. *)
Theorem randomSleepMs_covers_range minMs maxMs v :
  INT_MIN ≤ minMs → minMs ≤ v → v ≤ maxMs → maxMs ≤ INT_MAX →
  maxMs - minMs ≤ RAND_MAX_LEAST →
  ∃ r, 0 ≤ r ≤ RAND_MAX_LEAST ∧ randomSleepMs minMs maxMs r = Some v.
Proof.
  intros Hlo Hv1 Hv2 Hhi Hw. exists (v - minMs).
  unfold RAND_MAX_LEAST, INT_MAX in *. split; [lia|].
  rewrite randomSleepMs_mod by (unfold INT_MAX; lia).
  rewrite Z.mod_small by lia. f_equal. lia.
Qed.

Lemma randomSleepMs_covers_range_witness :
  ∃ r, 0 ≤ r ≤ RAND_MAX_LEAST ∧ randomSleepMs 1000 4000 r = Some 4000.
Proof.
  apply (randomSleepMs_covers_range 1000 4000 4000);
    unfold INT_MIN, INT_MAX, RAND_MAX_LEAST; lia.
Defined.

(** ** The delays of the threads *)

Lemma run_entries (P : tid → event → Prop) :
  (∀ t s e s', step t s = Some (e, s') → P t e) →
  ∀ sched s tr s', run sched s = Some (tr, s') →
  ∀ t e, In (t, e) tr → P t e.
Proof.
  intros HP sched. induction sched as [|t0 sched IH]; intros s tr s' Hr t e Hin.
  - injection Hr as <- <-. destruct Hin.
  - apply run_cons in Hr as (e0 & s1 & tr' & Hst & Hr & ->).
    destruct Hin as [[= <- <-]|Hin]; eauto.
Qed.

Lemma step_sleep t s e s' r :
  step t s = Some (e, s') → is_sleep e = true → 0 ≤ r ≤ INT_MAX →
  ∃ us, sleep_us e r = Some us ∧ sleep_ok t us.
Proof.
  intros Hst Hsl Hr. unfold INT_MAX in Hr.
  step_cases t s Hst; simplify_eq/=; eauto.
  - rewrite randomSleepMs_mod by (unfold INT_MIN, INT_MAX; lia). simpl.
    pose proof (Z.mod_pos_bound r (5000 - 2000 + 1) ltac:(lia)).
    rewrite int_result_Some by (unfold INT_MIN, INT_MAX; lia).
    eexists. split; [done|]. right. split; [lia|]. apply Z.divide_factor_r.
  - rewrite randomSleepMs_mod by (unfold INT_MIN, INT_MAX; lia). simpl.
    pose proof (Z.mod_pos_bound r (4000 - 1000 + 1) ltac:(lia)).
    rewrite int_result_Some by (unfold INT_MIN, INT_MAX; lia).
    eexists. split; [done|]. right. split; [lia|]. apply Z.divide_factor_r.
Qed.

(** X4: the delays.  Every sleep in every execution has a defined
    argument, whatever [rand()] returns: Santa sleeps 500000 or 300000
    microseconds; a reindeer 100000, or a multiple of 1000 between 2000000
    and 5000000; an elf 100000, or a multiple of 1000 between 1000000 and
    4000000.  The multiplication by 1000 of lines 125 and 154 does not
    overflow. *)
Theorem sleep_lengths sched tr s t e r :
  run sched init = Some (tr, s) → In (t, e) tr → is_sleep e = true →
  0 ≤ r ≤ INT_MAX →
  ∃ us, sleep_us e r = Some us ∧ sleep_ok t us.
Proof.
  intros Hrun Hin Hsl Hr.
  apply (run_entries (λ t e, is_sleep e = true →
           ∃ us, sleep_us e r = Some us ∧ sleep_ok t us)) with sched init tr s;
    [|done..].
  intros t0 s0 e0 s0' Hst Hs. by eapply step_sleep.
Qed.

Lemma sleep_lengths_witness :
  after [Elf 4] (λ tr s,
    ∃ us, sleep_us (RandSleep 1000 4000) 32767 = Some us
          ∧ sleep_ok (Elf 4) us).
Proof.
  run_after H.
  apply (sleep_lengths _ _ _ (Elf 4) (RandSleep 1000 4000) 32767 H).
  - vm_compute in H. injection H as <- <-. by left.
  - reflexivity.
  - unfold INT_MAX. lia.
Defined.

(** ** The main thread *)

Lemma prun_cons a psched p ptr p' :
  prun (a :: psched) p = Some (ptr, p') ↔
  ∃ e p1 ptr', pstep a p = Some (e, p1) ∧ prun psched p1 = Some (ptr', p')
               ∧ ptr = e :: ptr'.
Proof.
  change (prun (a :: psched) p) with
    (pstep a p ≫= λ '(e, p1), prun psched p1 ≫= λ '(tr, p2), Some (e :: tr, p2)).
  split.
  - destruct (pstep a p) as [[e p1]|]; [|done].
    change (prun psched p1 ≫= (λ '(tr, p2), Some (e :: tr, p2))
            = Some (ptr, p') → ∃ e0 p0 ptr',
                Some (e, p1) = Some (e0, p0) ∧ prun psched p0 = Some (ptr', p')
                ∧ ptr = e0 :: ptr').
    destruct (prun psched p1) as [[ptr' p2]|] eqn:Hr; [|done].
    intros [= <- <-]. by exists e, p1, ptr'.
  - intros (e & p1 & ptr' & -> & Hr & ->). simpl. by rewrite Hr.
Qed.

Lemma prun_snoc psched a p ptr p' :
  prun (psched ++ [a]) p = Some (ptr, p') ↔
  ∃ ptr1 p1 e, prun psched p = Some (ptr1, p1) ∧ pstep a p1 = Some (e, p')
               ∧ ptr = ptr1 ++ [e].
Proof.
  revert p ptr. induction psched as [|b psched IH]; intros p ptr.
  - simpl app. rewrite prun_cons. split.
    + intros (e & p1 & ptr' & Hs & [= <- <-] & ->). by exists [], p, e.
    + intros (ptr1 & p1 & e & [= <- <-] & Hs & ->). by exists e, p', [].
  - rewrite <- app_comm_cons, prun_cons. split.
    + intros (e & p1 & ptr' & Hs & Hr & ->).
      apply IH in Hr as (ptr1 & p2 & e' & H1 & H2 & ->).
      exists (e :: ptr1), p2, e'. split; [|done].
      apply prun_cons. by exists e, p1, ptr1.
    + intros (ptr1 & p1 & e & H1 & H2 & ->).
      apply prun_cons in H1 as (e' & p2 & ptr' & Hs & Hr & ->).
      exists e', p2, (ptr' ++ [e]). split; [done|]. split; [|done].
      apply IH. by exists ptr', p1, e.
Qed.

(** The execution up to an action of the trace. *)
Lemma prun_split psched p ptr1 a ptr2 p' :
  prun psched p = Some (ptr1 ++ a :: ptr2, p') →
  ∃ psched1 b p1 p2,
    prun psched1 p = Some (ptr1, p1) ∧ pstep b p1 = Some (a, p2).
Proof.
  revert p ptr1. induction psched as [|b psched IH]; intros p ptr1 Hr.
  - injection Hr as Hr _. by destruct ptr1.
  - apply prun_cons in Hr as (e & p1 & ptr' & Hs & Hr & Heq).
    destruct ptr1 as [|a1 ptr1]; simpl in Heq; injection Heq as <- <-.
    + by exists [], b, p, p1.
    + destruct (IH _ _ Hr) as (psched1 & b' & p2 & p3 & H1 & H2).
      exists (b :: psched1), b', p2, p3. split; [|done].
      apply prun_cons. by exists a1, p1, ptr1.
Qed.

Lemma thread_steps_snoc psched a :
  thread_steps (psched ++ [a])
  = thread_steps psched ++ match a with Thread t => [t] | Main => [] end.
Proof.
  unfold thread_steps. rewrite foldr_app. simpl.
  induction psched as [|b psched IH]; simpl.
  - destruct a; done.
  - destruct b; simpl; by rewrite IH.
Qed.

Lemma thread_trace_snoc ptr a :
  thread_trace (ptr ++ [a])
  = thread_trace ptr
    ++ match a with ByThread t e => [(t, e)] | ByMain _ => [] end.
Proof.
  unfold thread_trace. rewrite foldr_app. simpl.
  induction ptr as [|b ptr IH]; simpl.
  - destruct a; done.
  - destruct b; simpl; by rewrite IH.
Qed.

Lemma same_state_refl s : same_state s s.
Proof. by repeat split. Qed.

(** A step does the same in two states with the same content. *)
Lemma step_same t s1 s2 e s1' :
  same_state s1 s2 → step t s1 = Some (e, s1') →
  ∃ s2', step t s2 = Some (e, s2') ∧ same_state s1' s2'.
Proof.
  intros (Hsem & Hmtx & Hvar & Hsan & Hr & He) Hst.
  destruct t as [|i|i]; simpl in *.
  - unfold santa_step in *. rewrite <- Hsan.
    unfold sem_wait, mutex_lock, mutex_unlock, var_incr in *.
    destruct (santa s1); rewrite <- ?Hsem, <- ?Hmtx, <- ?Hvar;
      repeat case_match; simplify_option_eq; eexists; (split; [done|]);
      repeat split; simpl; try done; intros; unfold upd; rewrite ?Hsem, ?Hmtx, ?Hvar; by case_decide.
  - unfold reindeer_step in *. rewrite <- Hr.
    unfold sem_wait, mutex_lock, mutex_unlock, var_incr in *.
    destruct (reindeer s1 !! i) as [[]|]; simpl in *;
      rewrite <- ?Hsem, <- ?Hmtx, <- ?Hvar;
      repeat case_match; simplify_option_eq; eexists; (split; [done|]);
      repeat split; simpl; try done; try congruence;
      intros; unfold upd; rewrite ?Hsem, ?Hmtx, ?Hvar; by case_decide.
  - unfold elf_step in *. rewrite <- He.
    unfold sem_wait, mutex_lock, mutex_unlock, var_incr in *.
    destruct (elves s1 !! i) as [[]|]; simpl in *;
      rewrite <- ?Hsem, <- ?Hmtx, <- ?Hvar;
      repeat case_match; simplify_option_eq; eexists; (split; [done|]);
      repeat split; simpl; try done; try congruence;
      intros; unfold upd; rewrite ?Hsem, ?Hmtx, ?Hvar; by case_decide.
Qed.

(** A thread that exists moves in the same way when the workers still to be
    created are put at the head of their loops. *)
Lemma step_complete t s e s' :
  step t s = Some (e, s') → step t (complete s) = Some (e, complete s').
Proof.
  intros Hst. destruct t as [|i|i]; simpl in *.
  - unfold santa_step in *. simpl.
    unfold sem_wait, mutex_lock, mutex_unlock, var_incr in *. simpl.
    destruct (santa s); repeat case_match; by simplify_option_eq.
  - unfold reindeer_step in *.
    destruct (reindeer s !! i) as [pc|] eqn:Hp; [|done].
    pose proof (lookup_lt_Some _ _ _ Hp) as Hlt.
    assert (∀ q s0, reindeer s0 = reindeer s →
      set_reindeer i q (complete s0) = complete (set_reindeer i q s0)) as Hset.
    { intros q s0 Heq. unfold set_reindeer, complete. simpl.
      rewrite length_insert, Heq. f_equal. by rewrite insert_app_l. }
    simpl. rewrite (lookup_app_l_Some _ _ _ _ Hp). simpl in *.
    unfold sem_wait, mutex_lock, mutex_unlock, var_incr in *. simpl.
    destruct pc; repeat case_match; simplify_option_eq;
      by rewrite <- Hset by done.
  - unfold elf_step in *.
    destruct (elves s !! i) as [pc|] eqn:Hp; [|done].
    pose proof (lookup_lt_Some _ _ _ Hp) as Hlt.
    assert (∀ q s0, elves s0 = elves s →
      set_elf i q (complete s0) = complete (set_elf i q s0)) as Hset.
    { intros q s0 Heq. unfold set_elf, complete. simpl.
      rewrite length_insert, Heq. f_equal. by rewrite insert_app_l. }
    simpl. rewrite (lookup_app_l_Some _ _ _ _ Hp). simpl in *.
    unfold sem_wait, mutex_lock, mutex_unlock, var_incr in *. simpl.
    destruct pc; repeat case_match; simplify_option_eq;
      by rewrite <- Hset by done.
Qed.

Lemma complete_add_reindeer s :
  (length (reindeer s) < 9)%nat → complete (add_reindeer s) = complete s.
Proof.
  intros Hlt. unfold complete, add_reindeer. simpl. f_equal.
  rewrite length_app, <- app_assoc. simpl. f_equal.
  replace (Z.to_nat NUM_REINDEER - length (reindeer s))%nat
    with (S (Z.to_nat NUM_REINDEER - (length (reindeer s) + 1)))%nat
    by (unfold NUM_REINDEER; lia).
  done.
Qed.

Lemma complete_add_elf s :
  (length (elves s) < 10)%nat → complete (add_elf s) = complete s.
Proof.
  intros Hlt. unfold complete, add_elf. simpl. f_equal.
  rewrite length_app, <- app_assoc. simpl. f_equal.
  replace (Z.to_nat NUM_ELVES - length (elves s))%nat
    with (S (Z.to_nat NUM_ELVES - (length (elves s) + 1)))%nat
    by (unfold NUM_ELVES; lia).
  done.
Qed.

Lemma complete_all s :
  length (reindeer s) = 9%nat → length (elves s) = 10%nat → complete s = s.
Proof.
  intros Hr He. unfold complete. rewrite Hr, He. simpl.
  rewrite !app_nil_r. by destruct s.
Qed.

Lemma same_state_sym s1 s2 : same_state s1 s2 → same_state s2 s1.
Proof. intros (? & ? & ? & ? & ? & ?). by repeat split. Qed.

Lemma step_lengths t s e s' :
  step t s = Some (e, s') →
  length (reindeer s') = length (reindeer s)
  ∧ length (elves s') = length (elves s).
Proof.
  intros H. step_cases t s H; simpl; by rewrite ?length_insert.
Qed.

Lemma step_exists t s e s' :
  step t s = Some (e, s') →
  match t with
  | Santa => True
  | Reindeer i => (i < length (reindeer s))%nat
  | Elf i => (i < length (elves s))%nat
  end.
Proof.
  destruct t as [|i|i]; simpl; [done| |].
  - unfold reindeer_step. destruct (reindeer s !! i) eqn:Hp; [|done].
    intros _. by eapply lookup_lt_Some.
  - unfold elf_step. destruct (elves s !! i) eqn:Hp; [|done].
    intros _. by eapply lookup_lt_Some.
Qed.

Lemma startup_boot sv : startup [] [] (boot sv).
Proof. unfold startup. simpl. done. Qed.

Lemma startup_main psched ptr p e p' :
  startup psched ptr p → main_step p = Some (e, p') →
  startup (psched ++ [Main]) (ptr ++ [ByMain e]) p'.
Proof.
  unfold startup, main_step, create_elves.
  rewrite thread_steps_snoc, thread_trace_snoc, !app_nil_r.
  intros H Hst.
  destruct (main p) eqn:Hpc; simpl in *; repeat case_decide;
    simplify_eq/=; unfold NUM_REINDEER, NUM_ELVES in *.
  - tauto.
  - unfold upd. simpl. tauto.
  - unfold upd. simpl. tauto.
  - unfold upd. simpl. tauto.
  - destruct H as (Hs & Ht & Hc & Hm & Hv & Hsa & Hr & He & H1 & H2 & H3).
    split; [|done]. exists init. rewrite Hs, Ht. split; [done|].
    unfold complete. simpl. rewrite Hr, He. simpl.
    repeat split; simpl; try done.
    intros []; unfold upd; simpl; done.
  - destruct H as [H (Hc & Hr & He)]. split; [done|]. rewrite Hr. simpl.
    split; [lia|]. done.
  - destruct H as [(s' & Hrun & Hsame) (Hi & Hr & He)].
    rewrite complete_add_reindeer by lia. split; [eauto|].
    rewrite length_app. simpl. split; [lia|]. split; [lia|done].
  - destruct H as [(s' & Hrun & Hsame) (Hi & Hr & He)].
    rewrite complete_add_elf by (rewrite He; simpl; lia).
    split; [eauto|]. rewrite He. simpl. split; [lia|]. split; [lia|done].
  - destruct H as [(s' & Hrun & Hsame) (Hi & Hr & He)].
    rewrite complete_add_elf by lia. split; [eauto|].
    rewrite length_app. simpl. split; [lia|]. split; [done|lia].
  - destruct H as [(s' & Hrun & Hsame) (Hi & Hr & He)].
    split; [eauto|]. split; [done|lia].
  - done.
  - done.
Qed.

Lemma startup_thread psched ptr p t e p' :
  startup psched ptr p → pstep (Thread t) p = Some (e, p') →
  startup (psched ++ [Thread t]) (ptr ++ [e]) p'.
Proof.
  unfold pstep. intros H Hst.
  case_decide as Hd; [done|]. case_decide as Hc; [done|].
  destruct (step t (shared p)) as [[e0 s1]|] eqn:Hs; [|done].
  injection Hst as <- <-.
  pose proof (step_exists _ _ _ _ Hs) as Hex.
  destruct (step_lengths _ _ _ _ Hs) as [Hlr Hle].
  unfold startup in *. simpl.
  rewrite thread_steps_snoc, thread_trace_snoc.
  destruct (initialised (main p)) eqn:Hi.
  - destruct H as [(s' & Hrun & Hsame) Hlen]. split.
    + apply step_complete in Hs.
      destruct (step_same _ _ _ _ _ (same_state_sym _ _ Hsame) Hs)
        as (s2 & Hs2 & Hsame2).
      exists s2. split; [|by apply same_state_sym].
      apply run_snoc. by exists (thread_trace ptr), s', e0.
    + rewrite Hlr, Hle.
      destruct (main p); try done.
      * destruct Hlen as (Hsc & Hr & He).
        destruct t; [tauto| |]; [rewrite Hr in Hex|rewrite He in Hex];
          simpl in Hex; lia.
      * destruct Hlen as (? & ? & He). split; [done|]. split; [done|].
        apply nil_length_inv. by rewrite Hle, He.
  - exfalso. destruct H as (_ & _ & Hsc & _ & _ & _ & Hr & He & _).
    destruct t; [tauto| |]; [rewrite Hr in Hex|rewrite He in Hex];
      simpl in Hex; lia.
Qed.

Lemma startup_run sv psched ptr p :
  prun psched (boot sv) = Some (ptr, p) → startup psched ptr p.
Proof.
  revert ptr p. induction psched as [|a psched IH] using rev_ind;
    intros ptr p Hrun.
  - injection Hrun as <- <-. apply startup_boot.
  - apply prun_snoc in Hrun as (ptr1 & p1 & e & H1 & Hs & ->).
    specialize (IH _ _ H1). destruct a as [|t].
    + simpl in Hs. destruct (main_step p1) as [[e0 p2]|] eqn:Hm; [|done].
      injection Hs as <- <-. by eapply startup_main.
    + by eapply startup_thread.
Qed.

(** X5: [main] starts the threads in a sound order.  Whatever the content
    of the semaphores before [sem_init], and however the steps of [main] and
    of the threads it has created so far interleave: no thread moves before
    the fourth [sem_init]; from then on what the threads have done is an
    execution of the thread system from [init], in which the workers not
    yet created have not moved; and once [main] has left the two loops
    there are nine reindeer and ten elves, and the state of the process is
    the state of that execution. *)
Theorem main_startup sv psched ptr p :
  prun psched (boot sv) = Some (ptr, p) →
  (initialised (main p) = false → thread_trace ptr = [])
  ∧ (initialised (main p) = true →
     ∃ s', run (thread_steps psched) init = Some (thread_trace ptr, s')
           ∧ same_state s' (complete (shared p)))
  ∧ (all_created (main p) = true →
     length (reindeer (shared p)) = Z.to_nat NUM_REINDEER
     ∧ length (elves (shared p)) = Z.to_nat NUM_ELVES
     ∧ complete (shared p) = shared p).
Proof.
  intros Hrun. apply startup_run in Hrun. unfold startup in Hrun.
  split; [|split].
  - intros Hi. rewrite Hi in Hrun. tauto.
  - intros Hi. rewrite Hi in Hrun. tauto.
  - intros Ha. destruct (main p); try done; simpl in Hrun;
      destruct Hrun as [_ [Hr He]];
      (split; [done|split; [done|by apply complete_all]]).
Qed.

Lemma main_startup_witness :
  after_boot stale
    (main_creates_reindeer 2 ++ [Thread (Reindeer 1); Thread (Reindeer 1)]
     ++ [Main; Thread (Reindeer 2); Thread (Reindeer 0)])
    (λ ptr p,
       main p = M_create_reindeer 3
       ∧ reindeer (shared p) = [R_lock; R_inc; R_lock]
       ∧ ∃ s', run [Reindeer 1; Reindeer 1; Reindeer 2; Reindeer 0] init
               = Some (thread_trace ptr, s')
               ∧ same_state s' (complete (shared p))).
Proof.
  unfold after_boot.
  match goal with |- match prun ?ps ?b with _ => _ end =>
    destruct (prun ps b) as [[ptr p]|] eqn:H; [|by vm_compute in H] end.
  destruct (main_startup _ _ _ _ H) as (_ & Hsim & _).
  assert (main p = M_create_reindeer 3
          ∧ reindeer (shared p) = [R_lock; R_inc; R_lock]) as [Hpc Hr].
  { vm_compute in H. by injection H as <- <-. }
  split; [done|]. split; [done|]. apply Hsim. by rewrite Hpc.
Defined.

(** X6: the statistics that [main] prints.  The value [v] that line 227
    (line 228) reads from [deliveries] ([elfConsultations]) is the number of
    increments Santa has made so far; the number of service steps
    ([usleep(500000)], [usleep(300000)]) performed so far is [v] or
    [v + 1]: the read takes no lock, and can fall between a service step
    and its increment. *)
Theorem report_accuracy sv psched ptr p ptr1 x v ptr2 :
  prun psched (boot sv) = Some (ptr, p) →
  ptr = ptr1 ++ ByMain (Report x v) :: ptr2 →
  (x = deliveries ∨ x = elfConsultations)
  ∧ v = count (ev (Incr x)) (thread_trace ptr1)
  ∧ v ≤ count (ev (service_of x)) (thread_trace ptr1) ≤ v + 1.
Proof.
  intros Hrun ->.
  destruct (prun_split _ _ _ _ _ _ Hrun) as (psched1 & b & p1 & p2 & H1 & Hs).
  pose proof (startup_run _ _ _ _ H1) as Hst. unfold startup in Hst.
  destruct b as [|t]; simpl in Hs.
  2:{ repeat case_decide; try done.
      destruct (step t (shared p1)) as [[]|]; done. }
  destruct (main_step p1) as [[e p3]|] eqn:Hm; [|done].
  injection Hs as -> ->. unfold main_step, create_elves in Hm.
  destruct (main p1) eqn:Hpc; repeat case_decide; simplify_eq/=.
  - destruct Hst as [(s' & Hr & Hsame) _].
    destruct Hsame as (_ & _ & Hv & _). specialize (Hv deliveries).
    simpl in Hv. rewrite <- Hv.
    destruct (history_run _ _ _ Hr) as [_ Hc _].
    pose proof (c_deliveries _ _ Hc). pose proof (c_service_r _ _ Hc).
    split; [by left|]. split; [done|]. destruct (santa s'); lia.
  - destruct Hst as [(s' & Hr & Hsame) _].
    destruct Hsame as (_ & _ & Hv & _). specialize (Hv elfConsultations).
    simpl in Hv. rewrite <- Hv.
    destruct (history_run _ _ _ Hr) as [_ Hc _].
    pose proof (c_consultations _ _ Hc). pose proof (c_service_e _ _ Hc).
    split; [by right|]. split; [done|]. destruct (santa s'); lia.
Qed.

Lemma report_accuracy_witness :
  after_boot stale
    (main_creates_all ++ (Thread <$> nine_reindeer ++ replicate 16 Santa)
     ++ [Main])
    (λ ptr p, ∃ ptr1,
       ptr = ptr1 ++ [ByMain (Report deliveries 0)]
       ∧ count (ev (Usleep 500000)) (thread_trace ptr1) = 1
       ∧ 0 = count (ev (Incr deliveries)) (thread_trace ptr1)).
Proof.
  unfold after_boot.
  match goal with |- match prun ?ps ?b with _ => _ end =>
    destruct (prun ps b) as [[ptr p]|] eqn:H; [|by vm_compute in H] end.
  exists (removelast ptr).
  assert (ptr = removelast ptr ++ [ByMain (Report deliveries 0)]
          ∧ count (ev (Usleep 500000)) (thread_trace (removelast ptr)) = 1)
    as [Heq Hn].
  { vm_compute in H. by injection H as <- <-. }
  split; [assumption|]. split; [assumption|].
  apply (report_accuracy _ _ _ _ _ _ _ [] H Heq).
Defined.

(** ** Wake-ups and tokens *)

Lemma total_arrived_e_insert l i p q :
  l !! i = Some p →
  total_arrived_e (<[i:=q]> l) = total_arrived_e l - arrived_e p + arrived_e q.
Proof.
  revert i. induction l as [|a l IH]; intros [|i] H; simplify_eq/=; [lia|].
  rewrite (IH i) by done. lia.
Qed.

Lemma total_arrived_e_bound l : 0 ≤ total_arrived_e l ≤ Z.of_nat (length l).
Proof. induction l as [|[] l IH]; simpl; lia. Qed.

Lemma wakeup_santa_step s e s' :
  inv s → wakeup_due s → santa_step s = Some (e, s') → wakeup_due s'.
Proof.
  intros [Hlen HI HsM Htok Hsan Hrc0 Helf Hrd Hec] Hw H. unfold santa_step in H.
  pose proof (HI reindeerMutex Santa) as HrS.
  pose proof (HI elfMutex Santa) as HeS.
  unfold wakeup_due, pending_r, owner_elf_pc, owner_reindeer_pc in *.
  santa_cases s HI Hpc HrS HeS.
  all: after_santa_step Hpc; try done; repeat case_decide; try lia; try (intros; by right).
  all: repeat case_match; simplify_eq/=; try lia; try tauto.
Qed.

Lemma wakeup_reindeer_step i s e s' :
  inv s → wakeup_due s → reindeer_step i s = Some (e, s') → wakeup_due s'.
Proof.
  intros [Hlen HI HsM Htok Hsan Hrc0 Helf Hrd Hec] Hw H.
  unfold reindeer_step in H.
  destruct (reindeer s !! i) as [p|] eqn:Hp; [|done]. simpl in H.
  pose proof (lookup_lt_Some _ _ _ Hp) as Hlt.
  pose proof (HI reindeerMutex (Reindeer i)) as Hown.
  unfold wakeup_due, pending_r, owner_elf_pc, owner_reindeer_pc in *.
  worker_cases s HI Hp reindeerMutex Hown; other_owner i Hown.
  all: after_worker_step Hp; try done; repeat case_decide; try lia;
    try (intros; left; lia).
  all: repeat case_match; simplify_eq/=; try lia; try tauto.
Qed.

Lemma wakeup_elf_step i s e s' :
  inv s → wakeup_due s → elf_step i s = Some (e, s') → wakeup_due s'.
Proof.
  intros [Hlen HI HsM Htok Hsan Hrc0 Helf Hrd Hec] Hw H.
  unfold elf_step in H.
  destruct (elves s !! i) as [p|] eqn:Hp; [|done]. simpl in H.
  pose proof (lookup_lt_Some _ _ _ Hp) as Hlt.
  pose proof (HI elfMutex (Elf i)) as Hown.
  unfold wakeup_due, pending_r, owner_elf_pc, owner_reindeer_pc in *.
  worker_cases s HI Hp elfMutex Hown; other_owner i Hown.
  all: after_worker_step Hp; try done; repeat case_decide; try lia;
    try (intros; left; lia).
  all: repeat case_match; simplify_eq/=; try lia; try tauto.
Qed.

(** The clauses of [tokens] after a step. *)
Ltac token_cases Htr1 Htr2 :=
  rewrite ?foldl_app; rewrite ?count_snoc;
  try match goal with |- context [foldl track_elfCount (0, 0) ?tr] =>
    let acc := fresh "acc" in
    set (acc := foldl track_elfCount (0, 0) tr) in *; clearbody acc
  end;
  simpl; unfold track_elfCount; simpl; rewrite ?Htr1, ?Htr2;
  unfold ELF_GROUP_SIZE in *; count_cases.

Ltac token_goal := unfold announcing, overwritten_trios, idle_passes.

(** At the test of line 92 a complete reindeer cohort, if there is one, has
    its wake-up in [santaSem]. *)
Lemma wakeup_at_elf_test s :
  wakeup_due s → santa s = S_test_e →
  pending_r s ≤ Z.of_nat (sems s santaSem).
Proof.
  intros Hw Hpc. unfold wakeup_due in Hw. rewrite Hpc in Hw.
  assert (0 ≤ pending_r s ≤ 1) as Hp.
  { unfold pending_r. case_decide; [|lia].
    destruct (owner_reindeer_pc s) as [[]|]; lia. }
  destruct (decide (pending_r s = 1)) as [H1|]; [|lia].
  destruct (Hw H1); [lia|done].
Qed.

Lemma tokens_santa_step tr s e s' :
  inv s → counts tr s → wakeup_due s → tokens tr s →
  santa_step s = Some (e, s') → tokens (tr ++ [(Santa, e)]) s'.
Proof.
  intros Hinv Hc Hw. pose proof (c_notify_r _ _ Hc) as Hnr.
  pose proof (wakeup_at_elf_test _ Hw) as Hwk. clear Hc Hw. revert Hinv.
  intros [Hlen HI HsM Htok Hsan Hrc0 Helf Hrd Hec]
    [Hle HtS HtR HtE Harr Hflag Htr1 Htr2 Hpass Hidle Hsr Hse] H.
  unfold santa_step in H.
  pose proof (HI reindeerMutex Santa) as HrS.
  pose proof (HI elfMutex Santa) as HeS.
  unfold announcing, overwritten_trios, idle_passes, pending_r,
    owner_elf_pc, owner_reindeer_pc in *.
  santa_cases s HI Hpc HrS HeS.
  all: try specialize (Hwk eq_refl).
  all: split; token_goal; after_santa_step Hpc; token_cases Htr1 Htr2.
Qed.

Lemma tokens_reindeer_step i tr s e s' :
  inv s → tokens tr s → reindeer_step i s = Some (e, s') →
  tokens (tr ++ [(Reindeer i, e)]) s'.
Proof.
  intros [Hlen HI HsM Htok Hsan Hrc0 Helf Hrd Hec]
    [Hle HtS HtR HtE Harr Hflag Htr1 Htr2 Hpass Hidle Hsr Hse] H.
  unfold reindeer_step in H.
  destruct (reindeer s !! i) as [p|] eqn:Hp; [|done]. simpl in H.
  pose proof (lookup_lt_Some _ _ _ Hp) as Hlt.
  pose proof (HI reindeerMutex (Reindeer i)) as Hown.
  unfold announcing, overwritten_trios, idle_passes, owner_elf_pc,
    owner_reindeer_pc in *.
  worker_cases s HI Hp reindeerMutex Hown; other_owner i Hown.
  all: split; token_goal; after_worker_step Hp; token_cases Htr1 Htr2.
Qed.

Lemma tokens_elf_step i tr s e s' :
  inv s → tokens tr s → elf_step i s = Some (e, s') →
  tokens (tr ++ [(Elf i, e)]) s'.
Proof.
  intros [Hlen HI HsM Htok Hsan Hrc0 Helf Hrd Hec]
    [Hle HtS HtR HtE Harr Hflag Htr1 Htr2 Hpass Hidle Hsr Hse] H.
  unfold elf_step in H.
  destruct (elves s !! i) as [p|] eqn:Hp; [|done]. simpl in H.
  pose proof (lookup_lt_Some _ _ _ Hp) as Hlt.
  pose proof (HI elfMutex (Elf i)) as Hown.
  unfold announcing, overwritten_trios, idle_passes, owner_elf_pc,
    owner_reindeer_pc in *.
  worker_cases s HI Hp elfMutex Hown; other_owner i Hown.
  all: split; token_goal; simpl; rewrite ?length_insert;
    try rewrite (total_arrived_e_insert _ _ _ _ Hp);
    after_worker_step Hp; token_cases Htr1 Htr2.
Qed.

Lemma ledger_init : ledger [] init.
Proof.
  split; [apply history_init| |].
  - split; unfold announcing, overwritten_trios, idle_passes; simpl; done.
  - unfold wakeup_due, pending_r. simpl. done.
Qed.

Lemma ledger_step tr s t e s' :
  ledger tr s → step t s = Some (e, s') → ledger (tr ++ [(t, e)]) s'.
Proof.
  intros [Hh Ht Hw] Hst. pose proof (h_inv _ _ Hh) as Hinv. split.
  - eauto using history_step.
  - destruct t; simpl in Hst;
      eauto using tokens_santa_step, tokens_reindeer_step, tokens_elf_step,
        h_counts.
  - destruct t; simpl in Hst;
      eauto using wakeup_santa_step, wakeup_reindeer_step, wakeup_elf_step.
Qed.

Lemma ledger_run sched tr s : run sched init = Some (tr, s) → ledger tr s.
Proof.
  revert sched tr s. apply run_init_ind; eauto using ledger_init, ledger_step.
Qed.

(** The elves that have arrived are those that hold a token still to be
    taken, those of the flagged trio, those of the forming trio, and three
    for each trio that was overwritten. *)
Lemma elves_accounted tr s :
  ledger tr s →
  total_arrived_e (elves s)
  = Z.of_nat (sems s elfSem) + flagged s + forming s + 3 * overwritten_trios tr
  ∧ 0 ≤ flagged s ≤ 3 ∧ 0 ≤ forming s ≤ 3.
Proof.
  intros [[Hinv Hc _] Ht _].
  pose proof (c_arrive_e _ _ Hc) as H1. pose proof (c_release_e _ _ Hc) as H2.
  pose proof (t_arrived_e _ _ Ht) as H3. pose proof (t_elfSem _ _ Ht) as H4.
  pose proof (t_flag _ _ Ht) as H5. pose proof (t_overwritten _ _ Ht) as H6.
  pose proof (inv_elf _ Hinv) as He. pose proof (inv_ec _ Hinv) as Hec.
  pose proof (inv_santa _ Hinv) as Hs.
  unfold flagged, forming, announcing, pending_e in *.
  destruct (santa s); simpl in *; unfold ELF_GROUP_SIZE in *;
    destruct (owner_elf_pc s) as [[]|]; simpl in *;
    case_decide; lia.
Qed.

Lemma overwritten_mono_from acc tr :
  acc.2 ≤ (foldl track_elfCount acc tr).2.
Proof.
  revert acc. induction tr as [|[t e] tr IH]; intros acc; simpl; [lia|].
  etrans; [|apply IH]. unfold track_elfCount. simpl.
  destruct e as [| | | | |x v| | |]; try lia.
  destruct x; simpl; try lia. case_decide; lia.
Qed.


Lemma overwritten_nonneg tr : 0 ≤ overwritten_trios tr.
Proof. apply (overwritten_mono_from (0, 0) tr). Qed.

Lemma overwritten_snoc tr t e :
  overwritten_trios (tr ++ [(t, e)]) = overwritten_trios tr
  ∨ (e = Assign elfCount 3
     ∧ overwritten_trios (tr ++ [(t, e)]) = overwritten_trios tr + 1).
Proof.
  unfold overwritten_trios. rewrite foldl_app. simpl. unfold track_elfCount.
  simpl. destruct e as [| | | | |x v| | |]; auto.
  destruct x; simpl; auto. unfold ELF_GROUP_SIZE.
  case_decide as H; auto. destruct H as [_ ->]. auto.
Qed.

(** The elf that has just executed line 161 owns [elfMutex]: the trio it has
    flagged is whole, and the arrived elves include it beside the trios
    overwritten so far. *)
Lemma overwritten_at_reset tr s :
  ledger tr s → owner_elf_pc s = Some E_reset →
  3 * overwritten_trios tr + 3 ≤ 10.
Proof.
  intros Hl Ho. destruct (elves_accounted _ _ Hl) as (Heq & Hf & Hg).
  destruct Hl as [[Hinv Hc _] Ht _].
  pose proof (total_arrived_e_bound (elves s)) as Hb.
  rewrite (t_elves _ _ Ht) in Hb.
  pose proof (inv_elf _ Hinv) as He. rewrite Ho in He. simpl in He.
  assert (posted_e (santa s) = 0) as Hp.
  { destruct (santa s) eqn:Hpc; try done.
    assert (mtxs s elfMutex = Some Santa) as Hm.
    { apply (inv_mutex _ Hinv). simpl. by rewrite Hpc. }
    unfold owner_elf_pc in Ho. by rewrite Hm in Ho. }
  unfold flagged, forming in *. rewrite Ho in *. lia.
Qed.

Lemma step_set_count t s e s' :
  inv s → step t s = Some (e, s') → e = Assign elfCount 3 →
  owner_elf_pc s' = Some E_reset.
Proof.
  intros Hinv Hst ->.
  pose proof (step_writer _ _ _ _ Hst) as Hw. simpl in Hw.
  destruct Hw as [(_ & [=] & _)|(_ & i & -> & Hp)].
  pose proof (lookup_lt_Some _ _ _ Hp) as Hlt.
  assert (elves s' !! i = Some E_reset) as Hp'.
  { simpl in Hst. unfold elf_step in Hst. rewrite Hp in Hst. simpl in Hst.
    injection Hst as <-. simpl. by rewrite list_lookup_insert_eq. }
  by apply (owner_elf_pc_at s' i E_reset (inv_step _ _ _ _ Hinv Hst) Hp').
Qed.

Lemma overwritten_le sched tr s :
  run sched init = Some (tr, s) → 0 ≤ overwritten_trios tr ≤ 2.
Proof.
  intros Hrun. split; [apply overwritten_nonneg|].
  revert sched tr s Hrun. apply run_init_ind; [done|].
  intros sched tr s t e s' Hrun IH Hst.
  destruct (overwritten_snoc tr t e) as [->|[He Heq]]; [done|].
  pose proof (ledger_run _ _ _ Hrun) as Hl.
  pose proof (ledger_step _ _ _ _ _ Hl Hst) as Hl'.
  pose proof (step_set_count _ _ _ _ (h_inv _ _ (l_history _ _ Hl)) Hst He)
    as Ho.
  pose proof (overwritten_at_reset _ _ Hl' Ho). lia.
Qed.

(** The wake-ups in [santaSem], and the one Santa has taken and not yet
    acted on, are those of the complete cohort, of the flagged trio, and of
    the overwritten trios that no idle pass has used up yet. *)
Lemma santaSem_accounted tr s :
  ledger tr s →
  Z.of_nat (sems s santaSem) + deciding (santa s)
  = pending_r s + pending_trio s + (overwritten_trios tr - idle_passes tr)
  ∧ 0 ≤ idle_passes tr ≤ overwritten_trios tr.
Proof.
  intros [[Hinv Hc _] Ht _].
  pose proof (t_santaSem _ _ Ht) as H1. pose proof (c_notify_r _ _ Hc) as H2.
  pose proof (t_flag _ _ Ht) as H3. pose proof (t_overwritten _ _ Ht) as H4.
  pose proof (t_passes _ _ Ht) as H5. pose proof (t_idle _ _ Ht) as H6.
  pose proof (count_nonneg idle_test tr) as H7.
  unfold pending_trio, idle_passes, ELF_GROUP_SIZE in *. lia.
Qed.

(** ** Bounds of the semaphores *)

Lemma pending_r_le s : 0 ≤ pending_r s ≤ 1.
Proof.
  unfold pending_r. case_decide; [|lia].
  destruct (owner_reindeer_pc s) as [[]|]; lia.
Qed.

Lemma santaSem_le sched tr s :
  run sched init = Some (tr, s) → (sems s santaSem ≤ 4)%nat.
Proof.
  intros Hrun. pose proof (overwritten_le _ _ _ Hrun) as Ho.
  destruct (ledger_run _ _ _ Hrun) as [[Hinv Hc _] Ht _].
  pose proof (t_santaSem _ _ Ht) as H1. pose proof (c_notify_r _ _ Hc) as H2.
  pose proof (t_flag _ _ Ht) as H3. pose proof (t_overwritten _ _ Ht) as H4.
  pose proof (t_passes _ _ Ht) as H5. pose proof (pending_r_le s) as H6.
  pose proof (count_nonneg idle_test tr) as H9. unfold idle_passes in H5.
  assert (0 ≤ announcing s) as H7.
  { unfold announcing. destruct (owner_elf_pc s) as [[]|]; lia. }
  assert (0 ≤ deciding (santa s)) as H8 by (destruct (santa s); simpl; lia).
  case_decide; lia.
Qed.

Lemma reindeerSem_le s : inv s → (sems s reindeerSem ≤ 9)%nat.
Proof.
  intros Hinv. pose proof (inv_tokens _ Hinv) as Htok.
  pose proof (inv_santa _ Hinv) as Hs. pose proof (inv_rc _ Hinv) as Hrc.
  pose proof (total_arrived_bound (reindeer s)) as Hb.
  rewrite (inv_len _ Hinv) in Hb.
  destruct (santa s); simpl in *; unfold NUM_REINDEER in *; lia.
Qed.

Lemma elfSem_le tr s : ledger tr s → (sems s elfSem ≤ 10)%nat.
Proof.
  intros Hl. destruct (elves_accounted _ _ Hl) as (Heq & Hf & Hg).
  pose proof (total_arrived_e_bound (elves s)) as Hb.
  rewrite (t_elves _ _ (l_tokens _ _ Hl)) in Hb.
  pose proof (overwritten_nonneg tr). lia.
Qed.

(** ** Absence of deadlock *)

(** The owner of a mutex is never blocked. *)
Lemma owner_can_step s m t :
  inv s → mtxs s m = Some t → t ≠ Santa → ∃ e s', step t s = Some (e, s').
Proof.
  intros Hinv Hm Ht. pose proof (proj1 (inv_mutex _ Hinv m t) Hm) as Hcs.
  pose proof (reindeerCount_le _ Hinv) as Hrc.
  pose proof (waitingElves_range _ Hinv) as Hwe.
  unfold NUM_REINDEER, ELF_GROUP_SIZE in *.
  destruct t as [|i|i], m; try done; simpl in Hcs |- *.
  - unfold reindeer_step. destruct (reindeer s !! i) as [[]|]; try done; simpl;
      eauto.
    + unfold var_incr. rewrite decide_True by (unfold INT_MAX; lia).
      simpl. eauto.
    + unfold mutex_unlock. rewrite decide_True by done. simpl. eauto.
  - unfold elf_step. destruct (elves s !! i) as [[]|]; try done; simpl; eauto.
    + unfold var_incr. rewrite decide_True by (unfold INT_MAX; lia).
      simpl. eauto.
    + unfold mutex_unlock. rewrite decide_True by done. simpl. eauto.
Qed.

(** A thread that is about to lock a mutex can do so, or the owner can
    move. *)
Lemma lock_or_owner_steps s m t :
  inv s → in_cs m Santa s = false →
  ∃ t' e s', (mutex_lock m t s = Some s' ∧ t' = t ∧ e = Lock m)
             ∨ (t' ≠ Santa ∧ step t' s = Some (e, s')).
Proof.
  intros Hinv HS. unfold mutex_lock.
  destruct (mtxs s m) as [t0|] eqn:Hm.
  - assert (t0 ≠ Santa) as Ht0.
    { intros ->. apply (inv_mutex _ Hinv) in Hm. congruence. }
    destruct (owner_can_step _ _ _ Hinv Hm Ht0) as (e & s' & Hst).
    exists t0, e, s'. auto.
  - exists t, (Lock m), (set_mtxs (upd (mtxs s) m (Some t)) s). auto.
Qed.

Lemma all_waiting_dec (l : list reindeer_pc) :
  (∀ i p, l !! i = Some p → p = R_wait)
  ∨ (∃ i p, l !! i = Some p ∧ p ≠ R_wait).
Proof.
  induction l as [|a l [IH|(i & p & Hp & Hne)]].
  - left. intros i p. by rewrite lookup_nil.
  - destruct (decide (a = R_wait)) as [->|Ha].
    + left. intros [|i] p; simpl; [congruence|apply IH].
    + right. by exists 0%nat, a.
  - right. by exists (S i), p.
Qed.

Lemma total_arrived_all_waiting l :
  (∀ i p, l !! i = Some p → p = R_wait) → total_arrived l = Z.of_nat (length l).
Proof.
  induction l as [|a l IH]; intros H; [done|].
  rewrite (H 0%nat a eq_refl). simpl length.
  change (total_arrived (R_wait :: l)) with (1 + total_arrived l).
  rewrite IH; [lia|]. intros i p Hp. by apply (H (S i)).
Qed.

(** Some reindeer can move, or the owner of [reindeerMutex] can, unless all
    nine wait for a token that is not there. *)
Lemma reindeer_can_step s :
  inv s → in_cs reindeerMutex Santa s = false →
  (∃ t e s', step t s = Some (e, s'))
  ∨ ((∀ i p, reindeer s !! i = Some p → p = R_wait)
     ∧ sems s reindeerSem = 0%nat).
Proof.
  intros Hinv HS.
  destruct (all_waiting_dec (reindeer s)) as [Hall|(i & p & Hp & Hne)].
  - destruct (sems s reindeerSem) as [|n] eqn:Hsem; [by right|]. left.
    assert (is_Some (reindeer s !! 0%nat)) as [p Hp].
    { apply lookup_lt_is_Some. rewrite (inv_len _ Hinv). lia. }
    rewrite (Hall _ _ Hp) in Hp. exists (Reindeer 0). simpl.
    unfold reindeer_step, sem_wait. rewrite Hp, Hsem. simpl. eauto.
  - left. destruct (decide (reindeer_holds p = true)) as [Hh|Hh].
    + destruct (owner_reindeer_pc_at _ _ _ Hinv Hp Hh) as [Hm _].
      exists (Reindeer i). by eapply owner_can_step.
    + destruct p; try done.
      * exists (Reindeer i). simpl. unfold reindeer_step. rewrite Hp.
        simpl. eauto.
      * destruct (lock_or_owner_steps s reindeerMutex (Reindeer i) Hinv HS)
          as (t' & e & s' & [(Hl & -> & ->)|[_ Hst]]); [|eauto].
        exists (Reindeer i). simpl. unfold reindeer_step. rewrite Hp.
        simpl. rewrite Hl. simpl. eauto.
      * exists (Reindeer i). simpl. unfold reindeer_step. rewrite Hp.
        simpl. eauto.
Qed.

Lemma some_thread_can_step s :
  inv s → wakeup_due s →
  vars s deliveries < INT_MAX → vars s elfConsultations < INT_MAX →
  ∃ t e s', step t s = Some (e, s').
Proof.
  intros Hinv Hw Hd Hc.
  pose proof (inv_mutex _ Hinv reindeerMutex Santa) as HrS.
  pose proof (inv_mutex _ Hinv elfMutex Santa) as HeS.
  pose proof (inv_santaMutex _ Hinv) as HsM.
  destruct (santa s) eqn:Hpc; simpl in HrS, HeS, HsM; rewrite Hpc in HrS, HeS.
  all: try (exists Santa; simpl; unfold santa_step; rewrite Hpc; simpl;
            unfold sem_wait, mutex_unlock, var_incr;
            rewrite ?HsM, ?(proj2 HrS eq_refl), ?(proj2 HeS eq_refl); simpl;
            repeat case_decide; simpl; by eauto).
  - (* line 64 *)
    destruct (sems s santaSem) as [|n] eqn:Hsem.
    2:{ exists Santa. simpl. unfold santa_step, sem_wait.
        rewrite Hpc, Hsem. simpl. eauto. }
    destruct (reindeer_can_step s Hinv) as [?|[Hall Hrs]]; [by simpl; rewrite Hpc|done|].
    exfalso. pose proof (inv_tokens _ Hinv) as Htok.
    rewrite (total_arrived_all_waiting _ Hall), (inv_len _ Hinv), Hpc, Hrs
      in Htok. simpl in Htok.
    assert (pending_r s = 1) as Hpend.
    { unfold pending_r. rewrite decide_True by lia.
      unfold owner_reindeer_pc.
      destruct (mtxs s reindeerMutex) as [[|j|j]|]; try done.
      destruct (reindeer s !! j) as [p|] eqn:Hp; [|done].
      by rewrite (Hall _ _ Hp). }
    destruct (Hw Hpend) as [?|Ho]; [lia|]. by rewrite Hpc in Ho.
  - (* line 69 *)
    destruct (lock_or_owner_steps s reindeerMutex Santa Hinv)
      as (t' & e & s' & [(Hl & -> & ->)|[_ Hst]]);
      [by simpl; rewrite Hpc| |eauto].
    exists Santa. simpl. unfold santa_step. rewrite Hpc, Hl. simpl. eauto.
  - (* line 91 *)
    destruct (lock_or_owner_steps s elfMutex Santa Hinv)
      as (t' & e & s' & [(Hl & -> & ->)|[_ Hst]]);
      [by simpl; rewrite Hpc| |eauto].
    exists Santa. simpl. unfold santa_step. rewrite Hpc, Hl. simpl. eauto.
Qed.

(** ** Mutual exclusion *)

(** X7: mutual exclusion.  In every reachable state at most one thread is
    between the lock and the unlock of a mutex, that thread is the owner the
    mutex records, and no thread is inside the critical sections of both
    mutexes at once. *)
Theorem critical_sections_exclusive sched tr s :
  run sched init = Some (tr, s) →
  (∀ m t1 t2, in_cs m t1 s = true → in_cs m t2 s = true → t1 = t2)
  ∧ (∀ m t, in_cs m t s = true ↔ mtxs s m = Some t)
  ∧ (∀ t, in_cs reindeerMutex t s = true → in_cs elfMutex t s = false).
Proof.
  intros Hrun. pose proof (h_inv _ _ (history_run _ _ _ Hrun)) as Hinv.
  pose proof (inv_mutex _ Hinv) as HI. split; [|split].
  - intros m t1 t2 H1 H2. apply HI in H1, H2. congruence.
  - intros m t. by rewrite HI.
  - intros [|i|i]; simpl; [|done..]. by destruct (santa s).
Qed.

Lemma critical_sections_exclusive_witness :
  after (first_reindeer_at_increment ++ [Reindeer 1; Reindeer 2]) (λ tr s,
    in_cs reindeerMutex (Reindeer 0) s = true
    ∧ (∀ t, in_cs reindeerMutex t s = true → t = Reindeer 0)
    ∧ mtxs s reindeerMutex = Some (Reindeer 0)).
Proof.
  run_after H.
  assert (in_cs reindeerMutex (Reindeer 0) s = true) as H0 by by_run H.
  destruct (critical_sections_exclusive _ _ _ H) as (Hex & Hown & _).
  split; [done|]. split.
  - intros t0 Ht. by apply (Hex reindeerMutex).
  - by apply Hown.
Defined.



(** ** The wake-up of a complete reindeer cohort *)

(** X9: the wake-up of a complete reindeer cohort is never lost.  In every
    reachable state in which [reindeerCount] is 9 and the reindeer that
    counted to 9 has posted (no reindeer is at line 131 or 133), a wake-up
    is left in [santaSem], or Santa has taken one and is between line 66
    and the end of the release loop of line 75. *)
Theorem reindeer_wakeup_kept sched tr s :
  run sched init = Some (tr, s) →
  vars s reindeerCount = NUM_REINDEER →
  (∀ i, reindeer s !! i ≠ Some R_test ∧ reindeer s !! i ≠ Some R_post_santa) →
  (0 < sems s santaSem)%nat ∨ on_the_way (santa s) = true.
Proof.
  intros Hrun Hrc Hno. apply (l_wakeup _ _ (ledger_run _ _ _ Hrun)).
  unfold pending_r. rewrite decide_True by done. unfold owner_reindeer_pc.
  destruct (mtxs s reindeerMutex) as [[|j|j]|]; try done.
  destruct (Hno j) as [H1 H2].
  destruct (reindeer s !! j) as [[]|]; done.
Qed.

Lemma reindeer_wakeup_kept_witness :
  after (three_elves ++ mjoin (reindeer_arrives <$> seq 0 8)
         ++ replicate 5 Santa ++ last_reindeer_arrives 8
         ++ replicate 10 Santa) (λ tr s,
    santa s = S_wait_santa ∧ vars s elfConsultations = 1
    ∧ vars s reindeerCount = NUM_REINDEER
    ∧ ((0 < sems s santaSem)%nat ∨ on_the_way (santa s) = true)).
Proof.
  run_after H.
  assert (santa s = S_wait_santa ∧ vars s elfConsultations = 1
          ∧ vars s reindeerCount = NUM_REINDEER) as (Hpc & Hc & Hrc).
  { vm_compute in H. by injection H as <- <-. }
  split; [done|]. split; [done|]. split; [done|].
  apply (reindeer_wakeup_kept _ _ _ H Hrc).
  intros i. vm_compute in H. injection H as <- <-.
  do 10 (destruct i as [|i]; [by split|]). by split.
Defined.

(** ** Absence of deadlock *)

(** X10: no deadlock.  In every reachable state in which the two
    statistics are below [INT_MAX], some thread can take a step. *)
Theorem no_deadlock sched tr s :
  run sched init = Some (tr, s) →
  vars s deliveries < INT_MAX → vars s elfConsultations < INT_MAX →
  ∃ t e s', step t s = Some (e, s').
Proof.
  intros Hrun Hd Hc. destruct (ledger_run _ _ _ Hrun) as [[Hinv _ _] _ Hw].
  by apply some_thread_can_step.
Qed.

Lemma no_deadlock_witness :
  after (nine_reindeer ++ nine_elves) (λ tr s,
    (∀ i, step (Reindeer i) s = None)
    ∧ (∀ i, (i < 9)%nat → step (Elf i) s = None)
    ∧ ∃ t e s', step t s = Some (e, s')).
Proof.
  run_after H.
  assert (vars s deliveries < INT_MAX ∧ vars s elfConsultations < INT_MAX)
    as [Hd Hc].
  { vm_compute in H. by injection H as <- <-. }
  split; [|split].
  - intros i. vm_compute in H. injection H as <- <-.
    do 9 (destruct i as [|i]; [done|]). done.
  - intros i Hi. vm_compute in H. injection H as <- <-.
    do 9 (destruct i as [|i]; [done|]). lia.
  - by apply (no_deadlock _ _ _ H).
Defined.

(** ** The tokens of the elves *)

(** X11: the elves are accounted for.  In every execution the number of
    elves that have incremented [waitingElves] and not yet returned from
    [sem_wait(&elfSem)] is the value of [elfSem], plus the elves of the
    flagged trio Santa has not yet posted for, plus the elves of the trio
    that is forming, plus three for every execution of line 161 that found
    [elfCount] at 3 already; and there are at most two of those. *)
Theorem elf_tokens_conserved sched tr s :
  run sched init = Some (tr, s) →
  total_arrived_e (elves s)
  = Z.of_nat (sems s elfSem) + flagged s + forming s + 3 * overwritten_trios tr
  ∧ 0 ≤ flagged s ≤ 3 ∧ 0 ≤ forming s ≤ 3
  ∧ 0 ≤ overwritten_trios tr ≤ 2.
Proof.
  intros Hrun.
  destruct (elves_accounted _ _ (ledger_run _ _ _ Hrun)) as (H1 & H2 & H3).
  pose proof (overwritten_le _ _ _ Hrun). done.
Qed.

Lemma elf_tokens_conserved_witness :
  after two_trios_then_santa (λ tr s,
    santa s = S_wait_santa ∧ sems s santaSem = 0%nat
    ∧ total_arrived_e (elves s) = 6 ∧ sems s elfSem = 3%nat
    ∧ flagged s = 0 ∧ forming s = 0
    ∧ overwritten_trios tr = 1).
Proof.
  run_after H.
  assert (santa s = S_wait_santa ∧ sems s santaSem = 0%nat
          ∧ total_arrived_e (elves s) = 6 ∧ sems s elfSem = 3%nat
          ∧ flagged s = 0 ∧ forming s = 0) as (Hpc & HsS & Ha & Hse & Hf & Hg).
  { vm_compute in H. by injection H as <- <-. }
  destruct (elf_tokens_conserved _ _ _ H) as (Heq & _).
  rewrite Ha, Hse, Hf, Hg in Heq.
  repeat split; try assumption. lia.
Defined.



(** ** Bounds of the semaphores *)

(** X13: the semaphores are bounded.  In every reachable state
    [santaSem] is at most 4, [reindeerSem] at most 9, [elfSem] at most 10
    and [santaMutex] at most 1. *)
Theorem semaphores_bounded sched tr s :
  run sched init = Some (tr, s) →
  (sems s santaSem ≤ 4)%nat ∧ (sems s reindeerSem ≤ 9)%nat
  ∧ (sems s elfSem ≤ 10)%nat ∧ (sems s santaMutex ≤ 1)%nat.
Proof.
  intros Hrun. pose proof (ledger_run _ _ _ Hrun) as Hl.
  pose proof (h_inv _ _ (l_history _ _ Hl)) as Hinv.
  split; [by eapply santaSem_le|]. split; [by apply reindeerSem_le|].
  split; [by eapply elfSem_le|].
  rewrite (inv_santaMutex _ Hinv). destruct (santa_critical _); lia.
Qed.

Lemma semaphores_bounded_witness :
  after (nine_elves ++ nine_reindeer) (λ tr s,
    sems s santaSem = 4%nat ∧ (sems s santaSem ≤ 4)%nat).
Proof.
  run_after H.
  assert (sems s santaSem = 4%nat) as HS by by_run H.
  split; [assumption|]. apply (semaphores_bounded _ _ _ H).
Defined.

(** ** Services and arrivals *)

(** X14: services are backed by arrivals.  With [D] the number of delivery
    steps ([usleep(500000)]), [C] the number of consultation steps
    ([usleep(300000)]) and [k] the number of overwritten trios of an
    execution, the increments of [reindeerCount] number between [9 * D] and
    [9 * D + 18], and the increments of [waitingElves] between
    [3 * C + 3 * k] and [3 * C + 3 * k + 9]. *)
Theorem services_backed_by_arrivals sched tr s :
  run sched init = Some (tr, s) →
  9 * count (ev (Usleep 500000)) tr ≤ count (ev (Incr reindeerCount)) tr
  ∧ count (ev (Incr reindeerCount)) tr ≤ 9 * count (ev (Usleep 500000)) tr + 18
  ∧ 3 * count (ev (Usleep 300000)) tr + 3 * overwritten_trios tr
    ≤ count (ev (Incr waitingElves)) tr
  ∧ count (ev (Incr waitingElves)) tr
    ≤ 3 * count (ev (Usleep 300000)) tr + 3 * overwritten_trios tr + 9.
Proof.
  intros Hrun. destruct (ledger_run _ _ _ Hrun) as [[Hinv Hc _] Ht _].
  pose proof (c_arrive_r _ _ Hc) as H1. pose proof (t_served_r _ _ Ht) as H2.
  pose proof (c_arrive_e _ _ Hc) as H3. pose proof (t_served_e _ _ Ht) as H4.
  pose proof (t_flag _ _ Ht) as H5. pose proof (t_overwritten _ _ Ht) as H6.
  pose proof (inv_elf _ Hinv) as He. pose proof (inv_ec _ Hinv) as Hec.
  pose proof (inv_santa _ Hinv) as Hs. pose proof (inv_rc _ Hinv) as Hrc.
  pose proof (reindeerCount_le _ Hinv) as Hrc9.
  unfold announcing, pending_e, NUM_REINDEER in *.
  destruct (santa s); simpl in *; unfold ELF_GROUP_SIZE in *;
    destruct (owner_elf_pc s) as [[]|]; simpl in *;
    case_decide; lia.
Qed.

Lemma services_backed_by_arrivals_witness :
  after (nine_reindeer ++ santa_delivers ++ two_trios_then_santa) (λ tr s,
    count (ev (Usleep 500000)) tr = 1 ∧ count (ev (Usleep 300000)) tr = 1
    ∧ overwritten_trios tr = 1
    ∧ 9 ≤ count (ev (Incr reindeerCount)) tr
    ∧ 6 ≤ count (ev (Incr waitingElves)) tr).
Proof.
  run_after H.
  assert (count (ev (Usleep 500000)) t = 1 ∧ count (ev (Usleep 300000)) t = 1
          ∧ overwritten_trios t = 1) as (Hd & Hc & Ho).
  { vm_compute in H. by injection H as <- <-. }
  destruct (services_backed_by_arrivals _ _ _ H) as (H1 & _ & H2 & _).
  rewrite Hd in H1. rewrite Hc, Ho in H2.
  repeat split; try assumption; lia.
Defined.

(** ** The wake-ups of Santa *)

(** X15: the wake-ups of Santa are accounted for.  In every execution
    the value of [santaSem], plus one while Santa has taken a wake-up and
    not yet acted on it, is the number of complete reindeer cohorts
    announced and not released (0 or 1), plus the flagged trio whose wake-up
    is posted (0 or 1), plus the overwritten trios less the passes that
    served nobody; and the passes that serve nobody are at most as many as
    the overwritten trios, at most two. *)
Theorem wakeups_conserved sched tr s :
  run sched init = Some (tr, s) →
  Z.of_nat (sems s santaSem) + deciding (santa s)
  = pending_r s + pending_trio s + (overwritten_trios tr - idle_passes tr)
  ∧ 0 ≤ idle_passes tr ≤ overwritten_trios tr
  ∧ overwritten_trios tr ≤ 2.
Proof.
  intros Hrun. pose proof (overwritten_le _ _ _ Hrun) as Ho.
  destruct (santaSem_accounted _ _ (ledger_run _ _ _ Hrun)) as (H1 & H2).
  split; [done|]. split; [done|lia].
Qed.

Lemma wakeups_conserved_witness :
  after (two_trios ++ santa_consults ++ replicate 8 Santa) (λ tr s,
    santa s = S_post_mutex ∧ sems s santaSem = 0%nat
    ∧ overwritten_trios tr = 1 ∧ idle_passes tr = 1).
Proof.
  run_after H.
  assert (santa s = S_post_mutex ∧ sems s santaSem = 0%nat
          ∧ overwritten_trios t = 1 ∧ pending_r s = 0 ∧ pending_trio s = 0)
    as (Hpc & HsS & Ho & Hr & Hp).
  { vm_compute in H. by injection H as <- <-. }
  destruct (wakeups_conserved _ _ _ H) as (Heq & _).
  rewrite Hpc, HsS, Ho, Hr, Hp in Heq. simpl in Heq.
  repeat split; try assumption. lia.
Defined.

(** X16: the wake-up of a flagged trio is never lost.  In every reachable
    state in which [elfCount] is 3 and the elf that set it has posted (no
    elf is at line 162 or 163), a wake-up is left in [santaSem], or Santa
    has taken one and not yet acted on it. *)
Theorem trio_wakeup_kept sched tr s :
  run sched init = Some (tr, s) →
  vars s elfCount = ELF_GROUP_SIZE →
  (∀ i, elves s !! i ≠ Some E_reset ∧ elves s !! i ≠ Some E_post_santa) →
  (0 < sems s santaSem)%nat ∨ deciding (santa s) = 1.
Proof.
  intros Hrun Hec Hno. pose proof (overwritten_le _ _ _ Hrun) as Ho.
  destruct (ledger_run _ _ _ Hrun) as [[Hinv Hc _] Ht _].
  pose proof (t_santaSem _ _ Ht) as H1. pose proof (c_notify_r _ _ Hc) as H2.
  pose proof (t_flag _ _ Ht) as H3. pose proof (t_overwritten _ _ Ht) as H4.
  pose proof (t_passes _ _ Ht) as H5. pose proof (t_idle _ _ Ht) as H6.
  pose proof (pending_r_le s) as H7.
  assert (announcing s = 0) as Ha.
  { unfold announcing, owner_elf_pc.
    destruct (mtxs s elfMutex) as [[|j|j]|]; try done.
    destruct (Hno j) as [Ha Hb]. destruct (elves s !! j) as [[]|]; done. }
  assert (deciding (santa s) = 0 ∨ deciding (santa s) = 1) as Hd
    by (destruct (santa s); simpl; auto).
  unfold ELF_GROUP_SIZE in *. rewrite decide_True in H4, H6 by done.
  destruct Hd as [Hd|Hd]; [left; lia|by right].
Qed.

Lemma trio_wakeup_kept_witness :
  after (nine_reindeer ++ three_elves ++ santa_delivers) (λ tr s,
    santa s = S_wait_santa ∧ vars s deliveries = 1
    ∧ vars s elfCount = ELF_GROUP_SIZE
    ∧ ((0 < sems s santaSem)%nat ∨ deciding (santa s) = 1)).
Proof.
  run_after H.
  assert (santa s = S_wait_santa ∧ vars s deliveries = 1
          ∧ vars s elfCount = ELF_GROUP_SIZE) as (Hpc & Hd & Hec).
  { vm_compute in H. by injection H as <- <-. }
  split; [done|]. split; [done|]. split; [done|].
  apply (trio_wakeup_kept _ _ _ H Hec).
  intros i. vm_compute in H. injection H as <- <-.
  do 11 (destruct i as [|i]; [by split|]). by split.
Defined.

(** ** The groups Santa finds *)

Lemma all_arrived l :
  total_arrived l = Z.of_nat (length l) →
  ∀ i p, l !! i = Some p → arrived p = 1.
Proof.
  intros Heq i p Hp.
  destruct (decide (arrived p = 0)) as [H0|H0].
  - pose proof (total_arrived_absent _ _ _ Hp H0). lia.
  - destruct p; simpl in *; done.
Qed.

Lemma elves_at_wait_arrived l :
  (∀ i p, l !! i = Some p → elf_holds p = false) →
  elves_at_wait l = total_arrived_e l.
Proof.
  induction l as [|a l IH]; intros H; [done|]. simpl.
  rewrite IH by (intros i p Hp; by apply (H (S i))).
  pose proof (H 0%nat a eq_refl). by destruct a.
Qed.

(** X19: a group Santa is about to find ready is there.  When Santa is
    at the test of line 70 and [reindeerCount] is 9, all nine reindeer are
    blocked at line 139 and [reindeerSem] is 0; when Santa is at the test
    of line 92 and [elfCount] is 3, the elves blocked at line 171 outnumber
    the tokens in [elfSem] by three at least.  This is a fact about the
    state at the test; it does not say which thread takes each of the posts
    that follow. *)
Theorem santa_finds_real_groups sched tr s :
  run sched init = Some (tr, s) →
  (santa s = S_test_r → vars s reindeerCount = NUM_REINDEER →
     (∀ i p, reindeer s !! i = Some p → p = R_wait)
     ∧ sems s reindeerSem = 0%nat)
  ∧ (santa s = S_test_e → vars s elfCount = ELF_GROUP_SIZE →
     Z.of_nat (sems s elfSem) + 3 ≤ elves_at_wait (elves s)).
Proof.
  intros Hrun. pose proof (ledger_run _ _ _ Hrun) as Hl.
  pose proof (h_inv _ _ (l_history _ _ Hl)) as Hinv. split.
  - intros Hpc Hrc. pose proof (inv_tokens _ Hinv) as Htok.
    pose proof (total_arrived_bound (reindeer s)) as Hb.
    rewrite Hpc, Hrc in Htok. simpl in Htok. unfold NUM_REINDEER in *.
    rewrite (inv_len _ Hinv) in Hb. split; [|lia].
    assert (mtxs s reindeerMutex = Some Santa) as Hm.
    { apply (inv_mutex _ Hinv). simpl. by rewrite Hpc. }
    intros i p Hp.
    assert (arrived p = 1) as Ha.
    { apply (all_arrived (reindeer s)) with i; [|done].
      rewrite (inv_len _ Hinv). lia. }
    destruct (decide (reindeer_holds p = true)) as [Hh|Hh].
    + destruct (owner_reindeer_pc_at _ _ _ Hinv Hp Hh) as [Hm' _]. congruence.
    + by destruct p.
  - intros Hpc Hec. destruct (elves_accounted _ _ Hl) as (Heq & Hf & Hg).
    pose proof (overwritten_nonneg tr) as Ho.
    assert (mtxs s elfMutex = Some Santa) as Hm.
    { apply (inv_mutex _ Hinv). simpl. by rewrite Hpc. }
    rewrite elves_at_wait_arrived.
    + unfold flagged in *. rewrite Hpc, Hec in *. simpl in *.
      unfold ELF_GROUP_SIZE in *. lia.
    + intros i p Hp. destruct (elf_holds p) eqn:Hh; [|done].
      destruct (owner_elf_pc_at _ _ _ Hinv Hp Hh) as [Hm' _]. congruence.
Qed.

Lemma santa_finds_real_groups_witness :
  after (nine_reindeer ++ replicate 3 Santa) (λ tr s,
    santa s = S_test_r ∧ vars s reindeerCount = NUM_REINDEER
    ∧ (∀ i p, reindeer s !! i = Some p → p = R_wait)
    ∧ sems s reindeerSem = 0%nat)
  ∧ after (three_elves ++ replicate 6 Santa) (λ tr s,
    santa s = S_test_e ∧ vars s elfCount = ELF_GROUP_SIZE
    ∧ Z.of_nat (sems s elfSem) + 3 ≤ elves_at_wait (elves s)).
Proof.
  split; run_after H.
  - assert (santa s = S_test_r ∧ vars s reindeerCount = NUM_REINDEER)
      as [Hpc Hrc].
    { vm_compute in H. by injection H as <- <-. }
    destruct (santa_finds_real_groups _ _ _ H) as [Hr _].
    destruct (Hr Hpc Hrc) as [Hall Hsem]. repeat split; assumption.
  - assert (santa s = S_test_e ∧ vars s elfCount = ELF_GROUP_SIZE)
      as [Hpc Hec].
    { vm_compute in H. by injection H as <- <-. }
    destruct (santa_finds_real_groups _ _ _ H) as [_ He].
    pose proof (He Hpc Hec). repeat split; assumption.
Defined.

(** ** Santa on its own *)

Lemma all_waiting_free s :
  inv s → (∀ i p, reindeer s !! i = Some p → p = R_wait) →
  owner_reindeer_pc s = None
  ∧ (mtxs s reindeerMutex = None ∨ mtxs s reindeerMutex = Some Santa)
  ∧ total_arrived (reindeer s) = 9.
Proof.
  intros Hinv Hall. split; [|split].
  - unfold owner_reindeer_pc.
    destruct (mtxs s reindeerMutex) as [[|j|j]|] eqn:Hm; try done.
    apply (inv_mutex _ Hinv) in Hm. simpl in Hm.
    destruct (reindeer s !! j) as [p|] eqn:Hp; [|done].
    by rewrite (Hall _ _ Hp) in Hm.
  - destruct (mtxs s reindeerMutex) as [[|j|j]|] eqn:Hm; auto.
    + apply (inv_mutex _ Hinv) in Hm. simpl in Hm.
      destruct (reindeer s !! j) as [p|] eqn:Hp; [|done].
      by rewrite (Hall _ _ Hp) in Hm.
    + by apply (inv_mutex _ Hinv) in Hm.
  - by rewrite (total_arrived_all_waiting _ Hall), (inv_len _ Hinv).
Qed.

Lemma santa_moves_on s n :
  reindeer_wait s → steps_to_release s = S n →
  ∃ e s', santa_step s = Some (e, s') ∧ reindeer_wait s'
          ∧ steps_to_release s' = n.
Proof.
  intros [Hinv Hw Hall Hrc He Hd Hc] Hn.
  destruct (all_waiting_free _ Hinv Hall) as (Hor & Hrm & Hta).
  pose proof (inv_mutex _ Hinv reindeerMutex Santa) as HrS.
  pose proof (inv_mutex _ Hinv elfMutex Santa) as HeS.
  pose proof (inv_santaMutex _ Hinv) as HsM.
  pose proof (inv_santa _ Hinv) as Hok.
  pose proof (inv_ec _ Hinv) as Hec.
  assert (santa s ≠ S_unlock_r) as Hne.
  { intros Hpc. unfold steps_to_release in Hn. by rewrite Hpc in Hn. }
  specialize (Hrc Hne).
  assert (santa s = S_wait_santa → (0 < sems s santaSem)%nat) as HsS.
  { intros Hpc. destruct Hw as [?|Ho]; [|done|by rewrite Hpc in Ho].
    unfold pending_r. rewrite decide_True by done. by rewrite Hor. }
  assert (∃ e s', santa_step s = Some (e, s')) as (e & s' & Hst).
  { unfold santa_step, sem_wait, mutex_lock, mutex_unlock, var_incr.
    simpl in HrS, HeS.
    destruct (santa s) eqn:Hpc; simpl in *;
      rewrite ?HsM, ?(proj2 HrS eq_refl), ?(proj2 HeS eq_refl); simpl;
      try (repeat case_decide; simpl; by eauto).
    - specialize (HsS eq_refl). destruct (sems s santaSem); [lia|].
      simpl. eauto.
    - destruct Hrm as [Hm|Hm]; [rewrite Hm; simpl; eauto|by apply HrS in Hm].
    - rewrite decide_True by auto. simpl. eauto.
    - destruct He as [Hm|Hm]; [rewrite Hm; simpl; eauto|by apply HeS in Hm].
    - rewrite decide_True by auto. simpl. eauto. }
  exists e, s'. split; [done|].
  assert (inv s') as Hinv' by (by apply (inv_santa_step s e s')).
  assert (wakeup_due s') as Hw' by (by apply (wakeup_santa_step s e s')).
  assert (∀ i p, reindeer s' !! i = Some p → p = R_wait) as Hall'.
  { intros i p. rewrite (step_frame_reindeer Santa s e s' i); [apply Hall|done..]. }
  unfold steps_to_release in *. unfold santa_step in Hst.
  destruct (santa s) eqn:Hpc; simplify_option_eq; prim_inv;
    unfold NUM_REINDEER, ELF_GROUP_SIZE in *; simpl in *.
  all: (split; [split; simpl; unfold upd; simpl; try done; try tauto;
                try (intros; lia)|]).
  all: try (simpl; unfold upd; simpl; repeat case_decide; lia).
Qed.

Lemma santa_runs_alone n s :
  reindeer_wait s → steps_to_release s = n →
  ∃ tr' s', run (replicate n Santa) s = Some (tr', s') ∧ reindeer_wait s'
            ∧ steps_to_release s' = 0%nat.
Proof.
  revert s. induction n as [|n IH]; intros s Hw Hn.
  - by exists [], s.
  - destruct (santa_moves_on _ _ Hw Hn) as (e & s1 & Hst & Hw1 & Hn1).
    destruct (IH _ Hw1 Hn1) as (tr' & s' & Hr & Hw' & Hn').
    exists ((Santa, e) :: tr'), s'. split; [|done].
    apply run_cons. by exists e, s1, tr'.
Qed.

Lemma steps_to_release_le s : inv s → (steps_to_release s ≤ 25)%nat.
Proof.
  intros Hinv. pose proof (inv_santa _ Hinv) as Hok.
  unfold steps_to_release, NUM_REINDEER, ELF_GROUP_SIZE in *.
  destruct (santa s); simpl in *; repeat case_decide; lia.
Qed.

Lemma steps_to_release_0 s :
  steps_to_release s = 0%nat → santa s = S_unlock_r.
Proof.
  unfold steps_to_release.
  destruct (santa s); simpl; repeat case_decide; try done; lia.
Qed.

(** X17: Santa releases the waiting reindeer.  In every reachable state in
    which all nine reindeer are blocked at line 139 with no token left, no
    elf is inside its critical section and the statistics are below
    [INT_MAX], Santa on its own reaches the unlock of line 80 in at most 25
    steps: by then it has set [reindeerCount] to 0 and [reindeerSem] holds
    nine tokens. *)
Theorem santa_releases_waiting_reindeer sched tr s :
  run sched init = Some (tr, s) →
  (∀ i p, reindeer s !! i = Some p → p = R_wait) →
  sems s reindeerSem = 0%nat →
  (∀ i p, elves s !! i = Some p → elf_holds p = false) →
  vars s deliveries < INT_MAX → vars s elfConsultations < INT_MAX →
  ∃ n tr' s', (n ≤ 25)%nat ∧ run (replicate n Santa) s = Some (tr', s')
    ∧ santa s' = S_unlock_r ∧ vars s' reindeerCount = 0
    ∧ sems s' reindeerSem = 9%nat.
Proof.
  intros Hrun Hall Hsem Helves Hd Hc.
  destruct (ledger_run _ _ _ Hrun) as [[Hinv _ _] _ Hw].
  destruct (all_waiting_free _ Hinv Hall) as (Hor & Hrm & Hta).
  pose proof (inv_tokens _ Hinv) as Htok. pose proof (inv_santa _ Hinv) as Hok.
  rewrite Hta, Hsem in Htok.
  assert (reindeer_wait s) as Hwait.
  { split; try done.
    - intros _. destruct (santa s); simpl in *; unfold NUM_REINDEER in *; lia.
    - destruct (mtxs s elfMutex) as [[|j|j]|] eqn:Hm; auto;
        apply (inv_mutex _ Hinv) in Hm; simpl in Hm; [done|].
      destruct (elves s !! j) as [p|] eqn:Hp; [|done]. simpl in Hm.
      by rewrite (Helves _ _ Hp) in Hm. }
  destruct (santa_runs_alone _ _ Hwait eq_refl)
    as (tr' & s' & Hr & [Hinv' _ Hall' _ _ _ _] & Hn).
  exists (steps_to_release s), tr', s'.
  split; [by apply steps_to_release_le|]. split; [done|].
  apply steps_to_release_0 in Hn. split; [done|].
  destruct (all_waiting_free _ Hinv' Hall') as (_ & _ & Hta').
  pose proof (inv_tokens _ Hinv') as Htok'.
  pose proof (inv_santa _ Hinv') as Hok'.
  rewrite Hta', Hn in Htok'. rewrite Hn in Hok'. simpl in *.
  split; [done|lia].
Qed.

Lemma santa_releases_waiting_reindeer_witness :
  after ninth_reindeer_behind_santa (λ tr s,
    santa s = S_lock_e ∧ vars s elfCount = 3
    ∧ ∃ n tr' s', (n ≤ 25)%nat ∧ run (replicate n Santa) s = Some (tr', s')
        ∧ santa s' = S_unlock_r ∧ vars s' reindeerCount = 0
        ∧ sems s' reindeerSem = 9%nat).
Proof.
  run_after H.
  assert (santa s = S_lock_e ∧ vars s elfCount = 3) as [Hpc Hec].
  { vm_compute in H. by injection H as <- <-. }
  split; [assumption|]. split; [assumption|].
  apply (santa_releases_waiting_reindeer _ _ _ H).
  - intros i p. vm_compute in H. injection H as <- <-.
    do 9 (destruct i as [|i]; [by intros [= <-]|]). done.
  - vm_compute in H. by injection H as <- <-.
  - intros i p. vm_compute in H. injection H as <- <-.
    do 10 (destruct i as [|i]; [by intros [= <-]|]). done.
  - vm_compute in H. by injection H as <- <-.
  - vm_compute in H. by injection H as <- <-.
Defined.

Lemma no_worker_inside s m :
  inv s →
  (∀ i p, reindeer s !! i = Some p → reindeer_holds p = false) →
  (∀ i p, elves s !! i = Some p → elf_holds p = false) →
  mtxs s m = None ∨ mtxs s m = Some Santa.
Proof.
  intros Hinv Hr He.
  destruct (mtxs s m) as [[|j|j]|] eqn:Hm; auto;
    apply (inv_mutex _ Hinv) in Hm; destruct m; simpl in Hm; try done.
  - destruct (reindeer s !! j) as [p|] eqn:Hp; [|done]. simpl in Hm.
    by rewrite (Hr _ _ Hp) in Hm.
  - destruct (elves s !! j) as [p|] eqn:Hp; [|done]. simpl in Hm.
    by rewrite (He _ _ Hp) in Hm.
Qed.

(** Santa moves and comes closer to its sleep, or it sleeps with no wake-up
    left. *)
Lemma santa_alone_step s :
  santa_alone s →
  (santa s = S_wait_santa ∧ sems s santaSem = 0%nat)
  ∨ ∃ e s', santa_step s = Some (e, s') ∧ santa_alone s'
            ∧ (santa_fuel s' < santa_fuel s)%nat.
Proof.
  intros [Hinv Hr He Hd Hc].
  destruct (decide (santa s = S_wait_santa ∧ sems s santaSem = 0%nat))
    as [|Hgo]; [by left|right].
  pose proof (no_worker_inside s reindeerMutex Hinv Hr He) as Hrm.
  pose proof (no_worker_inside s elfMutex Hinv Hr He) as Hem.
  pose proof (inv_mutex _ Hinv reindeerMutex Santa) as HrS.
  pose proof (inv_mutex _ Hinv elfMutex Santa) as HeS.
  pose proof (inv_santaMutex _ Hinv) as HsM.
  pose proof (inv_santa _ Hinv) as Hok.
  assert (∃ e s', santa_step s = Some (e, s')) as (e & s' & Hst).
  { unfold santa_step, sem_wait, mutex_lock, mutex_unlock, var_incr.
    simpl in HrS, HeS.
    destruct (santa s) eqn:Hpc; simpl in *;
      rewrite ?HsM, ?(proj2 HrS eq_refl), ?(proj2 HeS eq_refl); simpl;
      try (repeat case_decide; simpl; by eauto).
    - destruct (sems s santaSem); [tauto|]. simpl. eauto.
    - destruct Hrm as [Hm|Hm]; [rewrite Hm; simpl; eauto|by apply HrS in Hm].
    - rewrite decide_True by lia. simpl. eauto.
    - destruct Hem as [Hm|Hm]; [rewrite Hm; simpl; eauto|by apply HeS in Hm].
    - rewrite decide_True by lia. simpl. eauto. }
  exists e, s'. split; [done|].
  assert (inv s') as Hinv' by (by apply (inv_santa_step s e s')).
  assert (∀ i p, reindeer s' !! i = Some p → reindeer_holds p = false) as Hr'.
  { intros i p. rewrite (step_frame_reindeer Santa s e s' i); [apply Hr|done..]. }
  assert (∀ i p, elves s' !! i = Some p → elf_holds p = false) as He'.
  { intros i p. rewrite (step_frame_elf Santa s e s' i); [apply He|done..]. }
  unfold santa_fuel in *. unfold santa_step in Hst.
  destruct (santa s) eqn:Hpc; simplify_option_eq; prim_inv;
    unfold NUM_REINDEER, ELF_GROUP_SIZE in *; simpl in *.
  all: (split; [split; simpl; unfold upd; simpl; try done; try lia|]).
  all: try (simpl; unfold upd; simpl; repeat case_decide; lia).
Qed.

Lemma santa_alone_run m s :
  (santa_fuel s ≤ m)%nat → santa_alone s →
  ∃ n tr' s', (n ≤ m)%nat ∧ run (replicate n Santa) s = Some (tr', s')
    ∧ santa_alone s' ∧ santa s' = S_wait_santa ∧ sems s' santaSem = 0%nat.
Proof.
  revert s. induction m as [|m IH]; intros s Hm Ha.
  - destruct (santa_alone_step _ Ha) as [[Hpc Hs]|(e & s1 & _ & _ & Hlt)];
      [|lia].
    by exists 0%nat, [], s.
  - destruct (santa_alone_step _ Ha) as [[Hpc Hs]|(e & s1 & Hst & Ha1 & Hlt)].
    + exists 0%nat, [], s. split; [lia|done].
    + destruct (IH s1 ltac:(lia) Ha1) as (n & tr' & s' & Hn & Hr & Hrest).
      exists (S n), ((Santa, e) :: tr'), s'. split; [lia|].
      split; [|done]. apply run_cons. by exists e, s1, tr'.
Qed.

Lemma santa_fuel_le s :
  inv s → (sems s santaSem ≤ 4)%nat → (santa_fuel s ≤ 89)%nat.
Proof.
  intros Hinv Hs. pose proof (inv_santa _ Hinv) as Hok.
  unfold santa_fuel, pass_rank.
  destruct (santa s); simpl in *; unfold NUM_REINDEER, ELF_GROUP_SIZE in *;
    lia.
Qed.

(** X18: Santa on its own comes to rest with no group flagged.  From every
    reachable state in which no worker is inside a critical section and each
    statistic is at least 5 below [INT_MAX], Santa on its own takes at most
    89 steps and then blocks at line 64 with [santaSem] at 0; in that state
    [reindeerCount] is not 9 and [elfCount] is not 3.  Elves of an
    overwritten trio can still be blocked at line 171 in that state: the
    statement is about the two flags, not about who is left waiting. *)
Theorem santa_alone_comes_to_rest sched tr s :
  run sched init = Some (tr, s) →
  (∀ i p, reindeer s !! i = Some p → reindeer_holds p = false) →
  (∀ i p, elves s !! i = Some p → elf_holds p = false) →
  vars s deliveries + 5 ≤ INT_MAX → vars s elfConsultations + 5 ≤ INT_MAX →
  ∃ n tr' s', (n ≤ 89)%nat ∧ run (replicate n Santa) s = Some (tr', s')
    ∧ santa s' = S_wait_santa ∧ sems s' santaSem = 0%nat
    ∧ step Santa s' = None
    ∧ vars s' reindeerCount ≠ NUM_REINDEER
    ∧ vars s' elfCount ≠ ELF_GROUP_SIZE.
Proof.
  intros Hrun Hr He Hd Hc.
  pose proof (h_inv _ _ (history_run _ _ _ Hrun)) as Hinv.
  pose proof (santaSem_le _ _ _ Hrun) as HsS.
  assert (santa_alone s) as Ha.
  { split; try done; destruct (santa s); simpl; lia. }
  destruct (santa_alone_run 89 s (santa_fuel_le _ Hinv HsS) Ha)
    as (n & tr' & s' & Hn & Hrun' & [Hinv' Hr' He' _ _] & Hpc & Hsem).
  exists n, tr', s'. split; [done|]. split; [done|]. split; [done|].
  split; [done|]. split.
  { simpl. unfold santa_step, sem_wait. by rewrite Hpc, Hsem. }
  assert (run (sched ++ replicate n Santa) init = Some (tr ++ tr', s'))
    as Hall by (apply run_app; by exists tr, s, tr').
  destruct (santaSem_accounted _ _ (ledger_run _ _ _ Hall)) as (Heq & Hi).
  rewrite Hpc, Hsem in Heq. simpl in Heq.
  assert (owner_reindeer_pc s' = None) as Hor.
  { unfold owner_reindeer_pc.
    destruct (no_worker_inside s' reindeerMutex Hinv' Hr' He') as [-> | ->];
      done. }
  assert (announcing s' = 0) as Han.
  { unfold announcing, owner_elf_pc.
    destruct (no_worker_inside s' elfMutex Hinv' Hr' He') as [-> | ->]; done. }
  unfold pending_trio, pending_r in Heq. rewrite Hor, Han in Heq.
  unfold ELF_GROUP_SIZE, NUM_REINDEER in *.
  repeat case_decide; split; lia.
Qed.

Lemma santa_alone_comes_to_rest_witness :
  after (nine_reindeer ++ nine_elves) (λ tr s,
    sems s santaSem = 4%nat ∧ vars s reindeerCount = 9 ∧ vars s elfCount = 3
    ∧ ∃ n tr' s', (n ≤ 89)%nat ∧ run (replicate n Santa) s = Some (tr', s')
        ∧ santa s' = S_wait_santa ∧ sems s' santaSem = 0%nat
        ∧ vars s' reindeerCount ≠ NUM_REINDEER
        ∧ vars s' elfCount ≠ ELF_GROUP_SIZE).
Proof.
  run_after H.
  assert (sems s santaSem = 4%nat ∧ vars s reindeerCount = 9
          ∧ vars s elfCount = 3) as (HsS & Hrc & Hec).
  { vm_compute in H. by injection H as <- <-. }
  split; [assumption|]. split; [assumption|]. split; [assumption|].
  destruct (santa_alone_comes_to_rest _ _ _ H)
    as (n & tr' & s' & Hn & Hr & Hpc & Hs & _ & H9 & H3).
  - intros i p. vm_compute in H. injection H as <- <-.
    do 9 (destruct i as [|i]; [by intros [= <-]|]). done.
  - intros i p. vm_compute in H. injection H as <- <-.
    do 10 (destruct i as [|i]; [by intros [= <-]|]). done.
  - vm_compute in H. by injection H as <- <-.
  - vm_compute in H. by injection H as <- <-.
  - exists n, tr', s'. repeat split; assumption.
Defined.
